(** * Link Pro client script: analytics log, theme switch, counter animation

    A shallow embedding of [script-clean.js]: the [Utils], [Analytics] and
    [Theme] objects, the browser state they read and write, and the
    properties of the event log, the summary, the theme switch and the
    counter animation; then the observers and listeners of [Animations] and
    [Performance], the link cards and the controller's [init].

    Modelling conventions.
    - JavaScript values are the JSON-shaped ones the script stores: numbers
      are the integer-valued ones (as [Z]); the numbers of [animateNumber]
      are binary64, with the rounding of every operation written out;
      the two other computations that divide
      ([calculateAverageSessionTime] and the opacity of the header) are
      on exact rationals.
    - An object literal is the list of its own properties in insertion order.
    - What the browser supplies at a call (the clock, the random suffix, the
      address, whether local storage accepts a write) is an explicit [Env]
      argument; one handler runs within one clock reading.
    - A JavaScript exception is an explicit outcome, [Throw] or [Thrown]. *)

From Stdlib Require Import ZArith QArith Qround Qminmax Qpower String BinaryString List Lia Lqa.
From stdpp Require Import base option list strings gmap pretty countable.

Set Warnings "-register-all".
Local Open Scope Z_scope.
Local Open Scope string_scope.
Local Open Scope list_scope.

(** ** Values *)

Inductive JSValue : Type :=
| JUndefined
| JNull
| JBool (b : bool)
| JNum (n : Z)
| JStr (s : string)
| JArr (items : list JSValue)
| JObj (props : list (string * JSValue)).

Inductive JSError : Type :=
| TypeError
| SyntaxError
| QuotaExceededError
| SecurityError.

(** Result of an expression that may raise. *)
Inductive Outcome (A : Type) : Type :=
| Normal (a : A)
| Throw (e : JSError).
Arguments Normal {A} a.
Arguments Throw {A} e.

#[export] Instance Outcome_ret : MRet Outcome := fun A a => Normal a.
#[export] Instance Outcome_bind : MBind Outcome := fun A B k m =>
  match m with
  | Normal a => k a
  | Throw e => Throw e
  end.

(** Result of a statement or of a handler. *)
Inductive Completion : Type :=
| Returned
| Thrown (e : JSError).

(** ** Objects as ordered property lists *)

Module Obj.

Fixpoint get (k : string) (o : list (string * JSValue)) : option JSValue :=
  match o with
  | [] => None
  | (k', v) :: o' => if String.eqb k k' then Some v else get k o'
  end.

(** [o[k] = v]: an existing property keeps its place, a new one goes last. *)
Fixpoint set (k : string) (v : JSValue) (o : list (string * JSValue))
  : list (string * JSValue) :=
  match o with
  | [] => [(k, v)]
  | (k', v') :: o' =>
      if String.eqb k k' then (k', v) :: o' else (k', v') :: set k v o'
  end.

(** [{...src}] copied onto [dst], property by property. *)
Definition assign (dst src : list (string * JSValue)) : list (string * JSValue) :=
  fold_left (fun acc kv => set (fst kv) (snd kv) acc) src dst.

End Obj.

(** [v.k] for the property names the script reads from logged events
    ([name], [data], [category], [duration], [sessionId], [id]): reading a
    property of [undefined] or [null] raises a TypeError; arrays, strings,
    numbers and booleans have no property of these names. *)
Definition get_prop (v : JSValue) (k : string) : Outcome JSValue :=
  match v with
  | JUndefined | JNull => Throw TypeError
  | JObj props => Normal (default JUndefined (Obj.get k props))
  | _ => Normal JUndefined
  end.

(** ** What the browser supplies *)

Record Env : Type := {
  now : Z;              (* Date.now() *)
  random36 : string;    (* Math.random().toString(36).substr(2, 9) *)
  href : string;        (* window.location.href *)
  storage_ok : bool;    (* the access to the analytics key completes (true) or raises (false) *)
  theme_storage_ok : bool;  (* the same for the access to the theme key *)
  prefers_dark : bool;  (* matchMedia('(prefers-color-scheme: dark)').matches *)
}.

Inductive ConsoleEntry : Type :=
| ConsoleLog (label : string) (v : JSValue)
| ConsoleWarn (label : string) (e : JSError).

Inductive EventType : Type :=
| beforeunload
| load
| click_themeToggle
| change_colorScheme.

Inductive Handler : Type :=
| H_trackSessionEnd
| H_trackPerformance
| H_themeToggle
| H_watchSystemTheme.

(** The state the [Analytics] object holds once [init] has run. *)
Record Session : Type := {
  sessionId : string;
  startTime : Z;
  events : list JSValue;
}.

Record World : Type := {
  analytics : option Session;           (* None: Analytics.init has not run *)
  currentTheme : string;                (* Theme.currentTheme; "" before Theme.init sets it *)
  localStorage : gmap string string;
  console : list ConsoleEntry;          (* oldest first *)
  data_theme : option string;           (* <html data-theme=...> *)
  toggle_icon : option string;          (* className of '#themeToggle i', if the element exists *)
  listeners : list (EventType * Handler);  (* in registration order *)
}.

Definition set_analytics (a : option Session) (w : World) : World :=
  {| analytics := a; currentTheme := currentTheme w;
     localStorage := localStorage w; console := console w;
     data_theme := data_theme w; toggle_icon := toggle_icon w;
     listeners := listeners w |}.

Definition set_currentTheme (t : string) (w : World) : World :=
  {| analytics := analytics w; currentTheme := t;
     localStorage := localStorage w; console := console w;
     data_theme := data_theme w; toggle_icon := toggle_icon w;
     listeners := listeners w |}.

Definition set_localStorage (m : gmap string string) (w : World) : World :=
  {| analytics := analytics w; currentTheme := currentTheme w;
     localStorage := m; console := console w;
     data_theme := data_theme w; toggle_icon := toggle_icon w;
     listeners := listeners w |}.

Definition console_add (c : ConsoleEntry) (w : World) : World :=
  {| analytics := analytics w; currentTheme := currentTheme w;
     localStorage := localStorage w; console := console w ++ [c];
     data_theme := data_theme w; toggle_icon := toggle_icon w;
     listeners := listeners w |}.

Definition set_dom (attr : option string) (icon : option string) (w : World) : World :=
  {| analytics := analytics w; currentTheme := currentTheme w;
     localStorage := localStorage w; console := console w;
     data_theme := attr; toggle_icon := icon;
     listeners := listeners w |}.

Definition addEventListener (t : EventType) (h : Handler) (w : World) : World :=
  {| analytics := analytics w; currentTheme := currentTheme w;
     localStorage := localStorage w; console := console w;
     data_theme := data_theme w; toggle_icon := toggle_icon w;
     listeners := listeners w ++ [(t, h)] |}.

(** ** Built-in conversions *)

(** ToString, as a property key or a string operand needs it. An array joins
    its elements with commas, [undefined] and [null] elements as empty. *)
Fixpoint to_string (v : JSValue) : string :=
  match v with
  | JUndefined => "undefined"
  | JNull => "null"
  | JBool b => if b then "true" else "false"
  | JNum n => pretty n
  | JStr s => s
  | JArr items =>
      (fix join (l : list JSValue) : string :=
         match l with
         | [] => ""
         | x :: l' =>
             let sx := match x with
                       | JUndefined | JNull => ""
                       | _ => to_string x
                       end in
             match l' with
             | [] => sx
             | _ => sx +:+ "," +:+ join l'
             end
         end) items
  | JObj _ => "[object Object]"
  end.

(** What [JSON.parse (JSON.stringify v)] gives back: a property whose value
    is [undefined] is left out, an [undefined] array element becomes [null]. *)
Fixpoint json_clean (v : JSValue) : JSValue :=
  match v with
  | JArr items =>
      JArr ((fix go (l : list JSValue) : list JSValue :=
               match l with
               | [] => []
               | x :: l' =>
                   match x with
                   | JUndefined => JNull
                   | _ => json_clean x
                   end :: go l'
               end) items)
  | JObj props =>
      JObj ((fix go (l : list (string * JSValue)) : list (string * JSValue) :=
               match l with
               | [] => []
               | (k, x) :: l' =>
                   match x with
                   | JUndefined => go l'
                   | _ => (k, json_clean x) :: go l'
                   end
               end) props)
  | _ => v
  end.

(** The browser's JSON object. [JSON_parse] is [None] where [JSON.parse]
    raises a SyntaxError. *)
Class JSONCodec : Type := {
  JSON_stringify : JSValue -> string;
  JSON_parse : string -> option JSValue;
  JSON_parse_stringify :
    forall v, v <> JUndefined -> JSON_parse (JSON_stringify v) = Some (json_clean v);
  JSON_parse_empty : JSON_parse "" = None;
}.

(** [Math.round]: the nearest integer, a tie going up. *)
Definition Math_round (q : Q) : Z := Qfloor (q + (1 # 2))%Q.

(** ** Binary64 numbers *)

(** The arithmetic of [animateNumber] is that of binary64 floating-point
    numbers (IEEE 754): every operation gives the exact result rounded to
    the nearest number of 53 significant bits, a tie going to the even one,
    with gradual underflow below 2^-1022 and overflow to infinity from
    2^1024 on. *)
Module Double.

(** A finite number is the rational it denotes, in lowest terms. The sign
    of a zero is not tracked: a zero divisor counts as positive. *)
Inductive double : Type :=
| Finite (q : Q)
| Infinity (negative : bool)
| NaN.

Definition pow2 (k : Z) : Q := Qpower 2 k.

(** For [q > 0], the [e] with [2^e <= q < 2^(e+1)]: the difference of the
    bit lengths of numerator and denominator, or one less. *)
Definition exponent (q : Q) : Z :=
  let e := Z.log2 (Qnum q) - Z.log2 (Zpos (Qden q)) in
  if Qle_bool (pow2 e) q then e else e - 1.

(** The nearest integer, a tie going to the even one. *)
Definition round_half_even (q : Q) : Z :=
  let f := Qfloor q in
  match (q - inject_Z f ?= 1 # 2)%Q with
  | Lt => f
  | Gt => f + 1
  | Eq => if Z.even f then f else f + 1
  end.

(** Rounding of [q > 0]: to a multiple of the unit in the last place, which
    is [2^(e-52)] and at least [2^-1074]. *)
Definition round_pos (q : Q) : double :=
  let ulp := pow2 (Z.max (exponent q - 52) (-1074)) in
  let r := (inject_Z (round_half_even (q / ulp)) * ulp)%Q in
  if Qle_bool (pow2 1024) r then Infinity false else Finite (Qred r).

Definition neg (x : double) : double :=
  match x with
  | Finite q => Finite (- q)
  | Infinity negative => Infinity (negb negative)
  | NaN => NaN
  end.

Definition round (q : Q) : double :=
  match (q ?= 0)%Q with
  | Eq => Finite 0
  | Gt => round_pos q
  | Lt => neg (round_pos (- q))
  end.

(** The number that an integer literal or [parseInt] gives. *)
Definition of_Z (n : Z) : double := round (inject_Z n).

(** [x + y] *)
Definition add (x y : double) : double :=
  match x, y with
  | NaN, _ | _, NaN => NaN
  | Infinity a, Infinity b => if Bool.eqb a b then Infinity a else NaN
  | Infinity a, Finite _ | Finite _, Infinity a => Infinity a
  | Finite a, Finite b => round (a + b)
  end.

Definition negative (q : Q) : bool := negb (Qle_bool 0 q).

(** [x / y] *)
Definition div (x y : double) : double :=
  match x, y with
  | NaN, _ | _, NaN => NaN
  | Infinity _, Infinity _ => NaN
  | Infinity a, Finite b => Infinity (xorb a (negative b))
  | Finite _, Infinity _ => Finite 0
  | Finite a, Finite b =>
      if Qeq_bool b 0
      then if Qeq_bool a 0 then NaN else Infinity (negative a)
      else round (a / b)
  end.

(** [x >= y] *)
Definition ge (x y : double) : bool :=
  match x, y with
  | NaN, _ | _, NaN => false
  | Infinity a, Infinity b => implb a b
  | Infinity a, Finite _ => negb a
  | Finite _, Infinity b => b
  | Finite a, Finite b => Qle_bool b a
  end.

(** [Math.floor(x)] *)
Definition floor (x : double) : double :=
  match x with
  | Finite q => Finite (inject_Z (Qfloor q))
  | _ => x
  end.

End Double.

(** ** Configuration *)

Module APP_CONFIG.
Module analytics.
Definition enabled : bool := true.
Definition trackingKey : string := "linkpro_analytics".
End analytics.
End APP_CONFIG.

(** ** Utilities *)

Module Utils.

Definition generateId (env : Env) : string :=
  "linkpro_" +:+ pretty (now env) +:+ "_" +:+ random36 env.

(** One run of the interval callback of [animateNumber]: the new value of
    [current], whether the timer was cleared, and the number written to
    [element.textContent] (before its locale formatting). *)
Definition animateNumber_tick (target increment current : Double.double)
  : Double.double * bool * Double.double :=
  let current := Double.add current increment in
  if Double.ge current target
  then (target, true, Double.floor target)
  else (current, false, Double.floor current).

(** The callbacks the timer runs, at most [fuel] of them: the numbers
    written, and whether the timer has been cleared. *)
Fixpoint animateNumber_run (fuel : nat) (target increment current : Double.double)
  : list Double.double * bool :=
  match fuel with
  | O => ([], false)
  | S fuel' =>
      let '(current', cleared, shown) := animateNumber_tick target increment current in
      if cleared then ([shown], true)
      else
        let '(rest, done) := animateNumber_run fuel' target increment current' in
        (shown :: rest, done)
  end.

Definition animateNumber (fuel : nat) (target duration : Double.double)
  : list Double.double * bool :=
  let start := Double.of_Z 0 in
  let increment := Double.div target (Double.div duration (Double.of_Z 16)) in
  animateNumber_run fuel target increment start.

End Utils.

(** ** Local storage *)

Definition setItem (ok : bool) (k v : string) (w : World) : Completion * World :=
  if ok then (Returned, set_localStorage (<[k := v]> (localStorage w)) w)
  else (Thrown QuotaExceededError, w).

Definition getItem (ok : bool) (k : string) (w : World) : Outcome (option string) :=
  if ok then Normal (localStorage w !! k) else Throw SecurityError.

(** ** The summary's building blocks *)

(** [array.filter(p)]: the callback runs on each element in order, and an
    exception it raises ends the call. *)
Fixpoint filterM {A : Type} (p : A -> Outcome bool) (l : list A) : Outcome (list A) :=
  match l with
  | [] => Normal []
  | x :: l' =>
      b ← p x;
      rest ← filterM p l';
      Normal (if b : bool then x :: rest else rest)
  end.

(** [e => e.name === n] *)
Definition has_name (n : string) (e : JSValue) : Outcome bool :=
  v ← get_prop e "name";
  Normal (match v with
          | JStr s => String.eqb s n
          | _ => false
          end).

(** [events.filter], [events.length]: only an array has them. *)
Definition as_array (v : JSValue) : Outcome (list JSValue) :=
  match v with
  | JArr items => Normal items
  | _ => Throw TypeError
  end.

(** A value of the [categories] object: a count, or the text that [+ 1]
    produces once its left operand is not a number. *)
Inductive Tally : Type :=
| TNum (n : Z)
| TStr (s : string).

(** The property names every object created by [{}] inherits from
    [Object.prototype]. *)
Definition Object_prototype_keys : list string :=
  [ "constructor"; "__defineGetter__"; "__defineSetter__"; "hasOwnProperty";
    "__lookupGetter__"; "__lookupSetter__"; "isPrototypeOf";
    "propertyIsEnumerable"; "toString"; "valueOf"; "__proto__";
    "toLocaleString" ].

(** The string an inherited property turns into as an operand of [+]: the
    accessor [__proto__] reads as [Object.prototype] itself, the others are
    built-in functions. *)
Definition inherited_text (k : string) : option string :=
  if String.eqb k "__proto__" then Some "[object Object]"
  else if String.eqb k "constructor" then Some "function Object() { [native code] }"
  else if bool_decide (k ∈ Object_prototype_keys)
       then Some ("function " +:+ k +:+ "() { [native code] }")
       else None.

(** [(categories[k] || 0) + 1] *)
Definition next_tally (categories : gmap string Tally) (k : string) : Tally :=
  match categories !! k with
  | Some (TNum n) => TNum (n + 1)
  | Some (TStr s) => if String.eqb s "" then TNum 1 else TStr (s +:+ "1")
  | None =>
      match inherited_text k with
      | Some text => TStr (text +:+ "1")
      | None => TNum 1
      end
  end.

(** [categories[k] = (categories[k] || 0) + 1]. Assigning a string to
    [__proto__] reaches the inherited setter, which ignores it. *)
Definition count_category (categories : gmap string Tally) (k : string)
  : gmap string Tally :=
  if String.eqb k "__proto__" then categories
  else <[k := next_tally categories k]> categories.

(** [clicks.forEach(click => { ... })] *)
Fixpoint tally_clicks (clicks : list JSValue) (categories : gmap string Tally)
  : Outcome (gmap string Tally) :=
  match clicks with
  | [] => Normal categories
  | click :: rest =>
      data ← get_prop click "data";
      category ← get_prop data "category";
      tally_clicks rest (count_category categories (to_string category))
  end.

(** [sum + session.data.duration] on the integers. [None]: the operand is not
    a number, so that [+] gives NaN or concatenates strings; the arithmetic
    on such values is outside this development. *)
Definition add_duration (sum : option Z) (d : JSValue) : option Z :=
  match sum, d with
  | Some s, JNum n => Some (s + n)
  | _, _ => None
  end.

(** [sessions.reduce((sum, session) => sum + session.data.duration, sum0)] *)
Fixpoint sum_durations (sessions : list JSValue) (sum : option Z) : Outcome (option Z) :=
  match sessions with
  | [] => Normal sum
  | session :: rest =>
      data ← get_prop session "data";
      d ← get_prop data "duration";
      sum_durations rest (add_duration sum d)
  end.

Record Summary : Type := {
  totalEvents : Z;
  totalClicks : Z;
  categories : gmap string Tally;
  averageSessionTime : option Z;
}.

(** ** Analytics *)

Module Analytics.
Section WithJSON.
Context `{codec : JSONCodec}.

Definition generateSessionId (env : Env) : string :=
  "session_" +:+ pretty (now env) +:+ "_" +:+ random36 env.

(** [this.sessionId] *)
Definition this_sessionId (w : World) : JSValue :=
  match analytics w with
  | Some s => JStr (sessionId s)
  | None => JUndefined
  end.

(** [JSON.stringify(this.events)] as [setItem] stores it; [undefined]
    is stored as the text "undefined". *)
Definition serialized_events (w : World) : string :=
  match analytics w with
  | Some s => JSON_stringify (JArr (events s))
  | None => "undefined"
  end.

Definition saveToStorage (env : Env) (w : World) : World :=
  match setItem (storage_ok env) APP_CONFIG.analytics.trackingKey
                (serialized_events w) w with
  | (Returned, w') => w'
  | (Thrown e, w') => console_add (ConsoleWarn "Analytics storage failed:" e) w'
  end.

(** The object literal that [trackEvent] builds. *)
Definition make_event (env : Env) (sid : JSValue) (eventName : string)
           (data : list (string * JSValue)) : JSValue :=
  JObj [ ("id", JStr (Utils.generateId env));
         ("sessionId", sid);
         ("name", JStr eventName);
         ("data", JObj (Obj.set "url" (JStr (href env))
                          (Obj.set "timestamp" (JNum (now env))
                             (Obj.assign [] data)))) ].

Definition trackEvent (env : Env) (eventName : string)
           (data : list (string * JSValue)) (w : World) : Completion * World :=
  if negb APP_CONFIG.analytics.enabled then (Returned, w)
  else
    let event := make_event env (this_sessionId w) eventName data in
    match analytics w with
    | None => (Thrown TypeError, w)    (* this.events is undefined *)
    | Some s =>
        let s' := {| sessionId := sessionId s; startTime := startTime s;
                     events := events s ++ [event] |} in
        let w := set_analytics (Some s') w in
        let w := saveToStorage env w in
        (Returned, console_add (ConsoleLog "Analytics Event:" event) w)
    end.

Definition trackLinkClick (env : Env) (linkUrl linkText category position : JSValue)
           (w : World) : Completion * World :=
  trackEvent env "link_click"
    [ ("linkUrl", linkUrl); ("linkText", linkText);
      ("category", category); ("position", position) ] w.

(** [trackPerformance], on a window that has [performance]: the [load]
    listener it registers only schedules a timer task. *)
Definition trackPerformance (w : World) : World :=
  addEventListener load H_trackPerformance w.

Definition trackSessionEnd (env : Env) (w : World) : Completion * World :=
  match analytics w with
  | None => (Thrown TypeError, w)     (* this.events.length *)
  | Some s =>
      trackEvent env "session_end"
        [ ("duration", JNum (now env - startTime s));
          ("eventsCount", JNum (Z.of_nat (length (events s)))) ] w
  end.

(** [env0] is the browser when the session is created, [env] when the
    [page_view] event is recorded; [referrer] is [document.referrer] and
    [device] the result of [Utils.getDeviceInfo()]. *)
Definition init (env0 env : Env) (referrer : string) (device : JSValue)
           (w : World) : Completion * World :=
  if negb APP_CONFIG.analytics.enabled then (Returned, w)
  else
    let s := {| sessionId := generateSessionId env0; startTime := now env0;
                events := [] |} in
    let w := set_analytics (Some s) w in
    match trackEvent env "page_view"
            [ ("url", JStr (href env)); ("referrer", JStr referrer);
              ("device", device) ] w with
    | (Thrown e, w) => (Thrown e, w)
    | (Returned, w) =>
        let w := trackPerformance w in
        (Returned, addEventListener beforeunload H_trackSessionEnd w)
    end.

Definition loadFromStorage (env : Env) (w : World) : JSValue * World :=
  let attempt :=
    data ← getItem (storage_ok env) APP_CONFIG.analytics.trackingKey w;
    match data with
    | Some text =>
        if String.eqb text "" then Normal (JArr [])
        else match JSON_parse text with
             | Some v => Normal v
             | None => Throw SyntaxError
             end
    | None => Normal (JArr [])
    end in
  match attempt with
  | Normal v => (v, w)
  | Throw e => (JArr [], console_add (ConsoleWarn "Analytics load failed:" e) w)
  end.

Definition calculateAverageSessionTime (events : list JSValue) : Outcome (option Z) :=
  sessions ← filterM (has_name "session_end") events;
  if (length sessions =? 0)%nat then Normal (Some 0)
  else
    totalTime ← sum_durations sessions (Some 0);
    Normal (option_map
              (fun t : Z =>
                 Math_round (inject_Z t / inject_Z (Z.of_nat (length sessions)) / 1000)%Q)
              totalTime).

Definition getSummary (env : Env) (w : World) : Outcome Summary * World :=
  let '(loaded, w) := loadFromStorage env w in
  (events ← as_array loaded;
   clicks ← filterM (has_name "link_click") events;
   categories ← tally_clicks clicks ∅;
   average ← calculateAverageSessionTime events;
   Normal {| totalEvents := Z.of_nat (length events);
             totalClicks := Z.of_nat (length clicks);
             categories := categories;
             averageSessionTime := average |},
   w).

End WithJSON.
End Analytics.

(** ** Theme *)

Module Theme.
Section WithJSON.
Context `{codec : JSONCodec}.

Definition getStoredTheme (env : Env) (w : World) : Outcome (option string) :=
  getItem (theme_storage_ok env) "linkpro_theme" w.

Definition storeTheme (env : Env) (theme : string) (w : World) : Completion * World :=
  setItem (theme_storage_ok env) "linkpro_theme" theme w.

Definition updateThemeIcon (env : Env) (theme : string) (w : World) : World :=
  match toggle_icon w with
  | None => w
  | Some _ =>
      let isDark := String.eqb theme "dark"
                    || (String.eqb theme "system" && prefers_dark env) in
      set_dom (data_theme w) (Some (if isDark then "fas fa-sun" else "fas fa-moon")) w
  end.

Definition applyTheme (env : Env) (theme : string) (w : World) : World :=
  let w :=
    if String.eqb theme "system"
    then set_dom (Some (if prefers_dark env then "dark" else "light")) (toggle_icon w) w
    else set_dom (Some theme) (toggle_icon w) w in
  updateThemeIcon env theme w.

(** The click listener that [setupThemeToggle] registers. *)
Definition themeToggle_click (env : Env) (w : World) : Completion * World :=
  let theme := if String.eqb (currentTheme w) "light" then "dark" else "light" in
  let w := set_currentTheme theme w in
  match storeTheme env theme w with
  | (Thrown e, w) => (Thrown e, w)
  | (Returned, w) =>
      let w := applyTheme env theme w in
      Analytics.trackEvent env "theme_change" [ ("theme", JStr theme) ] w
  end.

(** [has_toggle]: the page has an element with id [themeToggle]. *)
Definition setupThemeToggle (has_toggle : bool) (w : World) : World :=
  if has_toggle then addEventListener click_themeToggle H_themeToggle w else w.

(** The change listener that [watchSystemTheme] registers on the
    color-scheme media query. *)
Definition systemTheme_change (env : Env) (w : World) : World :=
  if String.eqb (currentTheme w) "system" then applyTheme env "system" w else w.

Definition watchSystemTheme (w : World) : World :=
  addEventListener change_colorScheme H_watchSystemTheme w.

Definition init (env : Env) (has_toggle : bool) (w : World) : Completion * World :=
  match getStoredTheme env w with
  | Throw e => (Thrown e, w)
  | Normal stored =>
      let theme := match stored with
                   | Some s => if String.eqb s "" then "system" else s
                   | None => "system"
                   end in
      let w := set_currentTheme theme w in
      let w := applyTheme env theme w in
      let w := setupThemeToggle has_toggle w in
      (Returned, watchSystemTheme w)
  end.

End WithJSON.
End Theme.

(** ** Event dispatch *)

#[export] Instance EventType_eq_dec : EqDecision EventType.
Proof. solve_decision. Defined.

Module Page.
Section WithJSON.
Context `{codec : JSONCodec}.

(** The [load] listener of [trackPerformance] only calls [setTimeout]; the
    task it schedules is not part of this development. *)
Definition run_handler (h : Handler) (env : Env) (w : World) : Completion * World :=
  match h with
  | H_trackSessionEnd => Analytics.trackSessionEnd env w
  | H_trackPerformance => (Returned, w)
  | H_themeToggle => Theme.themeToggle_click env w
  | H_watchSystemTheme => (Returned, Theme.systemTheme_change env w)
  end.

(** The listeners registered for an event type, in registration order. *)
Definition handlers_of (t : EventType) (w : World) : list Handler :=
  snd <$> filter (fun l => fst l = t) (listeners w).

(** The browser runs every listener; an exception one of them raises is
    reported and does not stop the others. *)
Fixpoint run_handlers (hs : list Handler) (env : Env) (w : World) : World :=
  match hs with
  | [] => w
  | h :: hs' => run_handlers hs' env (snd (run_handler h env w))
  end.

Definition dispatch (t : EventType) (env : Env) (w : World) : World :=
  run_handlers (handlers_of t w) env w.

(** The page before any script has run. *)
Definition fresh (store : gmap string string) (icon : option string) : World :=
  {| analytics := None; currentTheme := "";
     localStorage := store; console := [];
     data_theme := None; toggle_icon := icon; listeners := [] |}.

End WithJSON.
End Page.

(** ** Reading a log entry *)

(** The own [name] of a log entry, when it is a string. *)
Definition event_name (e : JSValue) : option string :=
  match e with
  | JObj props =>
      match Obj.get "name" props with
      | Some (JStr s) => Some s
      | _ => None
      end
  | _ => None
  end.

(** The own properties of the [data] object of a log entry. *)
Definition event_data (e : JSValue) : option (list (string * JSValue)) :=
  match e with
  | JObj props =>
      match Obj.get "data" props with
      | Some (JObj d) => Some d
      | _ => None
      end
  | _ => None
  end.

(** An entry as the storage layout describes it: an object whose [data] is
    an object. *)
Definition well_formed_event (e : JSValue) : bool :=
  match event_data e with
  | Some _ => true
  | None => false
  end.

Definition named (n : string) (e : JSValue) : bool :=
  match event_name e with
  | Some s => String.eqb s n
  | None => false
  end.

(** [data.category], when it is a string. *)
Definition event_category (e : JSValue) : option string :=
  match event_data e with
  | Some d =>
      match Obj.get "category" d with
      | Some (JStr c) => Some c
      | _ => None
      end
  | None => None
  end.

(** [data.duration], when it is a number. *)
Definition event_duration (e : JSValue) : option Z :=
  match event_data e with
  | Some d =>
      match Obj.get "duration" d with
      | Some (JNum n) => Some n
      | _ => None
      end
  | None => None
  end.

(** One call of [trackEvent], and a sequence of calls. *)
Record Call : Type := {
  call_env : Env;
  call_name : string;
  call_data : list (string * JSValue);
}.

Fixpoint trackEvents `{codec : JSONCodec} (calls : list Call) (w : World) : World :=
  match calls with
  | [] => w
  | c :: calls' =>
      trackEvents calls'
        (snd (Analytics.trackEvent (call_env c) (call_name c) (call_data c) w))
  end.

(** ** The events of a session *)

(** The events that a sequence of calls records in a session. *)
Definition recorded (sid : string) (calls : list Call) : list JSValue :=
  (fun c => Analytics.make_event (call_env c) (JStr sid) (call_name c) (call_data c))
    <$> calls.

(** The event that [Analytics.init] records first. *)
Definition page_view (env : Env) (sid referrer : string) (device : JSValue) : JSValue :=
  Analytics.make_event env (JStr sid) "page_view"
    [ ("url", JStr (href env)); ("referrer", JStr referrer); ("device", device) ].

(** ** The summary, in the words of the statements *)

(** The value of [data.category] of an entry, and the property key it
    becomes. *)
Definition category_key (e : JSValue) : string :=
  to_string (default JUndefined (d ← event_data e; Obj.get "category" d)).

(** The value of [data.duration] of an entry. *)
Definition duration_value (e : JSValue) : JSValue :=
  default JUndefined (d ← event_data e; Obj.get "duration" d).

(** The [categories] object after the clicks with these keys. *)
Definition count_categories (keys : list string) : gmap string Tally :=
  foldl count_category ∅ keys.

(** The average over these [session_end] entries. *)
Definition average_of (sessions : list JSValue) : option Z :=
  if (length sessions =? 0)%nat then Some 0
  else option_map
         (fun t : Z =>
            Math_round (inject_Z t / inject_Z (Z.of_nat (length sessions)) / 1000)%Q)
         (foldl add_duration (Some 0) (duration_value <$> sessions)).

(** Counting in a map of integers, as the idiom intends. *)
Definition count_key (m : gmap string Z) (k : string) : gmap string Z :=
  <[k := default 0 (m !! k) + 1]> m.

(** How often [c] occurs among the keys. *)
Definition occurrences (c : string) (keys : list string) : Z :=
  Z.of_nat (length (filter (fun k => k = c) keys)).

(** ** The theme switch and the counter *)

(** The state a click moves to. *)
Definition toggled (theme : string) : string :=
  if String.eqb theme "light" then "dark" else "light".

(** The number of timer callbacks with exact arithmetic: [duration / 16],
    rounded up. *)
Definition ticks_of (duration : Z) : Z := (duration + 15) / 16.

(** The integer [z] as a number written to the page. *)
Definition shown_integer (z : Z) : Double.double := Double.Finite (inject_Z z).

(** The integer is a binary64 number: converting it rounds nothing away. *)
Definition representable (n : Z) : Prop := Double.of_Z n = shown_integer n.

(** The unit roundoff of binary64. *)
Definition unit_roundoff : Q := Double.pow2 (-53).

(** ** Concrete pages *)

(** A browser in which every storage access completes. *)
Definition env_at (t : Z) : Env :=
  {| now := t; random36 := "k3x9q2m1z"; href := "https://links.example/";
     storage_ok := true; theme_storage_ok := true; prefers_dark := false |}.

(** A browser whose storage refuses every write. *)
Definition storage_full (t : Z) : Env :=
  {| now := t; random36 := "k3x9q2m1z"; href := "https://links.example/";
     storage_ok := false; theme_storage_ok := false; prefers_dark := false |}.

(** A page whose storage holds the serialized [log]. *)
Definition stored `{codec : JSONCodec} (log : list JSValue) : World :=
  Page.fresh {[ APP_CONFIG.analytics.trackingKey := JSON_stringify (JArr log) ]} None.

(** A [link_click] entry as [trackLinkClick] records it. *)
Definition link_click (category : string) : JSValue :=
  JObj [ ("id", JStr "linkpro_1700000000000_k3x9q2m1z");
         ("sessionId", JStr "session_1700000000000_a1b2c3d4e");
         ("name", JStr "link_click");
         ("data", JObj [ ("linkUrl", JStr "https://music.example/");
                         ("linkText", JStr "Listen");
                         ("category", JStr category);
                         ("position", JNum 1);
                         ("timestamp", JNum 1700000000000);
                         ("url", JStr "https://links.example/") ]) ].

(** A [session_end] entry as [trackSessionEnd] records it. *)
Definition session_end (duration eventsCount : Z) : JSValue :=
  JObj [ ("id", JStr "linkpro_1700000000000_k3x9q2m1z");
         ("sessionId", JStr "session_1700000000000_a1b2c3d4e");
         ("name", JStr "session_end");
         ("data", JObj [ ("duration", JNum duration);
                         ("eventsCount", JNum eventsCount);
                         ("timestamp", JNum 1700000000000);
                         ("url", JStr "https://links.example/") ]) ].

(** A page on which both inits have run: the session holds its
    [page_view] event and the theme is [system]. *)
Definition loaded_page `{codec : JSONCodec} : World :=
  snd (Theme.init (env_at 1) true
         (snd (Analytics.init (env_at 0) (env_at 0) "" JNull
                 (Page.fresh ∅ (Some "fas fa-moon"))))).

(** A page in a session that has recorded nothing yet. *)
Definition session_page : World :=
  set_analytics
    (Some {| sessionId := "session_1700000000000_a1b2c3d4e";
             startTime := 1700000000000; events := [] |})
    (Page.fresh ∅ None).

(** A [page_view] whose caller passes its own [url] and [timestamp], then a
    click. *)
Definition two_calls : list Call :=
  [ {| call_env := env_at 1700000000100; call_name := "page_view";
       call_data := [ ("url", JStr "https://caller.example/");
                      ("timestamp", JNum 1);
                      ("referrer", JStr "") ] |};
    {| call_env := env_at 1700000004200; call_name := "link_click";
       call_data := [ ("category", JStr "music"); ("position", JNum 1) ] |} ].

(** Three sessions of 61.5 s, 120 s and 30.2 s: 211700 / 3 / 1000 = 70.57,
    rounded to 71. *)
Definition three_sessions : list JSValue :=
  [ link_click "social"; session_end 61500 2; session_end 120000 5;
    link_click "music"; session_end 30200 1 ].

(** ** Codes of values *)

(** Induction on values that reaches below arrays and objects. *)
Section JSValue_induction.
Variable P : JSValue -> Prop.
Hypothesis Hundef : P JUndefined.
Hypothesis Hnull : P JNull.
Hypothesis Hbool : forall b, P (JBool b).
Hypothesis Hnum : forall n, P (JNum n).
Hypothesis Hstr : forall s, P (JStr s).
Hypothesis Harr : forall items, Forall P items -> P (JArr items).
Hypothesis Hobj : forall props, Forall (fun kv => P (snd kv)) props -> P (JObj props).

Fixpoint JSValue_nested_ind (v : JSValue) : P v :=
  match v with
  | JUndefined => Hundef
  | JNull => Hnull
  | JBool b => Hbool b
  | JNum n => Hnum n
  | JStr s => Hstr s
  | JArr items =>
      Harr items
        ((fix go (l : list JSValue) : Forall P l :=
            match l with
            | [] => Forall_nil P
            | x :: l' => Forall_cons P x l' (JSValue_nested_ind x) (go l')
            end) items)
  | JObj props =>
      Hobj props
        ((fix go (l : list (string * JSValue)) : Forall (fun kv => P (snd kv)) l :=
            match l with
            | [] => Forall_nil _
            | (k, x) :: l' =>
                Forall_cons (fun kv => P (snd kv)) (k, x) l' (JSValue_nested_ind x) (go l')
            end) props)
  end.
End JSValue_induction.

(** A value as a tree of leaves, and back. *)
Fixpoint JSValue_to_tree (v : JSValue) : gen_tree (bool + Z + string) :=
  match v with
  | JUndefined => GenNode 0 []
  | JNull => GenNode 1 []
  | JBool b => GenLeaf (inl (inl b))
  | JNum n => GenLeaf (inl (inr n))
  | JStr s => GenLeaf (inr s)
  | JArr items => GenNode 2 (map JSValue_to_tree items)
  | JObj props =>
      GenNode 3 ((fix go (l : list (string * JSValue)) :=
                    match l with
                    | [] => []
                    | (k, x) :: l' => GenLeaf (inr k) :: JSValue_to_tree x :: go l'
                    end) props)
  end.

Fixpoint JSValue_of_tree (t : gen_tree (bool + Z + string)) : JSValue :=
  match t with
  | GenLeaf (inl (inl b)) => JBool b
  | GenLeaf (inl (inr n)) => JNum n
  | GenLeaf (inr s) => JStr s
  | GenNode 0 _ => JUndefined
  | GenNode 1 _ => JNull
  | GenNode 2 ts => JArr (map JSValue_of_tree ts)
  | GenNode _ ts =>
      JObj ((fix go (l : list (gen_tree (bool + Z + string))) :=
               match l with
               | GenLeaf (inr k) :: x :: l' => (k, JSValue_of_tree x) :: go l'
               | _ => []
               end) ts)
  end.

(** * The rest of the script *)

(** ** Debounce *)

Module Debounce.

(** What happens to a function returned by [Utils.debounce]: it is called,
    or the timer it armed runs. *)
Inductive Event (A : Type) : Type :=
| Called (args : A)
| TimerRan.
Arguments Called {A} args.
Arguments TimerRan {A}.

(** The variable [timeout] of the closure: the arguments of the call whose
    timer is armed, if one is. A call clears the armed timer and arms its
    own; the timer, when it runs, calls [func] with the arguments of the
    call that armed it. The second component is what [func] is called
    with, if it is. *)
Definition step {A : Type} (timeout : option A) (e : Event A) : option A * option A :=
  match e with
  | Called args => (Some args, None)
  | TimerRan => (None, timeout)
  end.

(** The calls of [func] over a sequence of events, in order, and the final
    state. *)
Fixpoint run {A : Type} (timeout : option A) (es : list (Event A)) : list A * option A :=
  match es with
  | [] => ([], timeout)
  | e :: es' =>
      let '(timeout', out) := step timeout e in
      let '(outs, final) := run timeout' es' in
      (match out with
       | Some a => a :: outs
       | None => outs
       end, final)
  end.

End Debounce.

(** ** Animations *)

Module Animations.

(** The observer of [setupIntersectionObserver], and the elements that
    carry the two classes it manages. Elements are numbered. *)
Record Reveal : Type := {
  observed : gset nat;
  animate_ready : gset nat;
  animate_in : gset nat;
}.

(** [els]: the elements matching ['.link-card, .links-group']; [classes_in]:
    the elements that carry [animate-in] in the markup. *)
Definition setupIntersectionObserver (els : list nat) (classes_in : gset nat) : Reveal :=
  foldl (fun r el => {| observed := {[el]} ∪ observed r;
                        animate_ready := {[el]} ∪ animate_ready r;
                        animate_in := animate_in r |})
        {| observed := ∅; animate_ready := ∅; animate_in := classes_in |} els.

(** One entry of the observer's callback: the target and [isIntersecting]. *)
Definition reveal_entry (r : Reveal) (entry : nat * bool) : Reveal :=
  if snd entry
  then {| observed := observed r ∖ {[fst entry]};
          animate_ready := animate_ready r;
          animate_in := {[fst entry]} ∪ animate_in r |}
  else r.

Definition reveal_callback (entries : list (nat * bool)) (r : Reveal) : Reveal :=
  foldl reveal_entry r entries.

(** The observer of [setupNumberAnimations] and the calls of
    [Utils.animateNumber] it has made, in order. *)
Record Counters : Type := {
  counting : gset nat;
  started : list (nat * Z);
}.

(** [els]: the elements matching ['.stat-number']. *)
Definition setupNumberAnimations (els : list nat) : Counters :=
  {| counting := list_to_set els; started := [] |}.

(** [target_of el] is [parseInt(el.dataset.target)], [None] when it is NaN. *)
Definition number_entry (target_of : nat -> option Z) (c : Counters)
           (entry : nat * bool) : Counters :=
  if snd entry
  then match target_of (fst entry) with
       | Some target =>
           {| counting := counting c ∖ {[fst entry]};
              started := started c ++ [(fst entry, target)] |}
       | None => c
       end
  else c.

Definition number_callback (target_of : nat -> option Z)
           (entries : list (nat * bool)) (c : Counters) : Counters :=
  foldl (number_entry target_of) c entries.

(** The color the header gets at scroll offset [scrollY]: the last
    component of [rgba(255, 255, 255, 0.8 + opacity * 0.2)]. *)
Definition header_alpha (scrollY : Q) : Q :=
  let opacity := Qmin (scrollY / 100) 1 in
  ((8 # 10) + opacity * (2 # 10))%Q.

(** The state of [setupScrollAnimations]: the timer of the debounced
    listener, the flag [ticking], the animation-frame callbacks requested
    and not yet run, and the last color written to the header. *)
Record Scroll : Type := {
  timeout : option unit;
  ticking : bool;
  frames : nat;
  header_background : option Q;
}.

Definition onScroll (s : Scroll) : Scroll :=
  if ticking s then s
  else {| timeout := timeout s; ticking := true; frames := S (frames s);
          header_background := header_background s |}.

(** [has_header]: the page has an element of class [header]. *)
Definition updateScrollAnimations (has_header : bool) (scrollY : Q) (s : Scroll) : Scroll :=
  {| timeout := timeout s; ticking := false; frames := frames s;
     header_background :=
       if has_header then Some (header_alpha scrollY) else header_background s |}.

Inductive ScrollEvent : Type :=
| Scrolled                       (* the window's scroll event *)
| TimerRan                       (* the debounce timer runs *)
| AnimationFrame (scrollY : Q).  (* the browser runs one requested frame callback *)

Definition scroll_step (has_header : bool) (s : Scroll) (e : ScrollEvent) : Scroll :=
  match e with
  | Scrolled =>
      let '(t, _) := Debounce.step (timeout s) (Debounce.Called tt) in
      {| timeout := t; ticking := ticking s; frames := frames s;
         header_background := header_background s |}
  | TimerRan =>
      let '(t, out) := Debounce.step (timeout s) Debounce.TimerRan in
      let s := {| timeout := t; ticking := ticking s; frames := frames s;
                  header_background := header_background s |} in
      match out with
      | Some _ => onScroll s
      | None => s
      end
  | AnimationFrame scrollY =>
      match frames s with
      | O => s
      | S n =>
          updateScrollAnimations has_header scrollY
            {| timeout := timeout s; ticking := ticking s; frames := n;
               header_background := header_background s |}
      end
  end.

(** The state right after [setupScrollAnimations]. *)
Definition setupScrollAnimations : Scroll :=
  {| timeout := None; ticking := false; frames := 0; header_background := None |}.

(** What the three setups leave. *)
Record Ready : Type := {
  reveal : Reveal;
  counters : Counters;
  scroll : Scroll;
}.

Inductive InitResult : Type :=
| ReducedMotion          (* the body got the class [reduced-motion]; nothing was set up *)
| Animated (r : Ready)
| NoObserver.            (* [new IntersectionObserver] raised a ReferenceError *)

(** [reduced]: [Utils.prefersReducedMotion()]; [has_observer]: the global
    [IntersectionObserver] exists. [setupIntersectionObserver] evaluates
    [new IntersectionObserver] before it touches any element. *)
Definition init (reduced has_observer : bool) (els : list nat) (classes_in : gset nat)
           (stats : list nat) : InitResult :=
  if reduced then ReducedMotion
  else if has_observer
       then Animated {| reveal := setupIntersectionObserver els classes_in;
                        counters := setupNumberAnimations stats;
                        scroll := setupScrollAnimations |}
       else NoObserver.

End Animations.

(** ** Performance *)

Module Performance.

Record Image : Type := {
  src : option string;        (* the src attribute *)
  data_src : option string;   (* the data-src attribute *)
}.

Record LazyImages : Type := {
  images : gmap nat Image;
  observed : gset nat;
}.

(** [has_observer]: ['IntersectionObserver' in window]. The images observed
    are those matching ['img[data-src]']. *)
Definition setupImageLazyLoading (has_observer : bool) (imgs : gmap nat Image)
  : LazyImages :=
  {| images := imgs;
     observed := if has_observer
                 then dom (filter (fun kv => is_Some (data_src (snd kv))) imgs)
                 else ∅ |}.

Definition image_entry (st : LazyImages) (entry : nat * bool) : LazyImages :=
  if snd entry
  then match images st !! fst entry with
       | Some img =>
           match data_src img with
           | Some url =>
               if String.eqb url "" then st
               else {| images := <[fst entry := {| src := Some url; data_src := None |}]>
                                   (images st);
                       observed := observed st ∖ {[fst entry]} |}
           | None => st
           end
       | None => st
       end
  else st.

Definition image_callback (entries : list (nat * bool)) (st : LazyImages) : LazyImages :=
  foldl image_entry st entries.

(** [setupLinkPrefetching]: the set [prefetched], the hrefs of the prefetch
    links appended to the head, in order, and the cards whose once-only
    listener is still attached. *)
Record Prefetch : Type := {
  prefetched : gset string;
  head_links : list string;
  armed : gset nat;
}.

(** [cards]: the elements matching ['.link-card']. *)
Definition setupLinkPrefetching (cards : list nat) : Prefetch :=
  {| prefetched := ∅; head_links := []; armed := list_to_set cards |}.

(** The [mouseenter] event on a card; [href_of card] is [link.href]. *)
Definition link_mouseenter (href_of : nat -> string) (p : Prefetch) (card : nat)
  : Prefetch :=
  if decide (card ∈ armed p)
  then
    let href := href_of card in
    if decide (href ∈ prefetched p)
    then {| prefetched := prefetched p; head_links := head_links p;
            armed := armed p ∖ {[card]} |}
    else {| prefetched := {[href]} ∪ prefetched p;
            head_links := head_links p ++ [href];
            armed := armed p ∖ {[card]} |}
  else p.

Definition mouseenters (href_of : nat -> string) (cards : list nat) (p : Prefetch)
  : Prefetch :=
  foldl (link_mouseenter href_of) p cards.

End Performance.

(** ** Link cards *)

(** What the script reads from a link card. *)
Record LinkCard : Type := {
  card_id : nat;
  card_href : string;                 (* link.href *)
  card_title : option string;         (* text of its '.link-title', if it has one *)
  card_category : option string;      (* link.dataset.category *)
  card_grid : option (list nat);      (* the '.link-card's of its closest '.links-grid' *)
}.

(** [array.indexOf(x)] *)
Fixpoint indexOf (x : nat) (l : list nat) : Z :=
  match l with
  | [] => -1
  | y :: l' =>
      if decide (x = y) then 0
      else let i := indexOf x l' in if (i <? 0)%Z then -1 else i + 1
  end.

Module AnalyticsLinks.
Section WithJSON.
Context `{codec : JSONCodec}.

Definition getLinkPosition (link : LinkCard) : JSValue :=
  match card_grid link with
  | None => JNull
  | Some siblings => JNum (indexOf (card_id link) siblings + 1)
  end.

Definition trackLinkClick (env : Env) (link : LinkCard) (category : string)
           (w : World) : Completion * World :=
  Analytics.trackLinkClick env
    (JStr (card_href link))
    (match card_title link with
     | Some text => JStr text
     | None => JUndefined
     end)
    (JStr category)
    (getLinkPosition link) w.

End WithJSON.
End AnalyticsLinks.

Module LinkProApp.
Section WithJSON.
Context `{codec : JSONCodec}.

(** [link.dataset.category || 'unknown'] *)
Definition category_of (link : LinkCard) : string :=
  match card_category link with
  | Some c => if String.eqb c "" then "unknown" else c
  | None => "unknown"
  end.

(** The click listener of a link card. *)
Definition link_click_listener (env : Env) (link : LinkCard) (w : World)
  : Completion * World :=
  AnalyticsLinks.trackLinkClick env link (category_of link) w.

(** The [visibilitychange] listener; [hidden] is [document.hidden]. *)
Definition visibilitychange_listener (env : Env) (hidden : bool) (w : World)
  : Completion * World :=
  if hidden then Analytics.trackEvent env "page_hidden" [] w
  else Analytics.trackEvent env "page_visible" [] w.

(** The browser at the steps of [init], and what [init] reads from it. *)
Record Inputs : Type := {
  at_session : Env;                 (* when [Analytics.init] creates the session *)
  at_page_view : Env;               (* when it records [page_view] *)
  at_theme : Env;                   (* at [Theme.init] *)
  at_initialized : Env;             (* when [app_initialized] is recorded *)
  referrer : string;                (* document.referrer *)
  device : JSValue;                 (* Utils.getDeviceInfo() *)
  loadTime : JSValue;               (* performance.now() *)
  userAgent : string;               (* navigator.userAgent *)
  reduced_motion : bool;            (* Utils.prefersReducedMotion() *)
  has_IntersectionObserver : bool;  (* the global IntersectionObserver exists *)
}.

(** The elements of the page that the setups select. *)
Record Markup : Type := {
  reveal_els : list nat;                    (* '.link-card, .links-group' *)
  with_animate_in : gset nat;               (* the elements of class animate-in *)
  stat_numbers : list nat;                  (* '.stat-number' *)
  imgs : gmap nat Performance.Image;        (* 'img' *)
  link_cards : list nat;                    (* '.link-card' *)
  has_themeToggle : bool;                   (* '#themeToggle' *)
}.

(** What the [catch] of [init] can receive. *)
Inductive InitError : Type :=
| Raised (e : JSError)
| ReferenceError.        (* IntersectionObserver is not defined *)

(** The application after [init]. The loading screen, the resource hints,
    the setups of [Accessibility] and the two [console.log] lines of [init]
    act on the document and the console only and raise nothing; they are
    not part of this development. *)
Record App : Type := {
  page : World;
  isInitialized : bool;
  body_reduced_motion : bool;                  (* the class reduced-motion on the body *)
  animations : option Animations.Ready;
  lazy_images : option Performance.LazyImages;
  prefetch : option Performance.Prefetch;
  tracked_cards : list nat;                    (* the cards with the click listener *)
  visibility_tracked : bool;                   (* the visibilitychange listener *)
  caught : option InitError;                   (* what the [catch] received *)
  error_message : option string;               (* the text of the box [showError] adds *)
}.

(** [init] from the statement at which an exception left the [try]. *)
Definition failed (e : InitError) (w : World) (reduced_class : bool)
           (ready : option Animations.Ready) : App :=
  {| page := w; isInitialized := false; body_reduced_motion := reduced_class;
     animations := ready; lazy_images := None; prefetch := None;
     tracked_cards := []; visibility_tracked := false;
     caught := Some e;
     error_message := Some "Application failed to initialize" |}.

Definition init (i : Inputs) (m : Markup) (w : World) : App :=
  match Analytics.init (at_session i) (at_page_view i) (referrer i) (device i) w with
  | (Thrown e, w) => failed (Raised e) w false None
  | (Returned, w) =>
      match Animations.init (reduced_motion i) (has_IntersectionObserver i)
              (reveal_els m) (with_animate_in m) (stat_numbers m) with
      | Animations.NoObserver => failed ReferenceError w false None
      | result =>
          let reduced_class := match result with
                               | Animations.ReducedMotion => true
                               | _ => false
                               end in
          let ready := match result with
                       | Animations.Animated r => Some r
                       | _ => None
                       end in
          match Theme.init (at_theme i) (has_themeToggle m) w with
          | (Thrown e, w) => failed (Raised e) w reduced_class ready
          | (Returned, w) =>
              (* Performance.init, Accessibility.init, setupEventListeners,
                 this.isInitialized = true *)
              let lazy := Performance.setupImageLazyLoading
                            (has_IntersectionObserver i) (imgs m) in
              let links := Performance.setupLinkPrefetching (link_cards m) in
              let tracked := Analytics.trackEvent (at_initialized i) "app_initialized"
                               [ ("loadTime", loadTime i);
                                 ("userAgent", JStr (userAgent i)) ] w in
              {| page := snd tracked; isInitialized := true;
                 body_reduced_motion := reduced_class; animations := ready;
                 lazy_images := Some lazy; prefetch := Some links;
                 tracked_cards := link_cards m; visibility_tracked := true;
                 caught := match fst tracked with
                           | Thrown e => Some (Raised e)
                           | Returned => None
                           end;
                 error_message := match fst tracked with
                                  | Thrown _ => Some "Application failed to initialize"
                                  | Returned => None
                                  end |}
          end
      end
  end.

End WithJSON.
End LinkProApp.

(** The clicks of a visit, one after the other. *)
Fixpoint click_cards `{codec : JSONCodec} (clicks : list (Env * LinkCard)) (w : World)
  : World :=
  match clicks with
  | [] => w
  | (env, link) :: clicks' =>
      click_cards clicks' (snd (LinkProApp.link_click_listener env link w))
  end.

(** The call of [trackEvent] that a click amounts to. *)
Definition call_of_click `{codec : JSONCodec} (click : Env * LinkCard) : Call :=
  {| call_env := fst click; call_name := "link_click";
     call_data := [ ("linkUrl", JStr (card_href (snd click)));
                    ("linkText", match card_title (snd click) with
                                 | Some text => JStr text
                                 | None => JUndefined
                                 end);
                    ("category", JStr (LinkProApp.category_of (snd click)));
                    ("position", AnalyticsLinks.getLinkPosition (snd click)) ] |}.

(** The calls up to and including the last one whose storage write
    completes. *)
Fixpoint saved_prefix (calls : list Call) : option (list Call) :=
  match calls with
  | [] => None
  | c :: calls' =>
      match saved_prefix calls' with
      | Some p => Some (c :: p)
      | None => if storage_ok (call_env c) then Some [c] else None
      end
  end.

(** ** The log after the JSON round trip *)

(** An element of an array after the JSON round trip. *)
Definition clean_item (x : JSValue) : JSValue :=
  match x with
  | JUndefined => JNull
  | _ => json_clean x
  end.

(** ** Entries the summary can process *)




(** ** The theme of a page load *)

(** What [Theme.init] leaves when the stored preference can be read. *)
Definition initial_theme (stored : option string) : string :=
  match stored with
  | Some s => if String.eqb s "" then "system" else s
  | None => "system"
  end.

(** ** Events on the theme *)

(** What happens on a page after [Theme.init]: a click on the toggle, or a
    change of the operating system's color scheme, each in the browser
    state of its moment. *)
Inductive ThemeEvent : Type :=
| ToggleClicked (env : Env)
| SchemeChanged (env : Env).

Definition theme_event `{codec : JSONCodec} (w : World) (e : ThemeEvent) : World :=
  match e with
  | ToggleClicked env => Page.dispatch click_themeToggle env w
  | SchemeChanged env => Page.dispatch change_colorScheme env w
  end.

Definition theme_events `{codec : JSONCodec} (es : list ThemeEvent) (w : World) : World :=
  foldl theme_event w es.

Definition is_click (e : ThemeEvent) : bool :=
  match e with
  | ToggleClicked _ => true
  | SchemeChanged _ => false
  end.

(** The number of clicks among the events. *)
Definition clicks_in (es : list ThemeEvent) : nat := length (filter (fun e => is_click e = true) es).

(** The write of the preference completes at every click. *)
Definition writes_complete (es : list ThemeEvent) : bool :=
  forallb (fun e => match e with
                    | ToggleClicked env => theme_storage_ok env
                    | SchemeChanged _ => true
                    end) es.

(** What the operating system prefers after the events: what the last
    change reported, or [dark] when there was none. *)
Definition system_dark (dark : bool) (es : list ThemeEvent) : bool :=
  foldl (fun d e => match e with
                    | ToggleClicked _ => d
                    | SchemeChanged env => prefers_dark env
                    end) dark es.

(** The value of [data-theme] that shows a state. *)
Definition shown_theme (theme : string) (dark : bool) : string :=
  if String.eqb theme "system" then if dark then "dark" else "light" else theme.

(** The listeners of the theme on a page on which only [Theme.init]
    registered any. *)
Definition theme_listeners (w : World) : Prop :=
  Page.handlers_of click_themeToggle w = [H_themeToggle] /\
  Page.handlers_of change_colorScheme w = [H_watchSystemTheme].


(** ** Events on the scroll listener *)

(** The state after these events, from the state [setupScrollAnimations]
    leaves. *)
Definition scroll_events (has_header : bool) (es : list Animations.ScrollEvent)
  : Animations.Scroll :=
  foldl (Animations.scroll_step has_header) Animations.setupScrollAnimations es.

(** ** What the observers have reported *)

(** The targets the entries report as intersecting. *)
Definition intersecting (entries : list (nat * bool)) : gset nat :=
  list_to_set (fst <$> filter (fun entry => snd entry = true) entries).

(** An image after its lazy load, if it has something to load. *)
Definition lazy_loaded (img : Performance.Image) : Performance.Image :=
  match Performance.data_src img with
  | Some url =>
      if String.eqb url "" then img
      else {| Performance.src := Some url; Performance.data_src := None |}
  | None => img
  end.

(** ** Reading an id *)

(** The character that separates the parts of an id: the underscore. *)
Definition underscore : Ascii.ascii :=
  Eval cbv in match "_" with
              | String c _ => c
              | EmptyString => Ascii.zero
              end.

(** The string has no underscore. *)
Fixpoint no_underscore (s : string) : bool :=
  match s with
  | EmptyString => true
  | String c s' => negb (Ascii.eqb c underscore) && no_underscore s'
  end.

(** ** More concrete pages *)

(** A browser whose operating system prefers the dark scheme. *)
Definition dark_at (t : Z) : Env :=
  {| now := t; random36 := "k3x9q2m1z"; href := "https://links.example/";
     storage_ok := true; theme_storage_ok := true; prefers_dark := true |}.

(** Two calls, the write of the second refused. *)
Definition flaky_calls : list Call :=
  [ {| call_env := env_at 1700000000100; call_name := "page_visible"; call_data := [] |};
    {| call_env := storage_full 1700000001000; call_name := "link_click";
       call_data := [ ("category", JStr "music") ] |} ].

(** A call whose write is refused. *)
Definition refused_call : Call :=
  {| call_env := storage_full 1700000001000; call_name := "link_click";
     call_data := [ ("category", JStr "music") ] |}.

(** A call whose write completes. *)
Definition repairing_call : Call :=
  {| call_env := env_at 1700000002000; call_name := "page_hidden"; call_data := [] |}.

(** The second card of a grid of three, and a card outside any grid that
    has neither a title nor a category. *)
Definition music_card : LinkCard :=
  {| card_id := 2; card_href := "https://music.example/"; card_title := Some "Listen";
     card_category := Some "music"; card_grid := Some [1; 2; 3]%nat |}.

Definition plain_card : LinkCard :=
  {| card_id := 7; card_href := "https://shop.example/"; card_title := None;
     card_category := None; card_grid := None |}.

Definition three_clicks : list (Env * LinkCard) :=
  [ (env_at 1700000003000, music_card); (env_at 1700000004000, plain_card);
    (env_at 1700000005000, music_card) ].

(** A change to dark, a click, a change to light, and a click whose write
    is refused. *)
Definition theme_story : list ThemeEvent :=
  [ SchemeChanged (dark_at 10); ToggleClicked (env_at 20);
    SchemeChanged (env_at 30); ToggleClicked (storage_full 40) ].

(** Two changes of the operating system's scheme around two clicks. *)
Definition theme_story_stored : list ThemeEvent :=
  [ SchemeChanged (dark_at 10); ToggleClicked (env_at 20);
    ToggleClicked (dark_at 30); SchemeChanged (env_at 40) ].

(** ** The application after init *)

(** The session that [Analytics.init] leaves. *)
Definition first_session (i : LinkProApp.Inputs) : Session :=
  {| sessionId := Analytics.generateSessionId (LinkProApp.at_session i);
     startTime := now (LinkProApp.at_session i);
     events := [page_view (LinkProApp.at_page_view i)
                  (Analytics.generateSessionId (LinkProApp.at_session i))
                  (LinkProApp.referrer i) (LinkProApp.device i)] |}.

(** The event that ends a complete [init]. *)
Definition app_initialized (i : LinkProApp.Inputs) : JSValue :=
  Analytics.make_event (LinkProApp.at_initialized i)
    (JStr (Analytics.generateSessionId (LinkProApp.at_session i))) "app_initialized"
    [ ("loadTime", LinkProApp.loadTime i); ("userAgent", JStr (LinkProApp.userAgent i)) ].

(** [init] can run to its end: the animations can be set up or are not
    wanted, and the stored theme can be read. *)
Definition can_initialize (i : LinkProApp.Inputs) : bool :=
  (LinkProApp.reduced_motion i || LinkProApp.has_IntersectionObserver i)
  && theme_storage_ok (LinkProApp.at_theme i).

(** A browser without [IntersectionObserver], and a page with two cards. *)
Definition old_browser : LinkProApp.Inputs :=
  {| LinkProApp.at_session := env_at 0; LinkProApp.at_page_view := env_at 1;
     LinkProApp.at_theme := env_at 2; LinkProApp.at_initialized := env_at 3;
     LinkProApp.referrer := ""; LinkProApp.device := JNull;
     LinkProApp.loadTime := JNum 120; LinkProApp.userAgent := "Mozilla/5.0";
     LinkProApp.reduced_motion := false;
     LinkProApp.has_IntersectionObserver := false |}.

Definition small_page : LinkProApp.Markup :=
  {| LinkProApp.reveal_els := [1; 2]%nat; LinkProApp.with_animate_in := ∅;
     LinkProApp.stat_numbers := [3]%nat; LinkProApp.imgs := ∅;
     LinkProApp.link_cards := [1; 2]%nat; LinkProApp.has_themeToggle := true |}.

(** * Properties *)

(** ** A codec that satisfies the laws

    The text of a value is the binary numeral of the code of its cleaned
    form; it shows that the two laws of [JSONCodec] can hold together. *)

Lemma JSValue_of_to_tree v : JSValue_of_tree (JSValue_to_tree v) = v.
Proof.
  induction v as [| |b|n|s|items IH|props IH] using JSValue_nested_ind; simpl; try done.
  - f_equal. induction IH as [|x l Hx _ IHl]; simpl; [done|]. by rewrite Hx, IHl.
  - f_equal. induction IH as [|[k x] l Hx _ IHl]; simpl in *; [done|].
    by rewrite Hx, IHl.
Qed.

#[export] Instance JSValue_eq_dec : EqDecision JSValue.
Proof.
  intros x y. destruct (decide (JSValue_to_tree x = JSValue_to_tree y)) as [E|E].
  - left. rewrite <- (JSValue_of_to_tree x), <- (JSValue_of_to_tree y). by rewrite E.
  - right. congruence.
Defined.

#[export] Instance JSValue_countable : Countable JSValue :=
  inj_countable' JSValue_to_tree JSValue_of_tree JSValue_of_to_tree.

Lemma numbering_parse_stringify v :
  v <> JUndefined ->
  (fun s : string =>
     if String.eqb s "" then None
     else decode (A := JSValue) (BinaryString.to_pos s))
    (BinaryString.of_pos (encode (json_clean v))) = Some (json_clean v).
Proof.
  intros _. cbv beta.
  replace (String.eqb (BinaryString.of_pos (encode (json_clean v))) "") with false
    by reflexivity.
  rewrite BinaryString.to_pos_of_pos. apply decode_encode.
Qed.

Definition numbering_codec : JSONCodec := {|
  JSON_stringify v := BinaryString.of_pos (encode (json_clean v));
  JSON_parse s :=
    if String.eqb s "" then None
    else decode (A := JSValue) (BinaryString.to_pos s);
  JSON_parse_stringify := numbering_parse_stringify;
  JSON_parse_empty := eq_refl;
|}.

(** ** Objects *)

Lemma Obj_get_set_eq k v o : Obj.get k (Obj.set k v o) = Some v.
Proof.
  induction o as [|[k' v'] o IH]; simpl.
  - by rewrite String.eqb_refl.
  - destruct (String.eqb k k') eqn:E; simpl; rewrite E; auto.
Qed.

Lemma Obj_get_set_ne k k' v o : k <> k' -> Obj.get k' (Obj.set k v o) = Obj.get k' o.
Proof.
  intros Hne. induction o as [|[k0 v0] o IH]; simpl.
  - destruct (String.eqb_spec k' k); congruence.
  - destruct (String.eqb_spec k k0) as [->|]; simpl.
    + destruct (String.eqb_spec k' k0); congruence.
    + destruct (String.eqb_spec k' k0); congruence.
Qed.

Lemma Obj_get_snoc k k0 v0 l :
  Obj.get k (l ++ [(k0, v0)]) =
  match Obj.get k l with
  | Some x => Some x
  | None => if String.eqb k k0 then Some v0 else None
  end.
Proof.
  induction l as [|[a b] l IHl]; simpl; [done|].
  destruct (String.eqb k a); auto.
Qed.

(** In [{...data}] the last of several equal keys wins. *)
Lemma Obj_get_assign k dst src :
  Obj.get k (Obj.assign dst src) =
  match Obj.get k (rev src) with
  | Some x => Some x
  | None => Obj.get k dst
  end.
Proof.
  unfold Obj.assign. revert dst.
  induction src as [|[k0 v0] src IH]; intros dst; simpl; [done|].
  rewrite IH, Obj_get_snoc. destruct (Obj.get k (rev src)); [done|].
  destruct (String.eqb_spec k k0) as [->|Hne].
  - apply Obj_get_set_eq.
  - apply Obj_get_set_ne. congruence.
Qed.

(** ** The event log *)

Section Log.
Context `{codec : JSONCodec}.

Lemma trackEvent_initialised env eventName data w s :
  analytics w = Some s ->
  Analytics.trackEvent env eventName data w =
  let event := Analytics.make_event env (JStr (sessionId s)) eventName data in
  let s' := {| sessionId := sessionId s; startTime := startTime s;
               events := events s ++ [event] |} in
  (Returned,
   console_add (ConsoleLog "Analytics Event:" event)
     (Analytics.saveToStorage env (set_analytics (Some s') w))).
Proof.
  intros Hs. unfold Analytics.trackEvent, Analytics.this_sessionId. simpl.
  by rewrite Hs.
Qed.

(** Before [Analytics.init] there is no [this.events] to push to. *)
Lemma trackEvent_uninitialised env eventName data w :
  analytics w = None ->
  Analytics.trackEvent env eventName data w = (Thrown TypeError, w).
Proof. intros Hs. unfold Analytics.trackEvent. simpl. by rewrite Hs. Qed.

Lemma saveToStorage_analytics env w :
  analytics (Analytics.saveToStorage env w) = analytics w.
Proof. unfold Analytics.saveToStorage, setItem. by destruct (storage_ok env). Qed.

Lemma saveToStorage_ok env w :
  storage_ok env = true ->
  Analytics.saveToStorage env w =
  set_localStorage
    (<[APP_CONFIG.analytics.trackingKey := Analytics.serialized_events w]>
       (localStorage w)) w.
Proof. intros Hok. unfold Analytics.saveToStorage, setItem. by rewrite Hok. Qed.

Lemma saveToStorage_failed env w :
  storage_ok env = false ->
  Analytics.saveToStorage env w =
  console_add (ConsoleWarn "Analytics storage failed:" QuotaExceededError) w.
Proof. intros Hok. unfold Analytics.saveToStorage, setItem. by rewrite Hok. Qed.

Lemma event_data_make_event env sid eventName data :
  event_data (Analytics.make_event env sid eventName data) =
  Some (Obj.set "url" (JStr (href env))
          (Obj.set "timestamp" (JNum (now env)) (Obj.assign [] data))).
Proof. reflexivity. Qed.

Lemma event_name_make_event env sid eventName data :
  event_name (Analytics.make_event env sid eventName data) = Some eventName.
Proof. reflexivity. Qed.

(** C10: whatever [data] the caller passes to [trackEvent], the [data] of
    the event it appends holds the capture-time [timestamp] and [url],
    also when the caller passed properties of these names; every other
    property is the caller's. *)
Theorem trackEvent_injects_timestamp_and_url
        env eventName (data : list (string * JSValue)) w s :
  analytics w = Some s ->
  exists (event : JSValue) (d : list (string * JSValue)),
    (events <$> analytics (snd (Analytics.trackEvent env eventName data w)))
    = Some (events s ++ [event])%list /\
    event_data event = Some d /\
    Obj.get "timestamp" d = Some (JNum (now env)) /\
    Obj.get "url" d = Some (JStr (href env)) /\
    forall k, k <> "timestamp" -> k <> "url" ->
              Obj.get k d = Obj.get k (rev data).
Proof.
  intros Hs. rewrite (trackEvent_initialised _ _ _ _ _ Hs). cbv zeta.
  eexists _, _. split; [|split; [apply event_data_make_event|]].
  - unfold console_add. simpl. by rewrite saveToStorage_analytics.
  - split; [|split].
    + rewrite Obj_get_set_ne by done. apply Obj_get_set_eq.
    + apply Obj_get_set_eq.
    + intros k Ht Hu. rewrite !Obj_get_set_ne by congruence.
      rewrite Obj_get_assign. by destruct (Obj.get k (rev data)).
Qed.

(** C6: in a session, [trackEvent] returns normally for every name, data
    and environment; the event is appended to the in-memory sequence;
    and when the storage write raises, the stored items are left as they
    were and a warning is logged. *)
Theorem trackEvent_never_raises env eventName data w s :
  analytics w = Some s ->
  let event := Analytics.make_event env (JStr (sessionId s)) eventName data in
  let w' := snd (Analytics.trackEvent env eventName data w) in
  fst (Analytics.trackEvent env eventName data w) = Returned /\
  (events <$> analytics w') = Some (events s ++ [event]) /\
  (storage_ok env = false ->
   localStorage w' = localStorage w /\
   console w' = console w ++
                [ ConsoleWarn "Analytics storage failed:" QuotaExceededError;
                  ConsoleLog "Analytics Event:" event ]).
Proof.
  intros Hs. cbv zeta. rewrite (trackEvent_initialised _ _ _ _ _ Hs). cbv zeta.
  split; [done|]. split.
  - unfold console_add. simpl. by rewrite saveToStorage_analytics.
  - intros Hfail. rewrite (saveToStorage_failed _ _ Hfail). simpl.
    split; [done|]. by rewrite <- app_assoc.
Qed.

End Log.

(** ** Reading the log back *)

Section Persisted.
Context `{codec : JSONCodec}.

Lemma JSON_stringify_nonempty v : v <> JUndefined -> JSON_stringify v <> "".
Proof.
  intros Hv Hempty. pose proof (JSON_parse_stringify v Hv) as Hlaw.
  rewrite Hempty, JSON_parse_empty in Hlaw. discriminate.
Qed.

(** The value [loadFromStorage] returns, case by case. *)
Lemma loadFromStorage_value env w :
  fst (Analytics.loadFromStorage env w) =
  match (if storage_ok env
         then localStorage w !! APP_CONFIG.analytics.trackingKey
         else None) with
  | Some text => default (JArr []) (JSON_parse text)
  | None => JArr []
  end.
Proof.
  unfold Analytics.loadFromStorage, getItem.
  destruct (storage_ok env); simpl; [|done].
  destruct (localStorage w !! APP_CONFIG.analytics.trackingKey) as [text|]; simpl; [|done].
  destruct (String.eqb_spec text "") as [->|Hne]; simpl.
  - by rewrite JSON_parse_empty.
  - by destruct (JSON_parse text).
Qed.

(** C7: [loadFromStorage] always returns a value: the parsed one when the
    stored text parses, and the empty sequence when the key is absent,
    when the text does not parse, or when the storage cannot be read. *)
Theorem loadFromStorage_parsed_or_empty env w :
  let key := APP_CONFIG.analytics.trackingKey in
  let loaded := fst (Analytics.loadFromStorage env w) in
  (storage_ok env = false -> loaded = JArr []) /\
  (storage_ok env = true -> localStorage w !! key = None -> loaded = JArr []) /\
  (forall text, storage_ok env = true -> localStorage w !! key = Some text ->
                JSON_parse text = None -> loaded = JArr []) /\
  (forall text v, storage_ok env = true -> localStorage w !! key = Some text ->
                  JSON_parse text = Some v -> loaded = v).
Proof.
  cbv zeta. rewrite loadFromStorage_value. repeat split.
  - by intros ->.
  - by intros -> ->.
  - by intros text -> -> ->.
  - by intros text v -> -> ->.
Qed.

Lemma loadFromStorage_stringified env w v :
  storage_ok env = true -> v <> JUndefined ->
  localStorage w !! APP_CONFIG.analytics.trackingKey = Some (JSON_stringify v) ->
  fst (Analytics.loadFromStorage env w) = json_clean v.
Proof.
  intros Hok Hv Hstored. rewrite loadFromStorage_value, Hok, Hstored.
  by rewrite JSON_parse_stringify.
Qed.

(** C2: when the persisted log is empty, [getSummary] reports no event,
    no click, no category and an average session time of 0. *)
Theorem getSummary_empty_log env w :
  fst (Analytics.loadFromStorage env w) = JArr [] ->
  fst (Analytics.getSummary env w) =
  Normal {| totalEvents := 0; totalClicks := 0; categories := ∅;
            averageSessionTime := Some 0 |}.
Proof.
  intros Hload. unfold Analytics.getSummary.
  destruct (Analytics.loadFromStorage env w) as [loaded w'].
  simpl in Hload. subst loaded. reflexivity.
Qed.

Lemma trackEvents_session calls : forall w s,
  analytics w = Some s ->
  Forall (fun c => storage_ok (call_env c) = true) calls ->
  analytics (trackEvents calls w) =
    Some {| sessionId := sessionId s; startTime := startTime s;
            events := events s ++ recorded (sessionId s) calls |} /\
  localStorage (trackEvents calls w) !! APP_CONFIG.analytics.trackingKey =
    match calls with
    | [] => localStorage w !! APP_CONFIG.analytics.trackingKey
    | _ => Some (JSON_stringify (JArr (events s ++ recorded (sessionId s) calls)))
    end.
Proof.
  induction calls as [|c calls IH]; intros w s Hs Hok.
  - simpl. rewrite app_nil_r. by destruct s.
  - inversion Hok as [|? ? Hc Hrest]; subst. simpl trackEvents.
    rewrite (trackEvent_initialised _ _ _ _ _ Hs). cbv zeta.
    rewrite (saveToStorage_ok _ _ Hc).
    set (s1 := {| sessionId := sessionId s; startTime := startTime s;
                  events := events s ++ _ |}).
    set (w1 := snd _).
    assert (Hs1 : analytics w1 = Some s1) by reflexivity.
    destruct (IH w1 s1 Hs1 Hrest) as [Ha Hl]. split.
    + rewrite Ha. subst s1. simpl. by rewrite <- app_assoc.
    + rewrite Hl. destruct calls as [|c' calls'].
      * subst w1. simpl. by rewrite lookup_insert_eq.
      * subst s1. simpl. by rewrite <- app_assoc.
Qed.

Lemma json_clean_recorded sid calls :
  json_clean (JArr (recorded sid calls)) =
  JArr ((fun c => json_clean (Analytics.make_event (call_env c) (JStr sid)
                                (call_name c) (call_data c))) <$> calls).
Proof.
  simpl. f_equal. induction calls as [|c calls IH]; [done|].
  simpl in *. by rewrite IH.
Qed.

(** C1: after N >= 1 calls of [trackEvent] in one session, every storage
    write succeeding, the log read back from storage has exactly N
    entries, in call order, and every entry carries the session's id. *)
Theorem persisted_log_after_calls calls w sid t0 env :
  analytics w = Some {| sessionId := sid; startTime := t0; events := [] |} ->
  Forall (fun c => storage_ok (call_env c) = true) calls ->
  calls <> [] ->
  storage_ok env = true ->
  exists log,
    fst (Analytics.loadFromStorage env (trackEvents calls w)) = JArr log /\
    length log = length calls /\
    Forall2 (fun e c =>
               event_name e = Some (call_name c) /\
               get_prop e "id" = Normal (JStr (Utils.generateId (call_env c))) /\
               get_prop e "sessionId" = Normal (JStr sid))
            log calls.
Proof.
  intros Hs Hok Hne Henv.
  destruct (trackEvents_session calls w _ Hs Hok) as [_ Hstore].
  simpl in Hstore. destruct calls as [|c0 calls0]; [done|].
  set (calls := c0 :: calls0) in *.
  eexists. split; [|split].
  - pose proof (fun Hv => loadFromStorage_stringified env _ _ Henv Hv Hstore) as Hl.
    rewrite Hl by discriminate. apply (json_clean_recorded sid calls).
  - by rewrite length_fmap.
  - clearbody calls. clear. induction calls as [|c calls IH]; simpl.
    + constructor.
    + constructor; [|exact IH]. done.
Qed.

End Persisted.

(** ** The summary of a well-formed log *)

Lemma has_name_well_formed n e :
  well_formed_event e = true -> has_name n e = Normal (named n e).
Proof.
  unfold well_formed_event, event_data, has_name, named, event_name.
  destruct e as [| | | | | |props]; try discriminate. intros _. simpl.
  destruct (Obj.get "name" props) as [[]|]; reflexivity.
Qed.

Lemma filterM_has_name n log :
  Forall (fun e => well_formed_event e = true) log ->
  filterM (has_name n) log = Normal (filter (fun e => named n e = true) log).
Proof.
  induction 1 as [|e log He _ IH]; [done|].
  simpl. rewrite (has_name_well_formed _ _ He), IH. simpl.
  rewrite filter_cons. destruct (named n e); by case_decide.
Qed.

Lemma tally_clicks_well_formed clicks : forall m,
  Forall (fun e => well_formed_event e = true) clicks ->
  tally_clicks clicks m = Normal (foldl count_category m (category_key <$> clicks)).
Proof.
  induction clicks as [|e clicks IH]; intros m Hwf; [done|].
  inversion Hwf as [|? ? He Hrest]; subst. simpl.
  unfold category_key at 1. unfold well_formed_event in He.
  destruct e as [| | | | | |props]; try discriminate. simpl in *.
  destruct (Obj.get "data" props) as [[| | | | | |d]|]; try discriminate.
  simpl. by apply IH.
Qed.

Lemma sum_durations_well_formed sessions : forall sum,
  Forall (fun e => well_formed_event e = true) sessions ->
  sum_durations sessions sum =
  Normal (foldl add_duration sum (duration_value <$> sessions)).
Proof.
  induction sessions as [|e sessions IH]; intros sum Hwf; [done|].
  inversion Hwf as [|? ? He Hrest]; subst. simpl.
  unfold duration_value at 1. unfold well_formed_event in He.
  destruct e as [| | | | | |props]; try discriminate. simpl in *.
  destruct (Obj.get "data" props) as [[| | | | | |d]|]; try discriminate.
  simpl. by apply IH.
Qed.

Lemma Forall_filter_well_formed (P : JSValue -> Prop) `{!forall e, Decision (P e)} log :
  Forall (fun e => well_formed_event e = true) log ->
  Forall (fun e => well_formed_event e = true) (filter P log).
Proof.
  intros Hall. induction Hall as [|e log He _ IH]; [constructor|].
  rewrite filter_cons. case_decide; [by constructor|done].
Qed.

Section Summary.
Context `{codec : JSONCodec}.

Lemma calculateAverageSessionTime_well_formed log :
  Forall (fun e => well_formed_event e = true) log ->
  Analytics.calculateAverageSessionTime log =
  Normal (average_of (filter (fun e => named "session_end" e = true) log)).
Proof.
  intros Hwf. unfold Analytics.calculateAverageSessionTime, average_of.
  rewrite (filterM_has_name _ _ Hwf). simpl.
  destruct (length _ =? 0)%nat; [done|].
  rewrite sum_durations_well_formed by by apply Forall_filter_well_formed.
  done.
Qed.

(** What [getSummary] computes on a log of well-formed entries. *)
Lemma getSummary_well_formed env w log :
  fst (Analytics.loadFromStorage env w) = JArr log ->
  Forall (fun e => well_formed_event e = true) log ->
  fst (Analytics.getSummary env w) =
  Normal
    {| totalEvents := Z.of_nat (length log);
       totalClicks :=
         Z.of_nat (length (filter (fun e => named "link_click" e = true) log));
       categories :=
         count_categories
           (category_key <$> filter (fun e => named "link_click" e = true) log);
       averageSessionTime :=
         average_of (filter (fun e => named "session_end" e = true) log) |}.
Proof.
  intros Hload Hwf. unfold Analytics.getSummary.
  destruct (Analytics.loadFromStorage env w) as [loaded w'].
  simpl in Hload. subst loaded. simpl.
  rewrite (filterM_has_name _ _ Hwf). simpl.
  rewrite tally_clicks_well_formed by by apply Forall_filter_well_formed.
  simpl. rewrite (calculateAverageSessionTime_well_formed _ Hwf). done.
Qed.

End Summary.

(** ** The average session time *)





Section Average.
Context `{codec : JSONCodec}.


End Average.

(** ** Counting categories *)

Lemma inherited_text_None k :
  k ∉ Object_prototype_keys ->
  inherited_text k = None /\ String.eqb k "__proto__" = false.
Proof.
  intros Hk. unfold inherited_text.
  destruct (String.eqb_spec k "__proto__") as [->|_].
  { exfalso. apply Hk. unfold Object_prototype_keys. set_solver. }
  destruct (String.eqb_spec k "constructor") as [->|_].
  { exfalso. apply Hk. unfold Object_prototype_keys. set_solver. }
  by rewrite bool_decide_eq_false_2.
Qed.

Lemma foldl_count_category keys : forall m : gmap string Z,
  Forall (fun k => k ∉ Object_prototype_keys) keys ->
  foldl count_category (TNum <$> m) keys = TNum <$> foldl count_key m keys.
Proof.
  induction keys as [|k keys IH]; intros m Hkeys; [done|].
  inversion Hkeys as [|? ? Hk Hrest]; subst. simpl.
  destruct (inherited_text_None _ Hk) as [Hin Hproto].
  rewrite <- (IH _ Hrest). f_equal.
  unfold count_category, next_tally, count_key.
  rewrite Hproto, lookup_fmap, fmap_insert.
  destruct (m !! k); simpl; [done|]. by rewrite Hin.
Qed.

Lemma occurrences_cons c k keys :
  occurrences c (k :: keys) = (if decide (k = c) then 1 else 0) + occurrences c keys.
Proof.
  unfold occurrences. rewrite filter_cons.
  destruct (decide (k = c)); cbn [length]; lia.
Qed.

Lemma occurrences_nonneg c keys : 0 <= occurrences c keys.
Proof. unfold occurrences. lia. Qed.

Lemma lookup_foldl_count_key keys c : forall m : gmap string Z,
  foldl count_key m keys !! c =
  if (occurrences c keys =? 0)%Z then m !! c
  else Some (default 0 (m !! c) + occurrences c keys).
Proof.
  induction keys as [|k keys IH]; intros m; [done|].
  simpl foldl. rewrite IH, occurrences_cons. unfold count_key.
  pose proof (occurrences_nonneg c keys) as Hz.
  destruct (decide (k = c)) as [->|Hne].
  - rewrite lookup_insert_eq.
    destruct (Z.eqb_spec (1 + occurrences c keys) 0) as [E|_]; [lia|].
    destruct (Z.eqb_spec (occurrences c keys) 0) as [E|_];
      cbn [default from_option]; f_equal; unfold id; lia.
  - by rewrite lookup_insert_ne.
Qed.

(** When no key is a name inherited from [Object.prototype], the mapping
    holds, for each key, the number of its occurrences. *)
Lemma count_categories_lookup keys c :
  Forall (fun k => k ∉ Object_prototype_keys) keys ->
  count_categories keys !! c =
  if (occurrences c keys =? 0)%Z then None else Some (TNum (occurrences c keys)).
Proof.
  intros Hkeys. unfold count_categories.
  rewrite <- (fmap_empty TNum), (foldl_count_category _ _ Hkeys), lookup_fmap.
  rewrite lookup_foldl_count_key, lookup_empty.
  destruct (occurrences c keys =? 0)%Z; simpl; [done|]. do 2 f_equal.
Qed.

(** ** The summary of stored logs *)

Section Stored.
Context `{codec : JSONCodec}.

Lemma loadFromStorage_stored t log :
  fst (Analytics.loadFromStorage (env_at t) (stored log)) = json_clean (JArr log).
Proof.
  apply loadFromStorage_stringified; [done|done|].
  unfold stored, Page.fresh. simpl. apply lookup_singleton_eq.
Qed.

(** Categories that are ordinary words are counted: on a log of well-formed
    entries none of whose [link_click] categories is a name inherited from
    [Object.prototype], [getSummary] maps each category to the number of
    [link_click] entries that carry it. *)
Lemma getSummary_counts_categories env w log :
  fst (Analytics.loadFromStorage env w) = JArr log ->
  Forall (fun e => well_formed_event e = true) log ->
  let keys := category_key <$> filter (fun e => named "link_click" e = true) log in
  Forall (fun k => k ∉ Object_prototype_keys) keys ->
  exists sm,
    fst (Analytics.getSummary env w) = Normal sm /\
    totalClicks sm = Z.of_nat (length keys) /\
    forall c, categories sm !! c =
              if (occurrences c keys =? 0)%Z then None
              else Some (TNum (occurrences c keys)).
Proof.
  intros Hload Hwf keys Hkeys.
  rewrite (getSummary_well_formed _ _ _ Hload Hwf).
  eexists. split; [reflexivity|]. simpl. split.
  - subst keys. by rewrite length_fmap.
  - intros c. by apply count_categories_lookup.
Qed.

(** The spec's example: three [social] and two [music] clicks. *)
Lemma getSummary_social_music :
  exists sm,
    fst (Analytics.getSummary (env_at 0)
           (stored [ link_click "social"; link_click "music"; session_end 60000 2;
                     link_click "social"; link_click "music"; link_click "social" ]))
    = Normal sm /\
    totalEvents sm = 6 /\
    totalClicks sm = 5 /\
    categories sm = {[ "social" := TNum 3; "music" := TNum 2 ]} /\
    averageSessionTime sm = Some 60.
Proof.
  eexists. split.
  - apply getSummary_well_formed; [apply loadFromStorage_stored|].
    repeat constructor.
  - vm_compute. done.
Qed.

(** C3: a [link_click] entry whose category is [constructor], a name every
    object inherits, is counted as one click, but the mapping holds a text
    for it where the count 1 belongs. *)
Theorem getSummary_category_constructor :
  exists sm,
    fst (Analytics.getSummary (env_at 0) (stored [ link_click "constructor" ]))
    = Normal sm /\
    totalClicks sm = 1 /\
    categories sm
    = {[ "constructor" := TStr "function Object() { [native code] }1" ]} /\
    categories sm !! "constructor" <> Some (TNum 1).
Proof.
  eexists. split.
  - apply getSummary_well_formed; [apply loadFromStorage_stored|].
    repeat constructor.
  - vm_compute. repeat split. discriminate.
Qed.

End Stored.

(** ** The theme switch *)

Section ThemeSwitch.
Context `{codec : JSONCodec}.

Lemma toggled_explicit theme : toggled theme = "light" \/ toggled theme = "dark".
Proof. unfold toggled. destruct (String.eqb theme "light"); auto. Qed.

Lemma toggled_not_system theme : toggled theme <> "system".
Proof. destruct (toggled_explicit theme) as [-> | ->]; discriminate. Qed.

Lemma applyTheme_explicit env theme w :
  theme <> "system" ->
  data_theme (Theme.applyTheme env theme w) = Some theme /\
  currentTheme (Theme.applyTheme env theme w) = currentTheme w /\
  localStorage (Theme.applyTheme env theme w) = localStorage w /\
  analytics (Theme.applyTheme env theme w) = analytics w.
Proof.
  intros Hne. unfold Theme.applyTheme, Theme.updateThemeIcon.
  destruct (String.eqb_spec theme "system"); [done|].
  simpl. by destruct (toggle_icon w).
Qed.

(** The state after a click is explicit, whether or not the handler
    completes. *)
Lemma themeToggle_click_currentTheme env w :
  currentTheme (snd (Theme.themeToggle_click env w)) = toggled (currentTheme w).
Proof.
  unfold Theme.themeToggle_click, Theme.storeTheme, setItem. fold (toggled (currentTheme w)).
  destruct (theme_storage_ok env); simpl; [|done].
  set (w1 := Theme.applyTheme _ _ _).
  assert (Hc : currentTheme w1 = toggled (currentTheme w)).
  { subst w1. by rewrite (proj1 (proj2 (applyTheme_explicit _ _ _ (toggled_not_system _)))). }
  unfold Analytics.trackEvent. simpl. destruct (analytics w1); simpl; [|done].
  unfold Analytics.saveToStorage, setItem. by destruct (storage_ok env).
Qed.

(** A click whose write of the preference completes: the new state is
    stored and shown, and a [theme_change] event is recorded. *)
Lemma themeToggle_click_stored env w s :
  analytics w = Some s ->
  theme_storage_ok env = true ->
  let theme := toggled (currentTheme w) in
  let w' := snd (Theme.themeToggle_click env w) in
  fst (Theme.themeToggle_click env w) = Returned /\
  currentTheme w' = theme /\
  localStorage w' !! "linkpro_theme" = Some theme /\
  data_theme w' = Some theme /\
  (events <$> analytics w')
  = Some (events s ++
          [Analytics.make_event env (JStr (sessionId s)) "theme_change"
             [("theme", JStr theme)]]).
Proof.
  intros Hs Hok. cbv zeta. split; [|split; [apply themeToggle_click_currentTheme|]].
  all: unfold Theme.themeToggle_click, Theme.storeTheme, setItem;
    fold (toggled (currentTheme w)); rewrite Hok; simpl;
    set (w1 := Theme.applyTheme _ _ _);
    destruct (applyTheme_explicit env (toggled (currentTheme w))
                (set_localStorage
                   (<["linkpro_theme" := toggled (currentTheme w)]> (localStorage w))
                   (set_currentTheme (toggled (currentTheme w)) w))
                (toggled_not_system _)) as (Hd & _ & Hl & Ha);
    fold w1 in Hd, Hl, Ha; simpl in Hl, Ha; rewrite Hs in Ha;
    rewrite (trackEvent_initialised _ _ _ _ _ Ha); cbv zeta.
  - done.
  - split; [|split].
    + unfold Analytics.saveToStorage, setItem. destruct (storage_ok env); simpl.
      * rewrite lookup_insert_ne by done. rewrite Hl. apply lookup_insert_eq.
      * rewrite Hl. apply lookup_insert_eq.
    + unfold Analytics.saveToStorage, setItem. by destruct (storage_ok env).
    + simpl. by rewrite saveToStorage_analytics.
Qed.

(** From [system] the first click leads to [light], whatever the operating
    system prefers. *)
Lemma themeToggle_click_from_system env w :
  currentTheme w = "system" ->
  currentTheme (snd (Theme.themeToggle_click env w)) = "light".
Proof. intros Hsys. by rewrite themeToggle_click_currentTheme, Hsys. Qed.

(** Once the state is explicit, a change of the operating system's
    preference changes nothing. *)
Lemma systemTheme_change_explicit env w :
  currentTheme w <> "system" -> Theme.systemTheme_change env w = w.
Proof.
  intros Hne. unfold Theme.systemTheme_change.
  by destruct (String.eqb_spec (currentTheme w) "system").
Qed.

Lemma systemTheme_change_after_click env env' w :
  let w' := snd (Theme.themeToggle_click env w) in
  Theme.systemTheme_change env' w' = w'.
Proof.
  cbv zeta. apply systemTheme_change_explicit.
  rewrite themeToggle_click_currentTheme. apply toggled_not_system.
Qed.

(** In state [system] the listener follows the operating system. *)
Lemma systemTheme_change_system env w :
  currentTheme w = "system" ->
  data_theme (Theme.systemTheme_change env w)
  = Some (if prefers_dark env then "dark" else "light") /\
  currentTheme (Theme.systemTheme_change env w) = "system" /\
  localStorage (Theme.systemTheme_change env w) = localStorage w.
Proof.
  intros Hsys. unfold Theme.systemTheme_change, Theme.applyTheme, Theme.updateThemeIcon.
  rewrite Hsys. simpl. by destruct (toggle_icon w).
Qed.

(** A click whose write of the preference raises: the handler ends there,
    with the new state in memory only. *)
Lemma themeToggle_click_write_fails env w :
  theme_storage_ok env = false ->
  Theme.themeToggle_click env w
  = (Thrown QuotaExceededError, set_currentTheme (toggled (currentTheme w)) w).
Proof.
  intros Hfail. unfold Theme.themeToggle_click, Theme.storeTheme, setItem.
  by rewrite Hfail.
Qed.

End ThemeSwitch.

(** ** Rounding to binary64 *)

Lemma pow2_pos k : (0 < Double.pow2 k)%Q.
Proof. apply Qpower_0_lt. reflexivity. Qed.

Lemma pow2_plus a b : (Double.pow2 (a + b) == Double.pow2 a * Double.pow2 b)%Q.
Proof. apply Qpower_plus. discriminate. Qed.

Lemma pow2_minus a b : (Double.pow2 (a - b) == Double.pow2 a / Double.pow2 b)%Q.
Proof. apply Qpower_minus. discriminate. Qed.

Lemma pow2_le a b : a <= b -> (Double.pow2 a <= Double.pow2 b)%Q.
Proof. intros H. apply Qpower_le_compat_l; [exact H|discriminate]. Qed.

Lemma pow2_lt a b : a < b -> (Double.pow2 a < Double.pow2 b)%Q.
Proof. intros H. apply Qpower_lt_compat_l; [exact H|reflexivity]. Qed.

Lemma pow2_Z k : 0 <= k -> (Double.pow2 k == inject_Z (2 ^ k))%Q.
Proof. intros H. unfold Double.pow2. by rewrite Zpower_Qpower. Qed.

(** The exponent of a positive number: the power of two at or below it. *)
Lemma exponent_spec q :
  (0 < q)%Q ->
  (Double.pow2 (Double.exponent q) <= q < Double.pow2 (Double.exponent q + 1))%Q.
Proof.
  intros Hq. unfold Double.exponent.
  destruct q as [n d]. cbn [Qnum Qden].
  assert (Hn : 0 < n) by (unfold Qlt in Hq; simpl in Hq; lia).
  pose proof (Z.log2_spec n Hn) as [Hn1 Hn2].
  pose proof (Z.log2_spec (Z.pos d) (Pos2Z.is_pos d)) as [Hd1 Hd2].
  pose proof (Z.log2_nonneg n) as Ha. pose proof (Z.log2_nonneg (Z.pos d)) as Hb.
  set (a := Z.log2 n) in *. set (b := Z.log2 (Z.pos d)) in *.
  assert (Hlow : (Double.pow2 (a - b - 1) <= n # d)%Q).
  { replace (a - b - 1) with (a - (b + 1)) by lia.
    rewrite pow2_minus, !pow2_Z by lia.
    apply Qle_shift_div_r; [rewrite <- pow2_Z by lia; apply pow2_pos|].
    unfold Qle, Qmult, inject_Z. cbn [Qnum Qden].
    rewrite <- Z.add_1_r in Hd2. nia. }
  assert (Hhigh : (n # d < Double.pow2 (a - b + 1))%Q).
  { replace (a - b + 1) with (a + 1 - b) by lia.
    rewrite pow2_minus, !pow2_Z by lia.
    apply Qlt_shift_div_l; [rewrite <- pow2_Z by lia; apply pow2_pos|].
    unfold Qlt, Qmult, inject_Z. cbn [Qnum Qden].
    rewrite <- Z.add_1_r in Hn2. nia. }
  destruct (Qle_bool (Double.pow2 (a - b)) (n # d)) eqn:E.
  - apply Qle_bool_iff in E. split; [exact E|exact Hhigh].
  - split; [exact Hlow|].
    replace (a - b - 1 + 1) with (a - b) by lia.
    apply Qnot_le_lt. intros H. apply Qle_bool_iff in H. congruence.
Qed.

Lemma exponent_unique q e :
  (Double.pow2 e <= q < Double.pow2 (e + 1))%Q -> Double.exponent q = e.
Proof.
  intros [H1 H2].
  assert (Hq : (0 < q)%Q) by (eapply Qlt_le_trans; [apply (pow2_pos e)|exact H1]).
  destruct (exponent_spec q Hq) as [H3 H4].
  assert (Hlt1 : e < Double.exponent q + 1).
  { apply (Qpower_lt_compat_l_inv 2); [|reflexivity].
    eapply Qle_lt_trans; [exact H1|exact H4]. }
  assert (Hlt2 : Double.exponent q < e + 1).
  { apply (Qpower_lt_compat_l_inv 2); [|reflexivity].
    eapply Qle_lt_trans; [exact H3|exact H2]. }
  lia.
Qed.

Lemma round_half_even_near x :
  (x - (1 # 2) <= inject_Z (Double.round_half_even x) <= x + (1 # 2))%Q.
Proof.
  unfold Double.round_half_even.
  pose proof (Qfloor_le x) as Hle. pose proof (Qlt_floor x) as Hlt.
  rewrite inject_Z_plus in Hlt. change (inject_Z 1) with 1%Q in Hlt.
  destruct (Qcompare_spec (x - inject_Z (Qfloor x)) (1 # 2)) as [He|Hl|Hg].
  - destruct (Z.even (Qfloor x)); rewrite ?inject_Z_plus;
      change (inject_Z 1) with 1%Q; split; lra.
  - split; lra.
  - rewrite inject_Z_plus. change (inject_Z 1) with 1%Q. split; lra.
Qed.

Lemma round_half_even_Z x n : (x == inject_Z n)%Q -> Double.round_half_even x = n.
Proof.
  intros Hx. unfold Double.round_half_even.
  assert (Hf : Qfloor x = n) by (rewrite (Qfloor_comp _ _ Hx); apply Qfloor_Z).
  rewrite Hf.
  destruct (Qcompare_spec (x - inject_Z n) (1 # 2)) as [He|Hl|Hg]; [lra|done|lra].
Qed.

Lemma unit_roundoff_value : (unit_roundoff * inject_Z (2 ^ 53) == 1)%Q.
Proof.
  unfold unit_roundoff. rewrite <- pow2_Z by lia.
  rewrite <- pow2_plus. reflexivity.
Qed.

(** From the smallest normal number on, the multiple of the unit in the
    last place that rounding selects is within the unit roundoff of the
    number, relatively. *)
Lemma round_pos_value q :
  (Double.pow2 (-1022) <= q)%Q ->
  exists r, (q * (1 - unit_roundoff) <= r <= q * (1 + unit_roundoff))%Q /\
            Double.round_pos q
            = if Qle_bool (Double.pow2 1024) r
              then Double.Infinity false else Double.Finite (Qred r).
Proof.
  intros Hlow.
  assert (Hq : (0 < q)%Q) by (eapply Qlt_le_trans; [apply (pow2_pos (-1022))|exact Hlow]).
  destruct (exponent_spec q Hq) as [He _].
  unfold Double.round_pos.
  set (s := Z.max (Double.exponent q - 52) (-1074)).
  set (ulp := Double.pow2 s).
  set (m := Double.round_half_even (q / ulp)).
  assert (Hulp0 : (0 < ulp)%Q) by apply pow2_pos.
  assert (Hulp : (ulp <= q * Double.pow2 (-52))%Q).
  { subst ulp s. destruct (Z.max_spec (Double.exponent q - 52) (-1074)) as [[_ ->]|[_ ->]].
    - change (-1074) with (-1022 + -52). rewrite pow2_plus.
      apply Qmult_le_compat_r; [exact Hlow|apply Qlt_le_weak, pow2_pos].
    - replace (Double.exponent q - 52) with (Double.exponent q + -52) by lia.
      rewrite pow2_plus.
      apply Qmult_le_compat_r; [exact He|apply Qlt_le_weak, pow2_pos]. }
  assert (Hhalf : (Double.pow2 (-52) == 2 * unit_roundoff)%Q).
  { unfold unit_roundoff. change (-52) with (1 + -53). rewrite pow2_plus. reflexivity. }
  destruct (round_half_even_near (q / ulp)) as [Hm1 Hm2]. fold m in Hm1, Hm2.
  assert (Hback : (q / ulp * ulp == q)%Q) by (field; lra).
  assert (Hr1 : (q - ulp * (1 # 2) <= inject_Z m * ulp)%Q).
  { assert (H : ((q / ulp - (1 # 2)) * ulp <= inject_Z m * ulp)%Q)
      by (apply Qmult_le_compat_r; [exact Hm1|lra]).
    revert H Hback. generalize (q / ulp)%Q (inject_Z m). intros t z H Hback. lra. }
  assert (Hr2 : (inject_Z m * ulp <= q + ulp * (1 # 2))%Q).
  { assert (H : (inject_Z m * ulp <= (q / ulp + (1 # 2)) * ulp)%Q)
      by (apply Qmult_le_compat_r; [exact Hm2|lra]).
    revert H Hback. generalize (q / ulp)%Q (inject_Z m). intros t z H Hback. lra. }
  exists (inject_Z m * ulp)%Q. split; [|reflexivity].
  rewrite Hhalf in Hulp. clear -Hulp Hr1 Hr2. split; lra.
Qed.

Lemma round_pos_cases q :
  (Double.pow2 (-1022) <= q)%Q ->
  Double.round_pos q = Double.Infinity false \/
  exists r, Double.round_pos q = Double.Finite r /\
            (q * (1 - unit_roundoff) <= r <= q * (1 + unit_roundoff))%Q.
Proof.
  intros Hlow. destruct (round_pos_value q Hlow) as (r & Hr & ->).
  destruct (Qle_bool (Double.pow2 1024) r); [by left|right].
  exists (Qred r). split; [reflexivity|]. by rewrite Qred_correct.
Qed.

Lemma unit_roundoff_small : (0 < unit_roundoff <= 1 # 2)%Q.
Proof.
  split; [apply pow2_pos|]. unfold unit_roundoff.
  change (1 # 2)%Q with (Double.pow2 (-1)). apply pow2_le. lia.
Qed.

(** In the normal range the result of rounding is finite. *)
Lemma round_pos_bounds q :
  (Double.pow2 (-1022) <= q <= Double.pow2 1023)%Q ->
  exists r, Double.round_pos q = Double.Finite r /\
            (q * (1 - unit_roundoff) <= r <= q * (1 + unit_roundoff))%Q.
Proof.
  intros [Hlow Hhigh].
  assert (Hq : (0 < q)%Q) by (eapply Qlt_le_trans; [apply (pow2_pos (-1022))|exact Hlow]).
  destruct (round_pos_value q Hlow) as (r & Hr & ->).
  destruct (Qle_bool (Double.pow2 1024) r) eqn:E.
  - exfalso. apply Qle_bool_iff in E.
    assert (Htop : (Double.pow2 1024 == 2 * Double.pow2 1023)%Q).
    { change 1024 with (1 + 1023). rewrite pow2_plus. reflexivity. }
    destruct unit_roundoff_small as [Hu0 Hu1]. rewrite Htop in E.
    revert E Hr Hhigh Hq Hu0 Hu1. generalize (Double.pow2 1023) unit_roundoff.
    intros P v E [_ Hb] Hhigh Hq Hv0 Hv1.
    assert (q * v <= q * (1 # 2))%Q by (apply Qmult_le_l; lra). lra.
  - exists (Qred r). split; [reflexivity|]. by rewrite Qred_correct.
Qed.

Lemma Qred_inject_Z n : Qred (inject_Z n) = inject_Z n.
Proof.
  unfold Qred, inject_Z. cbn [Qnum Qden].
  pose proof (Z.ggcd_correct_divisors n 1) as H. pose proof (Z.ggcd_gcd n 1) as Hg.
  destruct (Z.ggcd n 1) as [g [aa bb]]. cbn [fst snd] in *.
  rewrite Z.gcd_1_r in Hg. subst g. destruct H as [Ha Hb].
  assert (bb = 1) by lia. subst bb. rewrite Ha, Z.mul_1_l. reflexivity.
Qed.

(** An integer of at most 53 bits is a binary64 number. *)
Lemma round_pos_Z q n :
  (q == inject_Z n)%Q -> 0 < n <= 2 ^ 53 ->
  Double.round_pos q = Double.Finite (inject_Z n).
Proof.
  intros Hq [Hn Hmax].
  pose proof (Z.log2_spec n Hn) as [Hn1 Hn2]. pose proof (Z.log2_nonneg n) as Ha.
  assert (He : Double.exponent q = Z.log2 n).
  { apply exponent_unique. rewrite Hq, !pow2_Z by lia. rewrite <- !Zle_Qle, <- Zlt_Qlt.
    rewrite <- Z.add_1_r in Hn2. lia. }
  assert (He53 : Z.log2 n <= 53).
  { change 53 with (Z.log2 (2 ^ 53)). by apply Z.log2_le_mono. }
  unfold Double.round_pos. rewrite He.
  rewrite Z.max_l by lia.
  set (a := Z.log2 n) in *.
  assert (Hdiv : exists M, (q / Double.pow2 (a - 52) == inject_Z M)%Q /\
                           (inject_Z M * Double.pow2 (a - 52) == inject_Z n)%Q).
  { destruct (decide (a <= 52)) as [Hsmall|Hbig].
    - exists (n * 2 ^ (52 - a)).
      assert (Hinv : (Double.pow2 (a - 52) * Double.pow2 (52 - a) == 1)%Q).
      { rewrite <- pow2_plus. by replace (a - 52 + (52 - a)) with 0 by lia. }
      rewrite inject_Z_mult, <- pow2_Z by lia.
      pose proof (pow2_pos (a - 52)) as Hp. pose proof (pow2_pos (52 - a)) as Hp'.
      revert Hinv Hp Hp'. generalize (Double.pow2 (a - 52)) (Double.pow2 (52 - a)).
      intros x y Hinv Hx Hy. rewrite Hq.
      assert (Hy' : (y == / x)%Q).
      { apply Qmult_inj_r with x; [lra|]. rewrite (Qmult_comm y x), Hinv. field. lra. }
      split.
      + rewrite Hy'. reflexivity.
      + rewrite Hy'. field. lra.
    - assert (a = 53) by lia. subst a.
      assert (n = 2 ^ 53) by (rewrite H in Hn1; lia). subst n.
      exists (2 ^ 52). rewrite Hq, H. split; reflexivity. }
  destruct Hdiv as (M & HM & Hr).
  rewrite (round_half_even_Z _ M HM).
  destruct (Qle_bool (Double.pow2 1024) (inject_Z M * Double.pow2 (a - 52))) eqn:E.
  - exfalso. apply Qle_bool_iff in E. rewrite Hr in E.
    assert (Hlt : (inject_Z n < Double.pow2 1024)%Q).
    { eapply Qle_lt_trans; [|apply (pow2_lt 53 1024); lia].
      rewrite pow2_Z by lia. by rewrite <- Zle_Qle. }
    lra.
  - f_equal. rewrite <- (Qred_inject_Z n). by apply Qred_complete.
Qed.

Lemma round_Z q n :
  (q == inject_Z n)%Q -> - 2 ^ 53 <= n <= 2 ^ 53 ->
  Double.round q = Double.Finite (inject_Z n).
Proof.
  intros Hq Hn. unfold Double.round.
  destruct (Qcompare_spec q 0) as [H0|Hneg|Hpos].
  - rewrite Hq in H0. change 0%Q with (inject_Z 0) in H0.
    assert (n = 0) as -> by (by apply inject_Z_injective). reflexivity.
  - rewrite Hq in Hneg. change 0%Q with (inject_Z 0) in Hneg. rewrite <- Zlt_Qlt in Hneg.
    rewrite (round_pos_Z (- q) (- n)); [|rewrite Hq; by rewrite inject_Z_opp|lia].
    unfold Double.neg, inject_Z, Qopp. simpl. by rewrite Z.opp_involutive.
  - rewrite Hq in Hpos. change 0%Q with (inject_Z 0) in Hpos. rewrite <- Zlt_Qlt in Hpos.
    apply round_pos_Z; [exact Hq|lia].
Qed.

Lemma of_Z_exact n : - 2 ^ 53 <= n <= 2 ^ 53 -> Double.of_Z n = Double.Finite (inject_Z n).
Proof. intros Hn. by apply round_Z. Qed.

Lemma round_cases q :
  (Double.pow2 (-1022) <= q)%Q ->
  Double.round q = Double.Infinity false \/
  exists r, Double.round q = Double.Finite r /\
            (q * (1 - unit_roundoff) <= r <= q * (1 + unit_roundoff))%Q.
Proof.
  intros Hq. unfold Double.round.
  assert (H0 : (0 < q)%Q).
  { eapply Qlt_le_trans; [apply (pow2_pos (-1022))|apply Hq]. }
  destruct (Qcompare_spec q 0) as [H|H|H]; [lra|lra|]. by apply round_pos_cases.
Qed.

Lemma round_bounds q :
  (Double.pow2 (-1022) <= q <= Double.pow2 1023)%Q ->
  exists r, Double.round q = Double.Finite r /\
            (q * (1 - unit_roundoff) <= r <= q * (1 + unit_roundoff))%Q.
Proof.
  intros Hq. unfold Double.round.
  assert (H0 : (0 < q)%Q).
  { eapply Qlt_le_trans; [apply (pow2_pos (-1022))|apply Hq]. }
  destruct (Qcompare_spec q 0) as [H|H|H]; [lra|lra|]. by apply round_pos_bounds.
Qed.

(** Rounding depends on the number only, not on the fraction that denotes it. *)
Lemma exponent_comp q1 q2 :
  (0 < q1)%Q -> (q1 == q2)%Q -> Double.exponent q1 = Double.exponent q2.
Proof.
  intros Hq Heq. symmetry. apply exponent_unique. rewrite <- Heq. by apply exponent_spec.
Qed.

Lemma round_half_even_comp q1 q2 :
  (q1 == q2)%Q -> Double.round_half_even q1 = Double.round_half_even q2.
Proof.
  intros Heq. unfold Double.round_half_even.
  rewrite (Qfloor_comp _ _ Heq).
  assert (Hc : ((q1 - inject_Z (Qfloor q2) ?= 1 # 2) = (q2 - inject_Z (Qfloor q2) ?= 1 # 2))%Q).
  { apply Qcompare_comp; [|reflexivity]. by rewrite Heq. }
  by rewrite Hc.
Qed.

Lemma round_pos_comp q1 q2 :
  (0 < q1)%Q -> (q1 == q2)%Q -> Double.round_pos q1 = Double.round_pos q2.
Proof.
  intros Hq Heq. unfold Double.round_pos. cbv zeta.
  rewrite (exponent_comp q1 q2 Hq Heq).
  set (ulp := Double.pow2 (_ `max` _)).
  rewrite (round_half_even_comp (q1 / ulp) (q2 / ulp)) by (by rewrite Heq).
  reflexivity.
Qed.

Lemma round_comp q1 q2 : (q1 == q2)%Q -> Double.round q1 = Double.round q2.
Proof.
  intros Heq. unfold Double.round.
  assert (Hc : ((q1 ?= 0) = (q2 ?= 0))%Q) by (apply Qcompare_comp; [exact Heq|reflexivity]).
  rewrite <- Hc.
  destruct (Qcompare_spec q1 0) as [H|H|H]; [done| |].
  - f_equal. apply round_pos_comp; [lra|by rewrite Heq].
  - by apply round_pos_comp.
Qed.

(** ** The counter animation *)

Section Counter.
Variable target : Z.
Variable inc : Q.
Variable N : Z.
Hypothesis Hinc_low : (Double.pow2 (-1022) <= inc)%Q.
Hypothesis Hgrows : (inject_Z target * unit_roundoff <= inc * (1 - unit_roundoff))%Q.
Hypothesis Hreaches :
  (inject_Z target <= inject_Z N * inc * (1 - inject_Z N * unit_roundoff))%Q.

Local Abbreviation t := (inject_Z target).
Local Abbreviation u := unit_roundoff.

(** One callback from a value of [current] below the target: the sum
    overflows, or it is finite and not below [current]. *)
Lemma animateNumber_add_below c :
  (0 <= c < t)%Q ->
  Double.add (Double.Finite c) (Double.Finite inc) = Double.Infinity false \/
  exists c', Double.add (Double.Finite c) (Double.Finite inc) = Double.Finite c' /\
             ((c + inc) * (1 - u) <= c')%Q /\ (c <= c')%Q.
Proof.
  intros [Hc0 Hct]. destruct unit_roundoff_small as [Hu0 Hu1].
  assert (Hinc0 : (0 < inc)%Q) by (eapply Qlt_le_trans; [apply (pow2_pos (-1022))|done]).
  destruct (round_cases (c + inc)) as [Hinf|(c' & Hc' & Hlow & Hhigh)]; [lra|by left|].
  right. exists c'. split; [exact Hc'|]. split; [exact Hlow|].
  assert (Hprod : (0 <= (t - c) * u)%Q) by (apply Qmult_le_0_compat; lra).
  lra.
Qed.

Lemma animateNumber_run_below (fuel : nat) : forall (j : Z) (c : Q),
  (Z.to_nat (N - j) <= fuel)%nat ->
  0 <= j < N ->
  (0 <= c < t)%Q ->
  (inc * inject_Z j * (1 - inject_Z j * u) <= c)%Q ->
  exists zs : list Z,
    Utils.animateNumber_run fuel (Double.Finite t) (Double.Finite inc) (Double.Finite c)
    = (shown_integer <$> zs, true) /\
    (1 <= length zs <= Z.to_nat (N - j))%nat /\
    list.last zs = Some target /\
    Forall (fun z => Qfloor c <= z <= target) zs /\
    (forall (i i' : nat) (a b : Z),
       (i <= i')%nat -> zs !! i = Some a -> zs !! i' = Some b -> a <= b) /\
    (forall (k : nat) (z : Z),
       (S k < length zs)%nat -> zs !! k = Some z ->
       shown_integer z
       = Double.floor (Nat.iter (S k) (fun x => Double.add x (Double.Finite inc))
                         (Double.Finite c))).
Proof.
  destruct unit_roundoff_small as [Hu0 Hu1].
  assert (Hinc0 : (0 < inc)%Q) by (eapply Qlt_le_trans; [apply (pow2_pos (-1022))|done]).
  induction fuel as [|fuel IH]; intros j c Hfuel Hj Hc Hinv; [lia|].
  assert (Hfloor_c : Qfloor c <= target).
  { apply Z.lt_le_incl. rewrite Zlt_Qlt. eapply Qle_lt_trans; [apply Qfloor_le|apply Hc]. }
  assert (Hcleared : forall shown : Double.double,
             shown = shown_integer target ->
             exists zs : list Z,
               ([shown], true) = (shown_integer <$> zs, true) /\
               (1 <= length zs <= Z.to_nat (N - j))%nat /\
               list.last zs = Some target /\
               Forall (fun z => Qfloor c <= z <= target) zs /\
               (forall (i i' : nat) (a b : Z),
                  (i <= i')%nat -> zs !! i = Some a -> zs !! i' = Some b -> a <= b) /\
               (forall (k : nat) (z : Z),
                  (S k < length zs)%nat -> zs !! k = Some z ->
                  shown_integer z
                  = Double.floor (Nat.iter (S k) (fun x => Double.add x (Double.Finite inc))
                                    (Double.Finite c)))).
  { intros shown ->. exists [target]. split; [reflexivity|].
    split; [simpl; lia|]. split; [reflexivity|]. split; [constructor; [lia|constructor]|].
    split.
    + intros [|i] [|i'] a b Hi Ha Hb; simpl in Ha, Hb; try done.
      injection Ha as <-. injection Hb as <-. lia.
    + intros k z Hk. simpl in Hk. lia. }
  simpl Utils.animateNumber_run. unfold Utils.animateNumber_tick.
  destruct (animateNumber_add_below c Hc) as [Hadd|(c' & Hadd & Hlow & Hup)]; rewrite Hadd;
    cbn [Double.ge Double.floor negb].
  { apply Hcleared. unfold shown_integer. by rewrite Qfloor_Z. }
  destruct (Qle_bool t c') eqn:Hge.
  - apply Hcleared. unfold shown_integer. by rewrite Qfloor_Z.
  - assert (Hlt : (c' < t)%Q).
    { apply Qnot_le_lt. intros H. apply Qle_bool_iff in H. congruence. }
    assert (Hinv' : (inc * inject_Z (j + 1) * (1 - inject_Z (j + 1) * u) <= c')%Q).
    { rewrite inject_Z_plus. change (inject_Z 1) with 1%Q.
      assert (Hj0 : (0 <= inject_Z j)%Q) by (change 0%Q with (inject_Z 0); rewrite <- Zle_Qle; lia).
      assert (H1 : ((inc * inject_Z j * (1 - inject_Z j * u) + inc) * (1 - u)
                    <= (c + inc) * (1 - u))%Q).
      { apply Qmult_le_compat_r; lra. }
      assert (H2 : (0 <= inc * (inject_Z j * u + inject_Z j * inject_Z j * (u * u)))%Q).
      { apply Qmult_le_0_compat; [lra|].
        assert (0 <= inject_Z j * u)%Q by (apply Qmult_le_0_compat; lra).
        assert (0 <= inject_Z j * inject_Z j * (u * u))%Q.
        { apply Qmult_le_0_compat; apply Qmult_le_0_compat; lra. }
        lra. }
      assert (H3 : ((inc * inject_Z j * (1 - inject_Z j * u) + inc) * (1 - u)
                    == inc * (inject_Z j + 1) * (1 - (inject_Z j + 1) * u)
                       + inc * (inject_Z j * u + inject_Z j * inject_Z j * (u * u)))%Q)
        by ring.
      rewrite H3 in H1. lra. }
    assert (Hj' : j + 1 < N).
    { destruct (decide (j + 1 < N)) as [|Hn]; [done|]. exfalso.
      assert (j + 1 = N) as E by lia. rewrite E in Hinv'.
      assert (Hsame : (inject_Z N * inc * (1 - inject_Z N * u)
                       == inc * inject_Z N * (1 - inject_Z N * u))%Q) by ring.
      rewrite Hsame in Hreaches. lra. }
    assert (Hc0' : (0 <= c' < t)%Q) by (split; [lra|exact Hlt]).
    destruct (IH (j + 1) c') as (zs & Hrun & Hlen & Hlast & Hall & Hsorted & Hshown);
      [lia|lia|exact Hc0'|exact Hinv'|].
    rewrite Hrun. exists (Qfloor c' :: zs).
    assert (Hfloors : Qfloor c <= Qfloor c') by (by apply Qfloor_resp_le).
    split; [reflexivity|]. split; [simpl; lia|]. split.
    { destruct zs as [|z zs]; [simpl in Hlen; lia|exact Hlast]. }
    split.
    { constructor.
      - split; [exact Hfloors|].
        apply Z.lt_le_incl. rewrite Zlt_Qlt.
        eapply Qle_lt_trans; [apply Qfloor_le|exact Hlt].
      - eapply list.Forall_impl; [exact Hall|]. simpl. intros z [? ?]. lia. }
    split.
    { intros [|i] [|i'] a b Hi Ha Hb; simpl in Ha, Hb.
      - injection Ha as <-. injection Hb as <-. lia.
      - injection Ha as <-.
        apply (Forall_lookup_1 _ _ _ _ Hall) in Hb. lia.
      - lia.
      - apply (Hsorted i i' a b); [lia|done|done]. }
    intros [|k] z Hk Hz; simpl in Hz.
    + injection Hz as <-. unfold Nat.iter. cbn [nat_rect]. by rewrite Hadd.
    + rewrite Nat.iter_succ_r. cbv beta. rewrite Hadd.
      apply Hshown; [simpl in Hk; lia|exact Hz].
Qed.

End Counter.

Lemma unit_roundoff_number : (unit_roundoff == 1 # 9007199254740992)%Q.
Proof. reflexivity. Qed.

Lemma div_finite a b :
  ~ (b == 0)%Q -> Double.div (Double.Finite a) (Double.Finite b) = Double.round (a / b).
Proof.
  intros Hb. unfold Double.div.
  destruct (Qeq_bool b 0) eqn:E; [|done]. apply Qeq_bool_iff in E. done.
Qed.

Lemma ticks_of_bounds duration :
  0 < duration ->
  1 <= ticks_of duration /\
  16 * (ticks_of duration - 1) < duration <= 16 * ticks_of duration.
Proof. intros Hd. unfold ticks_of. Z.div_mod_to_equations. lia. Qed.

(** The increment that [animateNumber] computes for a positive target: it
    overflows, or it is large enough for the sum to grow at every callback
    and to reach the target within one callback more than exact arithmetic
    needs. *)
Lemma animateNumber_increment (target duration : Z) :
  1 <= target ->
  representable target ->
  1 <= duration <= 2 ^ 30 ->
  Double.div (Double.of_Z target) (Double.div (Double.of_Z duration) (Double.of_Z 16))
  = Double.Infinity false \/
  exists inc : Q,
    Double.div (Double.of_Z target) (Double.div (Double.of_Z duration) (Double.of_Z 16))
    = Double.Finite inc /\
    (Double.pow2 (-1022) <= inc)%Q /\
    (inject_Z target * unit_roundoff <= inc * (1 - unit_roundoff))%Q /\
    (inject_Z target
     <= inject_Z (ticks_of duration + 1) * inc
        * (1 - inject_Z (ticks_of duration + 1) * unit_roundoff))%Q.
Proof.
  intros Ht Hexact Hd.
  rewrite Hexact. unfold shown_integer. rewrite !of_Z_exact by lia.
  pose proof unit_roundoff_number as Hu.
  assert (Hlowest : (Double.pow2 (-1022) <= 1 # 268435456)%Q).
  { change (1 # 268435456)%Q with (Double.pow2 (-28)). apply pow2_le. lia. }
  assert (Hhighest : (576460752303423488 <= Double.pow2 1023)%Q).
  { change 576460752303423488%Q with (Double.pow2 59). apply pow2_le. lia. }
  assert (Ht1 : (1 <= inject_Z target)%Q).
  { change 1%Q with (inject_Z 1). rewrite <- Zle_Qle. lia. }
  assert (Hd1 : (1 <= inject_Z duration)%Q).
  { change 1%Q with (inject_Z 1). rewrite <- Zle_Qle. lia. }
  assert (Hd2 : (inject_Z duration <= 1073741824)%Q).
  { change 1073741824%Q with (inject_Z (2 ^ 30)). rewrite <- Zle_Qle. lia. }
  change (inject_Z 16) with 16%Q.
  rewrite div_finite by discriminate.
  destruct (round_bounds (inject_Z duration / 16)) as (d & -> & Hdl & Hdh).
  { revert Hlowest Hhighest.
    generalize (Double.pow2 (-1022)) (Double.pow2 1023).
    intros p1 p3 ? ?. split.
    - apply Qle_shift_div_l; [reflexivity|]. lra.
    - apply Qle_shift_div_r; [reflexivity|]. lra. }
  set (D := (inject_Z duration / 16)%Q) in *.
  assert (HD : (D * 16 == inject_Z duration)%Q) by (subst D; field).
  rewrite Hu in Hdl, Hdh.
  assert (Hd0 : (1 # 32 <= d)%Q) by lra.
  assert (Hd27 : (d <= 134217728)%Q) by lra.
  rewrite div_finite by lra.
  set (X := (inject_Z target / d)%Q).
  assert (HX : (X * d == inject_Z target)%Q) by (subst X; field; lra).
  assert (HX0 : (0 < X)%Q).
  { subst X. apply Qlt_shift_div_l; lra. }
  assert (HXd : (0 <= X * (134217728 - d))%Q) by (apply Qmult_le_0_compat; lra).
  destruct (round_cases X) as [->|(inc & -> & Hil & Hih)]; [|by left|right].
  { revert Hlowest. generalize (Double.pow2 (-1022)). intros p1 ?. lra. }
  rewrite Hu in Hil, Hih. exists inc. split; [reflexivity|].
  rewrite Hu.
  split; [lra|]. split; [lra|].
  destruct (ticks_of_bounds duration ltac:(lia)) as [Hn1 [Hn2 Hn3]].
  set (n := ticks_of duration + 1) in *.
  assert (HnD : (D + 1 <= inject_Z n)%Q).
  { assert (H : (inject_Z (duration + 16) <= inject_Z (16 * n))%Q) by (rewrite <- Zle_Qle; lia).
    rewrite inject_Z_mult, inject_Z_plus in H.
    change (inject_Z 16) with 16%Q in H. lra. }
  assert (Hn26 : (inject_Z n <= 67108866)%Q).
  { change 67108866%Q with (inject_Z (2 ^ 26 + 2)). rewrite <- Zle_Qle.
    subst n. unfold ticks_of. Z.div_mod_to_equations. lia. }
  assert (Hn0 : (2 <= inject_Z n)%Q).
  { change 2%Q with (inject_Z 2). rewrite <- Zle_Qle. lia. }
  revert HnD Hn26 Hn0. generalize (inject_Z n). intros m HnD Hn26 Hn0.
  assert (Hm2 : (0 <= m * (67108866 - m))%Q) by (apply Qmult_le_0_compat; lra).
  set (a := (1 - m * (1 # 9007199254740992))%Q).
  assert (Ha : ((1 # 2) <= a)%Q) by (subst a; lra).
  assert (Hkey : (d <= m * (1 - (1 # 9007199254740992)) * a)%Q).
  { subst a. lra. }
  assert (H1 : (m * (X * (1 - (1 # 9007199254740992))) * a <= m * inc * a)%Q).
  { apply Qmult_le_compat_r; [|lra]. apply Qmult_le_l; lra. }
  assert (H2 : (X * d <= X * (m * (1 - (1 # 9007199254740992)) * a))%Q).
  { apply Qmult_le_l; lra. }
  rewrite HX in H2.
  assert (H3 : (X * (m * (1 - (1 # 9007199254740992)) * a)
                == m * (X * (1 - (1 # 9007199254740992))) * a)%Q) by ring.
  rewrite H3 in H2. lra.
Qed.

(** The animation for a positive integer target: the numbers written. *)
Lemma animateNumber_positive (target duration : Z) (fuel : nat) :
  1 <= target ->
  representable target ->
  1 <= duration <= 2 ^ 30 ->
  (Z.to_nat (ticks_of duration + 1) <= fuel)%nat ->
  exists zs : list Z,
    Utils.animateNumber fuel (Double.of_Z target) (Double.of_Z duration)
    = (shown_integer <$> zs, true) /\
    (1 <= length zs <= Z.to_nat (ticks_of duration + 1))%nat /\
    list.last zs = Some target /\
    Forall (fun z => 0 <= z <= target) zs /\
    (forall (i i' : nat) (a b : Z),
       (i <= i')%nat -> zs !! i = Some a -> zs !! i' = Some b -> a <= b) /\
    (forall (k : nat) (z : Z),
       (S k < length zs)%nat -> zs !! k = Some z ->
       shown_integer z
       = Double.floor
           (Nat.iter (S k)
              (fun x => Double.add x
                          (Double.div (Double.of_Z target)
                             (Double.div (Double.of_Z duration) (Double.of_Z 16))))
              (Double.of_Z 0))).
Proof.
  intros Ht Hexact Hd Hfuel.
  destruct (ticks_of_bounds duration ltac:(lia)) as [Hn1 _].
  unfold Utils.animateNumber.
  destruct (animateNumber_increment target duration Ht Hexact Hd)
    as [->|(inc & -> & Hlow & Hgrows & Hreaches)].
  - rewrite Hexact. destruct fuel as [|fuel]; [lia|].
    exists [target]. split.
    { rewrite (of_Z_exact 0) by lia. unfold shown_integer.
      cbn [Utils.animateNumber_run Utils.animateNumber_tick Double.add Double.ge
           Double.floor negb fmap list_fmap].
      by rewrite Qfloor_Z. }
    split; [simpl; lia|]. split; [reflexivity|]. split; [constructor; [lia|constructor]|].
    split.
    + intros [|i] [|i'] a b Hi Ha Hb; simpl in Ha, Hb; try done.
      injection Ha as <-. injection Hb as <-. lia.
    + intros k z Hk. simpl in Hk. lia.
  - rewrite Hexact, (of_Z_exact 0) by lia. unfold shown_integer at 1.
    assert (Hstart : (0 <= inject_Z 0 < inject_Z target)%Q).
    { split; [apply Qle_refl|]. rewrite <- Zlt_Qlt. lia. }
    destruct (animateNumber_run_below target inc (ticks_of duration + 1) Hlow Hgrows
                Hreaches fuel 0 (inject_Z 0))
      as (zs & Hrun & Hlen & Hlast & Hall & Hsorted & Hshown).
    + by rewrite Z.sub_0_r.
    + lia.
    + exact Hstart.
    + change (inject_Z 0) with 0%Q. lra.
    + exists zs. rewrite Z.sub_0_r in Hlen. repeat split; try done; try lia.
Qed.

Lemma representable_safe n : - 2 ^ 53 <= n <= 2 ^ 53 -> representable n.
Proof. apply of_Z_exact. Qed.

(** C8: for a positive integer target that is a binary64 number, and a
    duration of at most 2^30 ms (2000 by default), the timer of
    [animateNumber] is cleared after finitely many callbacks, at most one
    more than [duration / 16] rounded up; the last number written is the
    target, no number written exceeds it, and each number written before
    the last is the floor of the current value, the rounded sum of the
    increments so far. *)
Theorem animateNumber_ends_on_target (target duration : Z) (fuel : nat) :
  1 <= target ->
  representable target ->
  1 <= duration <= 2 ^ 30 ->
  (Z.to_nat (ticks_of duration + 1) <= fuel)%nat ->
  exists zs : list Z,
    Utils.animateNumber fuel (Double.of_Z target) (Double.of_Z duration)
    = (shown_integer <$> zs, true) /\
    (1 <= length zs <= Z.to_nat (ticks_of duration + 1))%nat /\
    list.last zs = Some target /\
    Forall (fun z => z <= target) zs /\
    forall (k : nat) (z : Z),
      (S k < length zs)%nat -> zs !! k = Some z ->
      shown_integer z
      = Double.floor
          (Nat.iter (S k)
             (fun current =>
                Double.add current
                  (Double.div (Double.of_Z target)
                     (Double.div (Double.of_Z duration) (Double.of_Z 16))))
             (Double.of_Z 0)).
Proof.
  intros Ht Hexact Hd Hfuel.
  destruct (animateNumber_positive target duration fuel Ht Hexact Hd Hfuel)
    as (zs & Hrun & Hlen & Hlast & Hall & _ & Hshown).
  exists zs. split; [exact Hrun|]. split; [exact Hlen|]. split; [exact Hlast|].
  split; [|exact Hshown].
  eapply list.Forall_impl; [exact Hall|]. intros z [_ Hz]. exact Hz.
Qed.

(** The page's counter: 1000 is reached within 126 callbacks. *)
Lemma animateNumber_ends_on_1000 :
  1 <= 1000 /\ representable 1000 /\ 1 <= 2000 <= 2 ^ 30 /\
  (Z.to_nat (ticks_of 2000 + 1) <= 126)%nat /\
  exists zs : list Z,
    Utils.animateNumber 126 (Double.of_Z 1000) (Double.of_Z 2000)
    = (shown_integer <$> zs, true) /\
    (1 <= length zs <= Z.to_nat (ticks_of 2000 + 1))%nat /\
    list.last zs = Some 1000 /\
    Forall (fun z => z <= 1000) zs /\
    forall (k : nat) (z : Z),
      (S k < length zs)%nat -> zs !! k = Some z ->
      shown_integer z
      = Double.floor
          (Nat.iter (S k)
             (fun current =>
                Double.add current
                  (Double.div (Double.of_Z 1000)
                     (Double.div (Double.of_Z 2000) (Double.of_Z 16))))
             (Double.of_Z 0)).
Proof.
  assert (H1 : 1 <= 1000) by lia.
  assert (H2 : representable 1000) by (vm_compute; reflexivity).
  assert (H3 : 1 <= 2000 <= 2 ^ 30) by lia.
  assert (H4 : (Z.to_nat (ticks_of 2000 + 1) <= 126)%nat) by (vm_compute; lia).
  split; [exact H1|]. split; [exact H2|]. split; [exact H3|]. split; [exact H4|].
  exact (animateNumber_ends_on_target 1000 2000 126 H1 H2 H3 H4).
Defined.

(** With binary64 sums the number of callbacks is not always
    [duration / 16] rounded up: for 1000 it is 125, for 25 the sum after
    125 additions of 0.2 is still below 25, and a 126th callback writes the
    target. *)
Lemma animateNumber_callbacks_1000_and_25 :
  length (fst (Utils.animateNumber 200 (Double.of_Z 1000) (Double.of_Z 2000))) = 125%nat /\
  length (fst (Utils.animateNumber 200 (Double.of_Z 25) (Double.of_Z 2000))) = 126%nat /\
  fst (Utils.animateNumber 200 (Double.of_Z 25) (Double.of_Z 2000)) !! 124%nat
  = Some (shown_integer 24) /\
  fst (Utils.animateNumber 200 (Double.of_Z 25) (Double.of_Z 2000)) !! 125%nat
  = Some (shown_integer 25).
Proof. vm_compute. repeat split; reflexivity. Qed.

(** The bound on the duration is needed: a sum of binary64 numbers can stop
    growing. *)

(** A multiple of a power of two by an integer of at most 53 bits is a
    binary64 number. *)
Lemma round_pos_scaled q n k :
  (q == inject_Z n * Double.pow2 k)%Q -> 0 < n <= 2 ^ 53 -> -1022 <= k <= 0 ->
  Double.round_pos q = Double.Finite (Qred q).
Proof.
  intros Hq [Hn Hmax] Hk.
  pose proof (Z.log2_spec n Hn) as [Hn1 Hn2]. pose proof (Z.log2_nonneg n) as Ha.
  pose proof (pow2_pos k) as Hp.
  assert (He53 : Z.log2 n <= 53).
  { change 53 with (Z.log2 (2 ^ 53)). by apply Z.log2_le_mono. }
  set (a := Z.log2 n) in *.
  assert (He : Double.exponent q = a + k).
  { apply exponent_unique. rewrite Hq.
    replace (a + k + 1) with (a + 1 + k) by lia.
    rewrite (pow2_plus a k), (pow2_plus (a + 1) k), (pow2_Z a), (pow2_Z (a + 1)) by lia. split.
    - apply Qmult_le_compat_r; [|lra]. rewrite <- Zle_Qle. lia.
    - apply Qmult_lt_compat_r; [lra|]. rewrite <- Zlt_Qlt. rewrite <- Z.add_1_r in Hn2. lia. }
  unfold Double.round_pos. cbv zeta. rewrite He.
  rewrite Z.max_l by lia.
  assert (Hdiv : exists M, (q / Double.pow2 (a + k - 52) == inject_Z M)%Q /\
                           (inject_Z M * Double.pow2 (a + k - 52) == q)%Q).
  { destruct (decide (a <= 52)) as [Hsmall|Hbig].
    - exists (n * 2 ^ (52 - a)).
      assert (Hinv : (Double.pow2 (a - 52) * Double.pow2 (52 - a) == 1)%Q).
      { rewrite <- pow2_plus. by replace (a - 52 + (52 - a)) with 0 by lia. }
      assert (Hulp : (Double.pow2 (a + k - 52) == Double.pow2 k * Double.pow2 (a - 52))%Q).
      { rewrite <- pow2_plus. by replace (k + (a - 52)) with (a + k - 52) by lia. }
      rewrite Hulp, inject_Z_mult, <- pow2_Z by lia.
      pose proof (pow2_pos (a - 52)) as Hx. pose proof (pow2_pos (52 - a)) as Hy.
      revert Hinv Hx Hy Hp Hq.
      generalize (Double.pow2 (a - 52)) (Double.pow2 (52 - a)) (Double.pow2 k).
      intros x y p Hinv Hx Hy Hp Hq. rewrite Hq.
      assert (Hy' : (y == / x)%Q).
      { apply Qmult_inj_r with x; [lra|]. rewrite (Qmult_comm y x), Hinv. field. lra. }
      split.
      + rewrite Hy'. field. split; lra.
      + rewrite Hy'. field. lra.
    - assert (a = 53) by lia.
      assert (n = 2 ^ 53) by (rewrite H in Hn1; lia). subst n.
      exists (2 ^ 52). rewrite H.
      assert (Hulp : (Double.pow2 (53 + k - 52) == 2 * Double.pow2 k)%Q).
      { replace (53 + k - 52) with (1 + k) by lia. rewrite pow2_plus. reflexivity. }
      rewrite Hulp, Hq. revert Hp. generalize (Double.pow2 k). intros p Hp.
      split.
      + change (inject_Z (2 ^ 53)) with 9007199254740992%Q.
        change (inject_Z (2 ^ 52)) with 4503599627370496%Q. field. lra.
      + change (inject_Z (2 ^ 53)) with 9007199254740992%Q.
        change (inject_Z (2 ^ 52)) with 4503599627370496%Q. ring. }
  destruct Hdiv as (M & HM & Hr).
  rewrite (round_half_even_Z _ M HM).
  destruct (Qle_bool (Double.pow2 1024) (inject_Z M * Double.pow2 (a + k - 52))) eqn:E.
  - exfalso. apply Qle_bool_iff in E. rewrite Hr, Hq in E.
    assert (Hlt : (inject_Z n * Double.pow2 k < Double.pow2 1024)%Q).
    { apply Qle_lt_trans with (inject_Z n * 1)%Q.
      - apply Qmult_le_l; [change 0%Q with (inject_Z 0); rewrite <- Zlt_Qlt; lia|].
        change 1%Q with (Double.pow2 0). apply pow2_le. lia.
      - rewrite Qmult_1_r.
        eapply Qle_lt_trans; [|apply (pow2_lt 53 1024); lia].
        rewrite pow2_Z by lia. by rewrite <- Zle_Qle. }
    revert E Hlt. generalize (Double.pow2 1024). intros P E Hlt. lra.
  - f_equal. by apply Qred_complete.
Qed.

(** With a duration of [2^70] ms the increment for target 1 is [2^-66]. The
    sum grows by exact additions up to [2^-13]; there one more increment is
    half a unit in the last place and the addition rounds back to the same
    sum: the timer is never cleared. *)
Lemma animateNumber_stalls_run (fuel : nat) (j : Z) :
  0 <= j <= 2 ^ 53 ->
  snd (Utils.animateNumber_run fuel (Double.Finite 1) (Double.Finite (Double.pow2 (-66)))
         (Double.Finite (Qred (inject_Z j * Double.pow2 (-66)))))
  = false.
Proof.
  revert j. induction fuel as [|fuel IH]; intros j Hj; [reflexivity|].
  cbn [Utils.animateNumber_run]. unfold Utils.animateNumber_tick.
  cbn [Double.add].
  assert (Hnext : Double.round (Qred (inject_Z j * Double.pow2 (-66)) + Double.pow2 (-66))
                  = Double.Finite (Qred (inject_Z (Z.min (j + 1) (2 ^ 53)) * Double.pow2 (-66)))).
  { destruct (decide (j = 2 ^ 53)) as [->|Hne]; [vm_compute; reflexivity|].
    rewrite Z.min_l by lia.
    assert (Hsum : (Qred (inject_Z j * Double.pow2 (-66)) + Double.pow2 (-66)
                    == inject_Z (j + 1) * Double.pow2 (-66))%Q).
    { rewrite Qred_correct, inject_Z_plus. change (inject_Z 1) with 1%Q. ring. }
    rewrite (round_comp _ _ Hsum). unfold Double.round.
    assert (Hpos : (0 < inject_Z (j + 1) * Double.pow2 (-66))%Q).
    { apply Qmult_lt_0_compat; [|apply pow2_pos].
      change 0%Q with (inject_Z 0). rewrite <- Zlt_Qlt. lia. }
    destruct (Qcompare_spec (inject_Z (j + 1) * Double.pow2 (-66)) 0) as [H|H|H]; [lra|lra|].
    rewrite (round_pos_scaled _ (j + 1) (-66)); [reflexivity|reflexivity|lia|lia]. }
  rewrite Hnext. cbn [Double.ge Double.floor].
  assert (Hbelow : Qle_bool 1 (Qred (inject_Z (Z.min (j + 1) (2 ^ 53)) * Double.pow2 (-66)))
                   = false).
  { apply not_true_is_false. intros Hle. apply Qle_bool_iff in Hle.
    rewrite Qred_correct in Hle.
    assert (Hm : (inject_Z (Z.min (j + 1) (2 ^ 53)) <= 9007199254740992)%Q).
    { change 9007199254740992%Q with (inject_Z (2 ^ 53)). rewrite <- Zle_Qle. lia. }
    change (Double.pow2 (-66)) with (1 # 73786976294838206464)%Q in Hle. lra. }
  rewrite Hbelow.
  specialize (IH (Z.min (j + 1) (2 ^ 53)) ltac:(lia)).
  destruct (Utils.animateNumber_run fuel _ _ _) as [rest done]. exact IH.
Qed.

Lemma animateNumber_long_duration_never_clears (fuel : nat) :
  snd (Utils.animateNumber fuel (Double.of_Z 1) (Double.of_Z (2 ^ 70))) = false.
Proof.
  unfold Utils.animateNumber.
  assert (Hinc : Double.div (Double.of_Z 1) (Double.div (Double.of_Z (2 ^ 70)) (Double.of_Z 16))
                 = Double.Finite (Double.pow2 (-66))) by (vm_compute; reflexivity).
  rewrite Hinc.
  change (Double.of_Z 0) with (Double.Finite (Qred (inject_Z 0 * Double.pow2 (-66)))).
  assert (Hone : Double.of_Z 1 = Double.Finite 1) by (vm_compute; reflexivity).
  rewrite Hone. apply animateNumber_stalls_run. lia.
Qed.

(** ** Initialization and the unload listener *)

Section Unload.
Context `{codec : JSONCodec}.

Lemma saveToStorage_listeners env w :
  listeners (Analytics.saveToStorage env w) = listeners w.
Proof. unfold Analytics.saveToStorage, setItem. by destruct (storage_ok env). Qed.

(** [Analytics.init] creates the session, records [page_view] and registers
    its two listeners, the one for [beforeunload] exactly once. *)
Lemma init_session env0 env referrer device w :
  fst (Analytics.init env0 env referrer device w) = Returned /\
  analytics (snd (Analytics.init env0 env referrer device w))
  = Some {| sessionId := Analytics.generateSessionId env0;
            startTime := now env0;
            events := [page_view env (Analytics.generateSessionId env0) referrer device] |} /\
  listeners (snd (Analytics.init env0 env referrer device w))
  = listeners w ++ [(load, H_trackPerformance); (beforeunload, H_trackSessionEnd)].
Proof.
  unfold Analytics.init. simpl negb. cbv iota.
  set (s := {| sessionId := _; startTime := _; events := [] |}).
  rewrite (trackEvent_initialised env "page_view" _ (set_analytics (Some s) w) s eq_refl).
  cbv zeta. simpl. rewrite saveToStorage_analytics, saveToStorage_listeners. simpl.
  by rewrite <- app_assoc.
Qed.

Lemma init_registers_unload_once env0 env referrer device store icon :
  Page.handlers_of beforeunload
    (snd (Analytics.init env0 env referrer device (Page.fresh store icon)))
  = [H_trackSessionEnd].
Proof.
  unfold Page.handlers_of.
  by rewrite (proj2 (proj2 (init_session env0 env referrer device _))).
Qed.

(** C9, as amended: each dispatch of [beforeunload] to the one listener
    that [Analytics.init] registered appends exactly one event, a
    [session_end] whose [duration] is the time since [startTime] and whose
    [eventsCount] is the size of the in-memory sequence before the append;
    it is the last event of the sequence at that moment. *)
Theorem beforeunload_appends_session_end env w s :
  analytics w = Some s ->
  Page.handlers_of beforeunload w = [H_trackSessionEnd] ->
  exists (e : JSValue) (d : list (string * JSValue)),
    (events <$> analytics (Page.dispatch beforeunload env w)) = Some (events s ++ [e]) /\
    list.last (events s ++ [e]) = Some e /\
    event_name e = Some "session_end" /\
    event_data e = Some d /\
    Obj.get "duration" d = Some (JNum (now env - startTime s)) /\
    Obj.get "eventsCount" d = Some (JNum (Z.of_nat (length (events s)))).
Proof.
  intros Hs Hh. unfold Page.dispatch. rewrite Hh. simpl.
  unfold Analytics.trackSessionEnd. rewrite Hs.
  rewrite (trackEvent_initialised _ _ _ _ _ Hs). cbv zeta.
  eexists _, _. split; [|split; [apply last_snoc|]].
  - simpl. by rewrite saveToStorage_analytics.
  - repeat split.
Qed.

(** Two dispatches in one session, as after a navigation that did not
    leave the page: two [session_end] events. *)
Lemma beforeunload_twice :
  let w := snd (Analytics.init (env_at 0) (env_at 0) "" JNull (Page.fresh ∅ None)) in
  let w1 := Page.dispatch beforeunload (env_at 5000) w in
  let w2 := Page.dispatch beforeunload (env_at 9000) w1 in
  (fmap event_name <$> (events <$> analytics w1))
  = Some [Some "page_view"; Some "session_end"] /\
  (fmap event_name <$> (events <$> analytics w2))
  = Some [Some "page_view"; Some "session_end"; Some "session_end"] /\
  (fmap event_duration <$> (events <$> analytics w2))
  = Some [None; Some 5000; Some 9000].
Proof. vm_compute. done. Qed.

(** C5: a click on the toggle while the storage refuses the write. The
    state in memory becomes [light], and the handler ends with the
    exception of [setItem]: nothing is stored, the displayed theme is not
    changed, and no [theme_change] event is recorded. *)
Theorem themeToggle_click_storage_full :
  let w := loaded_page in
  let w' := snd (Theme.themeToggle_click (storage_full 2) w) in
  currentTheme w = "system" /\
  fst (Theme.themeToggle_click (storage_full 2) w) = Thrown QuotaExceededError /\
  currentTheme w' = "light" /\
  localStorage w' !! "linkpro_theme" = None /\
  data_theme w' = data_theme w /\
  (fmap event_name <$> (events <$> analytics w')) = Some [Some "page_view"].
Proof. vm_compute. done. Qed.

End Unload.

(** C9, as stated, fails: when the browser dispatches [beforeunload] twice
    in one session, the listener runs twice and the first [session_end]
    is followed by a second one. *)
Lemma beforeunload_twice_two_session_ends :
  (fmap event_name <$>
     (events <$>
        analytics
          (@Page.dispatch numbering_codec beforeunload (env_at 9000)
             (@Page.dispatch numbering_codec beforeunload (env_at 5000)
                (snd (@Analytics.init numbering_codec (env_at 0) (env_at 0) "" JNull
                        (Page.fresh ∅ None)))))))
  = Some [Some "page_view"; Some "session_end"; Some "session_end"].
Proof. exact (proj1 (proj2 (@beforeunload_twice numbering_codec))). Qed.

(** C6, as stated, fails: before [Analytics.init] has run there is no
    [this.events], and [trackEvent] raises. The script reaches this state by
    itself: its [error] listener on the window calls [trackEvent], and
    while the document loads [init] has not run yet. *)
Lemma trackEvent_before_init_raises :
  @Analytics.trackEvent numbering_codec (env_at 1700000000000) "global_error"
    [ ("message", JStr "Script error."); ("source", JUndefined);
      ("lineno", JNum 0); ("colno", JNum 0) ]
    (Page.fresh ∅ None)
  = (Thrown TypeError, Page.fresh ∅ None).
Proof. reflexivity. Qed.

(** ** The theorems at concrete pages *)

Lemma persisted_log_after_calls_witness :
  analytics session_page
  = Some {| sessionId := "session_1700000000000_a1b2c3d4e";
            startTime := 1700000000000; events := [] |} /\
  Forall (fun c => storage_ok (call_env c) = true) two_calls /\
  two_calls <> [] /\
  storage_ok (env_at 1700000009000) = true /\
  exists log,
    fst (@Analytics.loadFromStorage numbering_codec (env_at 1700000009000)
           (@trackEvents numbering_codec two_calls session_page)) = JArr log /\
    length log = length two_calls /\
    Forall2 (fun e c =>
               event_name e = Some (call_name c) /\
               get_prop e "id" = Normal (JStr (Utils.generateId (call_env c))) /\
               get_prop e "sessionId" = Normal (JStr "session_1700000000000_a1b2c3d4e"))
            log two_calls.
Proof.
  assert (H1 : analytics session_page
               = Some {| sessionId := "session_1700000000000_a1b2c3d4e";
                         startTime := 1700000000000; events := [] |}) by reflexivity.
  assert (H2 : Forall (fun c => storage_ok (call_env c) = true) two_calls)
    by (repeat constructor).
  assert (H3 : two_calls <> []) by discriminate.
  assert (H4 : storage_ok (env_at 1700000009000) = true) by reflexivity.
  repeat (split; [assumption|]).
  exact (@persisted_log_after_calls numbering_codec two_calls session_page _ _ _
           H1 H2 H3 H4).
Defined.

Lemma getSummary_empty_log_witness :
  fst (@Analytics.loadFromStorage numbering_codec (env_at 0) (Page.fresh ∅ None))
  = JArr [] /\
  fst (@Analytics.getSummary numbering_codec (env_at 0) (Page.fresh ∅ None))
  = Normal {| totalEvents := 0; totalClicks := 0; categories := ∅;
              averageSessionTime := Some 0 |}.
Proof.
  assert (H1 : fst (@Analytics.loadFromStorage numbering_codec (env_at 0)
                      (Page.fresh ∅ None)) = JArr []) by reflexivity.
  split; [assumption|].
  exact (@getSummary_empty_log numbering_codec (env_at 0) (Page.fresh ∅ None) H1).
Defined.


Lemma trackEvent_never_raises_witness :
  analytics session_page
  = Some {| sessionId := "session_1700000000000_a1b2c3d4e";
            startTime := 1700000000000; events := [] |} /\
  let env := storage_full 1700000000100 in
  let data := [ ("category", JStr "music") ] in
  let event := Analytics.make_event env (JStr "session_1700000000000_a1b2c3d4e")
                 "link_click" data in
  let w' := snd (@Analytics.trackEvent numbering_codec env "link_click" data session_page) in
  fst (@Analytics.trackEvent numbering_codec env "link_click" data session_page)
  = Returned /\
  (events <$> analytics w') = Some ([] ++ [event]) /\
  (storage_ok env = false ->
   localStorage w' = localStorage session_page /\
   console w' = console session_page ++
                [ ConsoleWarn "Analytics storage failed:" QuotaExceededError;
                  ConsoleLog "Analytics Event:" event ]).
Proof.
  split; [reflexivity|].
  exact (@trackEvent_never_raises numbering_codec (storage_full 1700000000100)
           "link_click" [ ("category", JStr "music") ] session_page _ eq_refl).
Defined.

Lemma trackEvent_injects_timestamp_and_url_witness :
  analytics session_page
  = Some {| sessionId := "session_1700000000000_a1b2c3d4e";
            startTime := 1700000000000; events := [] |} /\
  let env := env_at 1700000000100 in
  let data := [ ("url", JStr "https://caller.example/"); ("timestamp", JNum 1);
                ("referrer", JStr "") ] in
  exists (event : JSValue) (d : list (string * JSValue)),
    (events <$> analytics
                  (snd (@Analytics.trackEvent numbering_codec env "page_view" data
                          session_page)))
    = Some ([] ++ [event]) /\
    event_data event = Some d /\
    Obj.get "timestamp" d = Some (JNum (now env)) /\
    Obj.get "url" d = Some (JStr (href env)) /\
    forall k, k <> "timestamp" -> k <> "url" ->
              Obj.get k d = Obj.get k (rev data).
Proof.
  split; [reflexivity|].
  exact (@trackEvent_injects_timestamp_and_url numbering_codec (env_at 1700000000100)
           "page_view"
           [ ("url", JStr "https://caller.example/"); ("timestamp", JNum 1);
             ("referrer", JStr "") ] session_page _ eq_refl).
Defined.

Lemma beforeunload_appends_session_end_witness :
  let w := snd (@Analytics.init numbering_codec (env_at 1700000000000)
                  (env_at 1700000000000) "" JNull (Page.fresh ∅ None)) in
  let s := {| sessionId := Analytics.generateSessionId (env_at 1700000000000);
              startTime := 1700000000000;
              events := [page_view (env_at 1700000000000)
                           (Analytics.generateSessionId (env_at 1700000000000))
                           "" JNull] |} in
  analytics w = Some s /\
  @Page.handlers_of beforeunload w = [H_trackSessionEnd] /\
  exists (e : JSValue) (d : list (string * JSValue)),
    (events <$> analytics (@Page.dispatch numbering_codec beforeunload
                             (env_at 1700000065000) w))
    = Some (events s ++ [e]) /\
    list.last (events s ++ [e]) = Some e /\
    event_name e = Some "session_end" /\
    event_data e = Some d /\
    Obj.get "duration" d = Some (JNum (now (env_at 1700000065000) - startTime s)) /\
    Obj.get "eventsCount" d = Some (JNum (Z.of_nat (length (events s)))).
Proof.
  cbv zeta.
  pose proof (proj1 (proj2 (@init_session numbering_codec (env_at 1700000000000)
                              (env_at 1700000000000) "" JNull (Page.fresh ∅ None))))
    as H1.
  pose proof (@init_registers_unload_once numbering_codec (env_at 1700000000000)
                (env_at 1700000000000) "" JNull ∅ None) as H2.
  split; [exact H1|]. split; [exact H2|].
  exact (@beforeunload_appends_session_end numbering_codec (env_at 1700000065000)
           _ _ H1 H2).
Defined.

Lemma loadFromStorage_parsed_or_empty_witness :
  fst (@Analytics.loadFromStorage numbering_codec (env_at 0)
         (@stored numbering_codec three_sessions)) = JArr three_sessions /\
  fst (@Analytics.loadFromStorage numbering_codec (env_at 0) (Page.fresh ∅ None))
  = JArr [] /\
  fst (@Analytics.loadFromStorage numbering_codec (storage_full 0)
         (@stored numbering_codec three_sessions)) = JArr [].
Proof.
  split; [|split].
  - apply (proj2 (proj2 (proj2
             (@loadFromStorage_parsed_or_empty numbering_codec (env_at 0)
                (@stored numbering_codec three_sessions))))
             (@JSON_stringify numbering_codec (JArr three_sessions))
             (JArr three_sessions) eq_refl).
    + apply lookup_singleton_eq.
    + exact (@JSON_parse_stringify numbering_codec (JArr three_sessions)
               ltac:(discriminate)).
  - exact (proj1 (proj2
             (@loadFromStorage_parsed_or_empty numbering_codec (env_at 0)
                (Page.fresh ∅ None))) eq_refl eq_refl).
  - exact (proj1
             (@loadFromStorage_parsed_or_empty numbering_codec (storage_full 0)
                (@stored numbering_codec three_sessions)) eq_refl).
Defined.

Section FromInit.
Context `{codec : JSONCodec}.

Lemma init_stores_page_view env0 env referrer device w :
  storage_ok env = true ->
  localStorage (snd (Analytics.init env0 env referrer device w))
    !! APP_CONFIG.analytics.trackingKey
  = Some (JSON_stringify
            (JArr [page_view env (Analytics.generateSessionId env0) referrer device])).
Proof.
  intros Hok. unfold Analytics.init. simpl negb. cbv iota.
  set (s := {| sessionId := _; startTime := _; events := [] |}).
  rewrite (trackEvent_initialised env "page_view" _ (set_analytics (Some s) w) s eq_refl).
  cbv zeta. rewrite (saveToStorage_ok _ _ Hok). simpl. apply lookup_insert_eq.
Qed.

(** From [Analytics.init] on: after the automatic [page_view] and N further
    calls, every write succeeding, the log read back holds the [page_view]
    and the N events, in order, all under the session id that [init]
    generated. *)
Lemma persisted_log_after_init env0 env1 referrer device w calls env :
  storage_ok env1 = true ->
  Forall (fun c => storage_ok (call_env c) = true) calls ->
  storage_ok env = true ->
  let sid := Analytics.generateSessionId env0 in
  fst (Analytics.loadFromStorage env
         (trackEvents calls (snd (Analytics.init env0 env1 referrer device w))))
  = json_clean (JArr (page_view env1 sid referrer device :: recorded sid calls)).
Proof.
  intros Hok1 Hcalls Hok. cbv zeta.
  destruct (init_session env0 env1 referrer device w) as (_ & Hs & _).
  destruct (trackEvents_session calls _ _ Hs Hcalls) as [_ Hstore].
  apply loadFromStorage_stringified; [done|done|].
  rewrite Hstore. destruct calls; [|done].
  by apply init_stores_page_view.
Qed.

End FromInit.

(** * Further properties *)

Set Warnings "-clear-no-such-hyp".

(** ** The log across failed writes and across sessions *)

Lemma json_clean_arr l : json_clean (JArr l) = JArr (clean_item <$> l).
Proof.
  reflexivity.
Qed.

Lemma saved_prefix_snoc calls c :
  storage_ok (call_env c) = true -> saved_prefix (calls ++ [c]) = Some (calls ++ [c]).
Proof.
  intros Hok. induction calls as [|c0 calls IH]; simpl.
  - by rewrite Hok.
  - by rewrite IH.
Qed.

Lemma saved_prefix_all_failed calls :
  Forall (fun c => storage_ok (call_env c) = false) calls -> saved_prefix calls = None.
Proof.
  induction 1 as [|c calls Hc _ IH]; simpl; [done|]. by rewrite IH, Hc.
Qed.

Section Failures.
Context `{codec : JSONCodec}.

(** Whatever the writes do, the in-memory sequence holds every event, and
    the stored text is the one of the last write that completed. *)
Lemma trackEvents_any calls : forall w s,
  analytics w = Some s ->
  analytics (trackEvents calls w) =
    Some {| sessionId := sessionId s; startTime := startTime s;
            events := events s ++ recorded (sessionId s) calls |} /\
  localStorage (trackEvents calls w) !! APP_CONFIG.analytics.trackingKey =
    match saved_prefix calls with
    | Some p => Some (JSON_stringify (JArr (events s ++ recorded (sessionId s) p)))
    | None => localStorage w !! APP_CONFIG.analytics.trackingKey
    end.
Proof.
  induction calls as [|c calls IH]; intros w s Hs.
  - simpl. rewrite app_nil_r. by destruct s.
  - simpl trackEvents. rewrite (trackEvent_initialised _ _ _ _ _ Hs). cbv zeta.
    set (s1 := {| sessionId := sessionId s; startTime := startTime s;
                  events := events s ++ _ |}).
    set (w1 := snd _).
    assert (Hs1 : analytics w1 = Some s1).
    { subst w1. simpl. by rewrite saveToStorage_analytics. }
    destruct (IH w1 s1 Hs1) as [Ha Hl]. split.
    + rewrite Ha. subst s1. simpl. by rewrite <- app_assoc.
    + rewrite Hl. simpl saved_prefix. destruct (saved_prefix calls) as [p|].
      * subst s1. simpl. by rewrite <- app_assoc.
      * subst w1. simpl. destruct (storage_ok (call_env c)) eqn:Hc.
        -- rewrite (saveToStorage_ok _ _ Hc). simpl. by rewrite lookup_insert_eq.
        -- by rewrite (saveToStorage_failed _ _ Hc).
Qed.

(** X1: in a session, after any calls of [trackEvent], whichever of their
    storage writes fail: the in-memory sequence holds all the events in
    call order; the log read back from storage holds the events up to and
    including the last call whose write completed; and when no write
    completed the stored text is the one from before the calls. *)
Theorem persisted_copy_is_last_completed_write calls w s env :
  analytics w = Some s ->
  storage_ok env = true ->
  (events <$> analytics (trackEvents calls w))
  = Some (events s ++ recorded (sessionId s) calls) /\
  match saved_prefix calls with
  | Some p =>
      fst (Analytics.loadFromStorage env (trackEvents calls w))
      = json_clean (JArr (events s ++ recorded (sessionId s) p))
  | None =>
      localStorage (trackEvents calls w) !! APP_CONFIG.analytics.trackingKey
      = localStorage w !! APP_CONFIG.analytics.trackingKey
  end.
Proof.
  intros Hs Henv. destruct (trackEvents_any calls w s Hs) as [Ha Hl]. split.
  - by rewrite Ha.
  - destruct (saved_prefix calls) as [p|]; [|done].
    by apply loadFromStorage_stringified.
Qed.

(** X2: the full rewrite repairs a stale copy: when the write of the last
    call completes, the log read back holds every event of the session,
    also those recorded while the storage refused the writes. *)
Theorem completed_write_repairs_log calls c w s env :
  analytics w = Some s ->
  storage_ok (call_env c) = true ->
  storage_ok env = true ->
  fst (Analytics.loadFromStorage env (trackEvents (calls ++ [c]) w))
  = JArr (clean_item <$> (events s ++ recorded (sessionId s) (calls ++ [c]))).
Proof.
  intros Hs Hc Henv. destruct (trackEvents_any (calls ++ [c]) w s Hs) as [_ Hl].
  rewrite (saved_prefix_snoc _ _ Hc) in Hl.
  pose proof (fun Hv => loadFromStorage_stringified env _ _ Henv Hv Hl) as Hload.
  rewrite Hload by discriminate. apply json_clean_arr.
Qed.

End Failures.

(** ** From a visit to its summary *)

Lemma well_formed_clean_event env sid eventName data :
  well_formed_event (clean_item (Analytics.make_event env (JStr sid) eventName data)) = true.
Proof. reflexivity. Qed.

Lemma named_clean_event n env sid eventName data :
  named n (clean_item (Analytics.make_event env (JStr sid) eventName data))
  = String.eqb eventName n.
Proof. reflexivity. Qed.

Lemma sessionId_clean_event env sid eventName data :
  get_prop (clean_item (Analytics.make_event env (JStr sid) eventName data)) "sessionId"
  = Normal (JStr sid).
Proof. reflexivity. Qed.

Lemma well_formed_clean_recorded sid calls :
  Forall (fun e => well_formed_event e = true) (clean_item <$> recorded sid calls).
Proof. induction calls as [|c calls IH]; constructor; [reflexivity|exact IH]. Qed.

Lemma filter_named_clean_recorded n sid calls :
  filter (fun e => named n e = true) (clean_item <$> recorded sid calls)
  = clean_item <$> recorded sid (filter (fun c => call_name c = n) calls).
Proof.
  induction calls as [|c calls IH]; [done|].
  change (clean_item <$> recorded sid (c :: calls))
    with (clean_item (Analytics.make_event (call_env c) (JStr sid) (call_name c)
                        (call_data c)) :: (clean_item <$> recorded sid calls)).
  rewrite !filter_cons, named_clean_event, IH.
  destruct (String.eqb_spec (call_name c) n) as [E|E]; repeat case_decide; try done.
Qed.

Lemma event_name_clean_recorded sid calls :
  event_name <$> (clean_item <$> recorded sid calls) = Some ∘ call_name <$> calls.
Proof.
  unfold recorded. induction calls as [|c calls IH]; [done|].
  rewrite !fmap_cons, IH. reflexivity.
Qed.

Lemma category_key_clean_click env sid (click : Env * LinkCard) `{codec : JSONCodec} :
  category_key (clean_item (Analytics.make_event env (JStr sid) "link_click"
                              (call_data (call_of_click click))))
  = LinkProApp.category_of (snd click).
Proof.
  destruct click as [env' [id url title category grid]].
  unfold call_of_click, AnalyticsLinks.getLinkPosition. simpl.
  destruct title, grid; reflexivity.
Qed.

Section Visit.
Context `{codec : JSONCodec}.

Lemma click_cards_trackEvents clicks : forall w,
  click_cards clicks w = trackEvents (call_of_click <$> clicks) w.
Proof.
  induction clicks as [|[env link] clicks IH]; intros w; [done|].
  simpl. by rewrite IH.
Qed.

(** The log that a visit leaves in storage. *)
Lemma loaded_after_init env0 env1 referrer device w calls env :
  storage_ok env1 = true ->
  Forall (fun c => storage_ok (call_env c) = true) calls ->
  storage_ok env = true ->
  let sid := Analytics.generateSessionId env0 in
  fst (Analytics.loadFromStorage env
         (trackEvents calls (snd (Analytics.init env0 env1 referrer device w))))
  = JArr (clean_item (page_view env1 sid referrer device)
            :: (clean_item <$> recorded sid calls)).
Proof.
  intros H1 H2 H3. cbv zeta.
  rewrite (persisted_log_after_init env0 env1 referrer device w calls env H1 H2 H3).
  apply json_clean_arr.
Qed.

(** X3: [Analytics.init] starts the stored log afresh: after [init] and N
    further calls, every write completing, the log read back holds the
    [page_view] event and the N events, in call order, all under the
    session id that [init] generated, whatever the storage held before. *)
Theorem init_replaces_stored_log env0 env1 referrer device w calls env :
  storage_ok env1 = true ->
  Forall (fun c => storage_ok (call_env c) = true) calls ->
  storage_ok env = true ->
  exists log,
    fst (Analytics.loadFromStorage env
           (trackEvents calls (snd (Analytics.init env0 env1 referrer device w))))
    = JArr log /\
    event_name <$> log = Some "page_view" :: (Some ∘ call_name <$> calls) /\
    Forall (fun e => get_prop e "sessionId"
                     = Normal (JStr (Analytics.generateSessionId env0))) log.
Proof.
  intros H1 H2 H3. eexists. split; [by apply loaded_after_init|]. split.
  - rewrite fmap_cons. f_equal. apply event_name_clean_recorded.
  - constructor; [reflexivity|]. clear.
    induction calls as [|c calls IH]; constructor; [reflexivity|exact IH].
Qed.


(** X5: from clicks to counts: after [init] and clicks on link cards, every
    write completing, [getSummary] counts every click and maps each
    category to the number of clicks on cards of that category, a card
    without [data-category] counting as [unknown]; provided no category
    is a name inherited from [Object.prototype]. *)
Theorem summary_after_clicks env0 env1 referrer device w clicks env :
  storage_ok env1 = true ->
  Forall (fun click => storage_ok (fst click) = true) clicks ->
  storage_ok env = true ->
  let cats := LinkProApp.category_of ∘ snd <$> clicks in
  Forall (fun c => c ∉ Object_prototype_keys) cats ->
  exists sm,
    fst (Analytics.getSummary env
           (click_cards clicks (snd (Analytics.init env0 env1 referrer device w))))
    = Normal sm /\
    totalClicks sm = Z.of_nat (length clicks) /\
    forall c, categories sm !! c =
              if (occurrences c cats =? 0)%Z then None
              else Some (TNum (occurrences c cats)).
Proof.
  intros H1 H2 H3 cats Hcats. rewrite click_cards_trackEvents.
  assert (H2' : Forall (fun c => storage_ok (call_env c) = true) (call_of_click <$> clicks)).
  { clear -H2. induction H2; constructor; done. }
  pose proof (loaded_after_init env0 env1 referrer device w _ env H1 H2' H3) as Hload.
  cbv zeta in Hload.
  rewrite (getSummary_well_formed _ _ _ Hload)
    by (constructor; [reflexivity|apply well_formed_clean_recorded]).
  eexists. split; [reflexivity|].
  cbn [totalEvents totalClicks categories averageSessionTime].
  unfold page_view. rewrite !filter_cons, !named_clean_event.
  repeat (case_decide as Hd; [by vm_compute in Hd|clear Hd]).
  rewrite !filter_named_clean_recorded.
  assert (Hall : filter (fun c => call_name c = "link_click") (call_of_click <$> clicks)
                 = call_of_click <$> clicks).
  { clear. induction clicks as [|cl clicks IH]; [done|].
    rewrite fmap_cons, filter_cons. case_decide; [by rewrite IH|done]. }
  rewrite Hall.
  assert (Hkeys : category_key <$>
                    (clean_item <$> recorded (Analytics.generateSessionId env0)
                                      (call_of_click <$> clicks)) = cats).
  { subst cats. clear. unfold recorded.
    induction clicks as [|cl clicks IH]; [done|].
    rewrite !fmap_cons, IH. f_equal.
    apply (category_key_clean_click (call_env (call_of_click cl))). }
  split.
  - unfold recorded. by rewrite !length_fmap.
  - intros c. rewrite Hkeys. by apply count_categories_lookup.
Qed.

End Visit.

(** ** When the summary raises *)








Section Raises.
Context `{codec : JSONCodec}.


End Raises.

(** ** The position of a link card *)


Section LinkPosition.
Context `{codec : JSONCodec}.


End LinkPosition.

(** ** The theme across clicks and page loads *)

Section ThemeLoads.
Context `{codec : JSONCodec}.

Lemma applyTheme_frame env theme w :
  currentTheme (Theme.applyTheme env theme w) = currentTheme w /\
  localStorage (Theme.applyTheme env theme w) = localStorage w /\
  analytics (Theme.applyTheme env theme w) = analytics w /\
  listeners (Theme.applyTheme env theme w) = listeners w /\
  console (Theme.applyTheme env theme w) = console w.
Proof.
  unfold Theme.applyTheme, Theme.updateThemeIcon.
  destruct (String.eqb theme "system"); simpl; by destruct (toggle_icon w).
Qed.

Lemma applyTheme_data_theme env theme w :
  data_theme (Theme.applyTheme env theme w)
  = Some (if String.eqb theme "system"
          then if prefers_dark env then "dark" else "light"
          else theme).
Proof.
  unfold Theme.applyTheme, Theme.updateThemeIcon.
  destruct (String.eqb theme "system"); simpl; by destruct (toggle_icon w).
Qed.

(** X8: the icon follows the theme shown: after [applyTheme], for any theme
    string, a page with a toggle icon shows the sun exactly when the
    [data-theme] attribute is [dark], and the moon otherwise. *)
Theorem applyTheme_icon_matches_theme env theme w icon :
  toggle_icon w = Some icon ->
  toggle_icon (Theme.applyTheme env theme w)
  = Some (if decide (data_theme (Theme.applyTheme env theme w) = Some "dark")
          then "fas fa-sun" else "fas fa-moon").
Proof.
  intros Hicon. rewrite applyTheme_data_theme.
  unfold Theme.applyTheme, Theme.updateThemeIcon.
  destruct (String.eqb_spec theme "system") as [->|Hsys]; simpl; rewrite Hicon; simpl.
  - destruct (prefers_dark env); by case_decide.
  - destruct (String.eqb_spec theme "dark") as [->|Hdark]; simpl.
    + reflexivity.
    + rewrite ?andb_false_r. try case_decide; congruence.
Qed.

Lemma Theme_init_effects env has_toggle w :
  theme_storage_ok env = true ->
  let theme := initial_theme (localStorage w !! "linkpro_theme") in
  let w' := snd (Theme.init env has_toggle w) in
  fst (Theme.init env has_toggle w) = Returned /\
  currentTheme w' = theme /\
  data_theme w' = Some (if String.eqb theme "system"
                        then if prefers_dark env then "dark" else "light"
                        else theme) /\
  localStorage w' = localStorage w /\
  listeners w' = listeners w ++
                 (if has_toggle then [(click_themeToggle, H_themeToggle)] else []) ++
                 [(change_colorScheme, H_watchSystemTheme)].
Proof.
  intros Hok. cbv zeta. unfold Theme.init, Theme.getStoredTheme, getItem.
  rewrite Hok. fold (initial_theme (localStorage w !! "linkpro_theme")).
  set (theme := initial_theme _). simpl.
  destruct (applyTheme_frame env theme (set_currentTheme theme w))
    as (Hc & Hl & _ & Hli & _).
  pose proof (applyTheme_data_theme env theme (set_currentTheme theme w)) as Hd.
  unfold Theme.setupThemeToggle, Theme.watchSystemTheme.
  destruct has_toggle; simpl; rewrite ?Hc, ?Hl, ?Hd, ?Hli; simpl;
    repeat split; try done. by rewrite <- app_assoc.
Qed.

(** X9: [Theme.init], when the storage can be read: the state is the
    stored string, or [system] when none (or an empty one) is stored; the
    theme shown is that string, resolved by the operating system's
    preference for [system]; nothing is written to storage; and the change
    listener is registered once, the click listener once when the page has
    a toggle. *)
Theorem Theme_init_state env has_toggle w :
  theme_storage_ok env = true ->
  let theme := initial_theme (localStorage w !! "linkpro_theme") in
  let w' := snd (Theme.init env has_toggle w) in
  fst (Theme.init env has_toggle w) = Returned /\
  currentTheme w' = theme /\
  data_theme w' = Some (if String.eqb theme "system"
                        then if prefers_dark env then "dark" else "light"
                        else theme) /\
  localStorage w' = localStorage w /\
  listeners w' = listeners w ++
                 (if has_toggle then [(click_themeToggle, H_themeToggle)] else []) ++
                 [(change_colorScheme, H_watchSystemTheme)].
Proof. exact (Theme_init_effects env has_toggle w). Qed.

(** X10: a preference stored by a click is the state of the next page
    load: after a click whose write completes, [Theme.init] on a page with
    the resulting storage starts in the toggled state and shows it,
    whatever the operating system prefers. *)
Theorem theme_restored_on_next_load env w s env' has_toggle icon :
  analytics w = Some s ->
  theme_storage_ok env = true ->
  theme_storage_ok env' = true ->
  let next := Page.fresh (localStorage (snd (Theme.themeToggle_click env w))) icon in
  currentTheme (snd (Theme.init env' has_toggle next)) = toggled (currentTheme w) /\
  data_theme (snd (Theme.init env' has_toggle next)) = Some (toggled (currentTheme w)).
Proof.
  intros Hs Hok Hok'. cbv zeta.
  destruct (themeToggle_click_stored env w s Hs Hok) as (_ & _ & Hstore & _).
  set (next := Page.fresh _ icon).
  destruct (Theme_init_effects env' has_toggle next Hok') as (_ & Hc & Hd & _).
  assert (Hinit : initial_theme (localStorage next !! "linkpro_theme")
                  = toggled (currentTheme w)).
  { subst next. simpl. rewrite Hstore. simpl.
    destruct (toggled_explicit (currentTheme w)) as [-> | ->]; reflexivity. }
  rewrite Hc, Hd, Hinit. split; [done|].
  destruct (toggled_explicit (currentTheme w)) as [-> | ->]; reflexivity.
Qed.

End ThemeLoads.

(** ** The theme across events *)

Section ThemeEvents.
Context `{codec : JSONCodec}.

Lemma applyTheme_listeners env theme w :
  listeners (Theme.applyTheme env theme w) = listeners w.
Proof.
  unfold Theme.applyTheme, Theme.updateThemeIcon.
  destruct (String.eqb theme "system"); simpl; by destruct (toggle_icon w).
Qed.

Lemma trackEvent_listeners env eventName data w :
  listeners (snd (Analytics.trackEvent env eventName data w)) = listeners w.
Proof.
  unfold Analytics.trackEvent. simpl. destruct (analytics w); simpl; [|done].
  unfold Analytics.saveToStorage, setItem. by destruct (storage_ok env).
Qed.

Lemma themeToggle_click_listeners env w :
  listeners (snd (Theme.themeToggle_click env w)) = listeners w.
Proof.
  unfold Theme.themeToggle_click, Theme.storeTheme, setItem.
  destruct (theme_storage_ok env); simpl; [|done].
  by rewrite trackEvent_listeners, applyTheme_listeners.
Qed.

Lemma systemTheme_change_listeners env w :
  listeners (Theme.systemTheme_change env w) = listeners w.
Proof.
  unfold Theme.systemTheme_change.
  destruct (String.eqb (currentTheme w) "system"); [apply applyTheme_listeners|done].
Qed.

(** The theme shown after a click whose write completes. *)
Lemma themeToggle_click_data_theme env w :
  theme_storage_ok env = true ->
  data_theme (snd (Theme.themeToggle_click env w)) = Some (toggled (currentTheme w)).
Proof.
  intros Hok. unfold Theme.themeToggle_click, Theme.storeTheme, setItem.
  fold (toggled (currentTheme w)). rewrite Hok. simpl.
  set (w1 := Theme.applyTheme _ _ _).
  assert (Hd : data_theme w1 = Some (toggled (currentTheme w))).
  { subst w1. by rewrite (proj1 (applyTheme_explicit _ _ _ (toggled_not_system _))). }
  unfold Analytics.trackEvent. simpl. destruct (analytics w1); simpl; [|done].
  unfold Analytics.saveToStorage, setItem. by destruct (storage_ok env).
Qed.

Lemma theme_event_step w e :
  theme_listeners w ->
  theme_event w e
  = match e with
    | ToggleClicked env => snd (Theme.themeToggle_click env w)
    | SchemeChanged env => Theme.systemTheme_change env w
    end /\
  theme_listeners (theme_event w e).
Proof.
  intros [Hclick Hchange].
  assert (Hstep : theme_event w e
                  = match e with
                    | ToggleClicked env => snd (Theme.themeToggle_click env w)
                    | SchemeChanged env => Theme.systemTheme_change env w
                    end).
  { destruct e as [env|env]; unfold theme_event, Page.dispatch.
    - by rewrite Hclick.
    - by rewrite Hchange. }
  split; [exact Hstep|]. rewrite Hstep. unfold theme_listeners, Page.handlers_of.
  destruct e as [env|env].
  - by rewrite themeToggle_click_listeners.
  - by rewrite systemTheme_change_listeners.
Qed.

Lemma Theme_init_listeners env w :
  theme_storage_ok env = true ->
  Page.handlers_of click_themeToggle w = [] ->
  Page.handlers_of change_colorScheme w = [] ->
  theme_listeners (snd (Theme.init env true w)).
Proof.
  intros Hok Hclick Hchange.
  destruct (Theme_init_effects env true w Hok) as (_ & _ & _ & _ & Hl).
  unfold theme_listeners, Page.handlers_of in *. rewrite Hl.
  rewrite !list.filter_app, !fmap_app.
  apply fmap_nil_inv in Hclick, Hchange. rewrite Hclick, Hchange.
  split; reflexivity.
Qed.

Lemma theme_events_currentTheme es : forall w,
  theme_listeners w ->
  currentTheme (theme_events es w) = Nat.iter (clicks_in es) toggled (currentTheme w).
Proof.
  unfold theme_events, clicks_in.
  induction es as [|e es IH]; intros w Hl; [done|].
  destruct (theme_event_step w e Hl) as [Hstep Hl'].
  simpl foldl. rewrite (IH _ Hl'), Hstep.
  destruct e as [env|env].
  - rewrite filter_cons_True by done. simpl length.
    rewrite Nat.iter_succ_r. by rewrite themeToggle_click_currentTheme.
  - rewrite filter_cons_False by done. f_equal.
    unfold Theme.systemTheme_change.
    destruct (String.eqb (currentTheme w) "system"); [|done].
    apply applyTheme_frame.
Qed.

Lemma theme_events_data_theme es : forall w dark,
  theme_listeners w ->
  writes_complete es = true ->
  data_theme w = Some (shown_theme (currentTheme w) dark) ->
  data_theme (theme_events es w)
  = Some (shown_theme (currentTheme (theme_events es w)) (system_dark dark es)).
Proof.
  unfold theme_events, system_dark.
  induction es as [|e es IH]; intros w dark Hl Hok Hshown; [done|].
  destruct (theme_event_step w e Hl) as [Hstep Hl'].
  simpl in Hok. apply andb_true_iff in Hok as [Hoke Hok].
  simpl foldl. apply IH; [done..|]. rewrite Hstep.
  destruct e as [env|env].
  - rewrite themeToggle_click_data_theme, themeToggle_click_currentTheme by done.
    unfold shown_theme.
    by destruct (toggled_explicit (currentTheme w)) as [-> | ->].
  - unfold Theme.systemTheme_change.
    destruct (String.eqb (currentTheme w) "system") eqn:Hsys.
    + rewrite applyTheme_data_theme, (proj1 (applyTheme_frame env "system" w)).
      unfold shown_theme. by rewrite Hsys.
    + rewrite Hshown. unfold shown_theme. by rewrite Hsys.
Qed.

(** X11: the state of the theme after any clicks and changes of the
    operating system's preference that follow [Theme.init]: each click
    toggles it, also one whose write fails, and a change of the operating
    system's preference never changes it. *)
Theorem theme_state_after_events env w es :
  theme_storage_ok env = true ->
  Page.handlers_of click_themeToggle w = [] ->
  Page.handlers_of change_colorScheme w = [] ->
  currentTheme (theme_events es (snd (Theme.init env true w)))
  = Nat.iter (clicks_in es) toggled (initial_theme (localStorage w !! "linkpro_theme")).
Proof.
  intros Hok Hclick Hchange.
  rewrite theme_events_currentTheme by by apply Theme_init_listeners.
  f_equal. by destruct (Theme_init_effects env true w Hok) as (_ & -> & _).
Qed.

(** X12: as long as the write of every click completes, the theme shown
    agrees with the state: an explicit state is shown as it is, and the
    state [system] as what the operating system last reported. *)
Theorem theme_shown_after_events env w es :
  theme_storage_ok env = true ->
  Page.handlers_of click_themeToggle w = [] ->
  Page.handlers_of change_colorScheme w = [] ->
  writes_complete es = true ->
  let w' := theme_events es (snd (Theme.init env true w)) in
  data_theme w'
  = Some (shown_theme (currentTheme w') (system_dark (prefers_dark env) es)).
Proof.
  intros Hok Hclick Hchange Hwrites. cbv zeta.
  apply theme_events_data_theme; [by apply Theme_init_listeners|done|].
  destruct (Theme_init_effects env true w Hok) as (_ & -> & -> & _). done.
Qed.

End ThemeEvents.

(** ** The counter, outside the claim's range *)

(** From the smallest normal number on, and below the overflow threshold,
    the result of rounding is finite. *)
Lemma round_pos_finite q :
  (Double.pow2 (-1022) <= q)%Q ->
  (q * (1 + unit_roundoff) < Double.pow2 1024)%Q ->
  exists r, Double.round_pos q = Double.Finite r /\
            (q * (1 - unit_roundoff) <= r <= q * (1 + unit_roundoff))%Q.
Proof.
  intros Hlow Hhigh.
  destruct (round_pos_value q Hlow) as (r & Hr & ->).
  destruct (Qle_bool (Double.pow2 1024) r) eqn:E.
  - exfalso. apply Qle_bool_iff in E. destruct Hr as [_ Hr].
    revert E Hr Hhigh. generalize (Double.pow2 1024). intros P E Hr Hhigh. lra.
  - exists (Qred r). split; [reflexivity|]. by rewrite Qred_correct.
Qed.

Lemma round_negative_finite q :
  (Double.pow2 (-1022) <= - q)%Q ->
  (- q * (1 + unit_roundoff) < Double.pow2 1024)%Q ->
  exists r, Double.round q = Double.Finite (- r) /\
            (- q * (1 - unit_roundoff) <= r <= - q * (1 + unit_roundoff))%Q.
Proof.
  intros Hlow Hhigh. unfold Double.round.
  assert (H0 : (0 < - q)%Q).
  { eapply Qlt_le_trans; [apply (pow2_pos (-1022))|apply Hlow]. }
  destruct (Qcompare_spec q 0) as [H|H|H]; [lra| |lra].
  destruct (round_pos_finite (- q) Hlow Hhigh) as (r & -> & Hr). by exists r.
Qed.

(** A positive integer that is a binary64 number is below 2^1024. *)
Lemma representable_below n :
  1 <= n -> representable n -> (inject_Z n < Double.pow2 1024)%Q.
Proof.
  intros Hn Hrep. unfold representable, Double.of_Z, Double.round, shown_integer in Hrep.
  assert (Hpos : (0 < inject_Z n)%Q) by (change 0%Q with (inject_Z 0); rewrite <- Zlt_Qlt; lia).
  destruct (Qcompare_spec (inject_Z n) 0) as [H|H|H]; [lra|lra|].
  assert (Hlow : (Double.pow2 (-1022) <= inject_Z n)%Q).
  { apply Qle_trans with 1%Q.
    - change 1%Q with (Double.pow2 0). apply pow2_le. lia.
    - change 1%Q with (inject_Z 1). rewrite <- Zle_Qle. lia. }
  destruct (round_pos_value (inject_Z n) Hlow) as (r & Hr & Hround).
  rewrite Hround in Hrep.
  destruct (Qle_bool (Double.pow2 1024) r) eqn:E; [discriminate|].
  assert (Hq : Qred r = inject_Z n) by congruence.
  assert (Hrn : (r == inject_Z n)%Q) by (rewrite <- Hq; symmetry; apply Qred_correct).
  rewrite <- Hrn. apply Qnot_le_lt. intros Hle. apply Qle_bool_iff in Hle. congruence.
Qed.

Lemma representable_above n :
  n <= -1 -> representable n -> (- inject_Z n < Double.pow2 1024)%Q.
Proof.
  intros Hn Hrep. unfold representable, Double.of_Z, Double.round, shown_integer in Hrep.
  assert (Hneg : (inject_Z n < 0)%Q) by (change 0%Q with (inject_Z 0); rewrite <- Zlt_Qlt; lia).
  destruct (Qcompare_spec (inject_Z n) 0) as [H|H|H]; [lra| |lra].
  assert (Hlow : (Double.pow2 (-1022) <= - inject_Z n)%Q).
  { apply Qle_trans with 1%Q.
    - change 1%Q with (Double.pow2 0). apply pow2_le. lia.
    - rewrite <- inject_Z_opp. change 1%Q with (inject_Z 1). rewrite <- Zle_Qle. lia. }
  destruct (round_pos_value (- inject_Z n) Hlow) as (r & Hr & Hround).
  rewrite Hround in Hrep.
  destruct (Qle_bool (Double.pow2 1024) r) eqn:E; [discriminate|].
  assert (Hq : (- Qred r)%Q = inject_Z n) by (simpl in Hrep; congruence).
  assert (Hrn : (r == - inject_Z n)%Q).
  { apply Qeq_trans with (Qred r); [symmetry; apply Qred_correct|].
    rewrite <- Hq. ring. }
  rewrite <- Hrn. apply Qnot_le_lt. intros Hle. apply Qle_bool_iff in Hle. congruence.
Qed.

Lemma round_finite q :
  (Double.pow2 (-1022) <= q)%Q ->
  (q * (1 + unit_roundoff) < Double.pow2 1024)%Q ->
  exists r, Double.round q = Double.Finite r /\
            (q * (1 - unit_roundoff) <= r <= q * (1 + unit_roundoff))%Q.
Proof.
  intros Hlow Hhigh. unfold Double.round.
  assert (H0 : (0 < q)%Q).
  { eapply Qlt_le_trans; [apply (pow2_pos (-1022))|apply Hlow]. }
  destruct (Qcompare_spec q 0) as [H|H|H]; [lra|lra|]. by apply round_pos_finite.
Qed.

Lemma animateNumber_run_cleared target inc c c' fuel :
  Double.add (Double.Finite c) inc = Double.Finite c' ->
  (inject_Z target <= c')%Q ->
  Utils.animateNumber_run (S fuel) (shown_integer target) inc (Double.Finite c)
  = ([shown_integer target], true).
Proof.
  intros Hadd Hle. simpl. unfold Utils.animateNumber_tick. rewrite Hadd.
  unfold shown_integer. cbn [Double.ge Double.floor].
  apply Qle_bool_iff in Hle. rewrite Hle. by rewrite Qfloor_Z.
Qed.

(** X13: a counter whose target is zero or negative, with a duration of at
    least one timer period (the script's only call uses 2000): the first
    callback writes the target and clears the timer. The target and the
    duration are integers that are binary64 numbers, as every integer a
    script can hold is. *)
Theorem animateNumber_nonpositive_target (target duration : Z) (fuel : nat) :
  target <= 0 -> representable target ->
  16 <= duration -> representable duration ->
  Utils.animateNumber (S fuel) (Double.of_Z target) (Double.of_Z duration)
  = ([shown_integer target], true).
Proof.
  intros Ht Hrt Hd Hrd. unfold Utils.animateNumber.
  assert (Hrt' : Double.round (inject_Z target) = Double.Finite (inject_Z target))
    by exact Hrt.
  assert (HDlt : (inject_Z duration < Double.pow2 1024)%Q)
    by (apply representable_below; [lia|done]).
  assert (HTlt : target <= -1 -> (- inject_Z target < Double.pow2 1024)%Q)
    by (intros; by apply representable_above).
  rewrite Hrt, Hrd. rewrite !of_Z_exact by lia. unfold shown_integer.
  pose proof unit_roundoff_number as Hu.
  change (inject_Z 16) with 16%Q.
  rewrite div_finite by discriminate.
  assert (Hd1 : (16 <= inject_Z duration)%Q).
  { change 16%Q with (inject_Z 16). rewrite <- Zle_Qle. lia. }
  pose proof (pow2_pos (-1022)) as Hp0.
  assert (Hp1 : (Double.pow2 (-1022) <= 1)%Q).
  { change 1%Q with (Double.pow2 0). apply pow2_le. lia. }
  assert (F1 : (Double.pow2 (-1022) * Double.pow2 1020 == 1 # 4)%Q).
  { rewrite <- pow2_plus. reflexivity. }
  assert (F2 : (Double.pow2 1024 == 16 * Double.pow2 1020)%Q).
  { change 1024 with (4 + 1020). rewrite pow2_plus. reflexivity. }
  pose proof (round_finite (inject_Z duration / 16)) as Hround_d.
  pose proof (fun q => round_negative_finite q) as Hround_neg.
  revert HDlt HTlt Hp0 Hp1 F1 F2 Hround_d Hround_neg.
  generalize (Double.pow2 1024) (Double.pow2 1020) (Double.pow2 (-1022)).
  intros P p1020 p1 HDlt HTlt Hp0 Hp1 F1 F2 Hround_d Hround_neg.
  set (D := (inject_Z duration / 16)%Q) in *.
  assert (HD : (D * 16 == inject_Z duration)%Q) by (subst D; field).
  assert (HDlow : (p1 <= D)%Q) by lra.
  assert (HDhigh : (D * (1 + unit_roundoff) < P)%Q) by (rewrite Hu; lra).
  destruct (Hround_d HDlow HDhigh) as (d & Hround & Hdl & Hdh).
  rewrite Hround. rewrite Hu in Hdl, Hdh.
  destruct (decide (target = 0 \/ duration = 16)) as [Hexact|Hbounds].
  - (* every operation is exact *)
    assert (Hd0 : ~ (d == 0)%Q) by lra.
    rewrite div_finite by exact Hd0.
    assert (Hinc : Double.round (inject_Z target / d) = Double.Finite (inject_Z target)).
    { destruct Hexact as [-> | ->].
      - apply round_Z; [|lia]. change (inject_Z 0) with 0%Q. field. exact Hd0.
      - assert (Hone : Double.round D = Double.Finite (inject_Z 1))
          by (subst D; apply round_Z; [reflexivity|lia]).
        assert (d = inject_Z 1) as -> by congruence.
        etrans; [|exact Hrt']. apply round_comp. change (inject_Z 1) with 1%Q. field. }
    rewrite Hinc. apply (animateNumber_run_cleared target _ _ (inject_Z target)).
    + cbn [Double.add]. etrans; [|exact Hrt']. apply round_comp.
      change (inject_Z 0) with 0%Q. ring.
    + apply Qle_refl.
  - (* both roundings are within the unit roundoff *)
    assert (Ht0 : target <= -1) by lia. assert (Hd17 : 17 <= duration) by lia.
    assert (Ht1 : (1 <= - inject_Z target)%Q).
    { rewrite <- inject_Z_opp. change 1%Q with (inject_Z 1). rewrite <- Zle_Qle. lia. }
    specialize (HTlt Ht0).
    assert (Hd2 : (17 <= inject_Z duration)%Q).
    { change 17%Q with (inject_Z 17). rewrite <- Zle_Qle. lia. }
    assert (Hd' : ((1 + (1 # 9007199254740992)) * (1 + (1 # 9007199254740992)) <= d)%Q) by lra.
    assert (Hdhigh : (d <= 2 * p1020)%Q) by lra.
    rewrite div_finite by lra.
    set (X := (- inject_Z target / d)%Q).
    assert (HX : (X * d == - inject_Z target)%Q) by (subst X; field; lra).
    assert (HX0 : (0 < X)%Q) by (subst X; apply Qlt_shift_div_l; lra).
    assert (HXq : (- (inject_Z target / d) == X)%Q) by (subst X; field; lra).
    assert (Hlast : (X * ((1 + (1 # 9007199254740992)) * (1 + (1 # 9007199254740992)))
                     <= X * d)%Q) by (apply Qmult_le_l; lra).
    rewrite HX in Hlast.
    assert (HXlow : (2 * p1 <= X)%Q).
    { apply (Qmult_le_r _ _ d); [lra|]. rewrite HX.
      assert (A1 : (p1 * d <= p1 * (2 * p1020))%Q) by (apply Qmult_le_l; lra).
      assert (A2 : (p1 * (2 * p1020) == 2 * (p1 * p1020))%Q) by ring.
      rewrite A2, F1 in A1. lra. }
    destruct (Hround_neg (inject_Z target / d)%Q) as (r1 & -> & Hr1l & Hr1h).
    { rewrite HXq. lra. }
    { rewrite HXq, Hu. lra. }
    rewrite HXq, Hu in Hr1l, Hr1h.
    assert (Hsum : (- (inject_Z 0 + - r1) == r1)%Q) by (change (inject_Z 0) with 0%Q; ring).
    assert (Hstep : (r1 * (1 + (1 # 9007199254740992))
                     <= X * (1 + (1 # 9007199254740992)) * (1 + (1 # 9007199254740992)))%Q).
    { apply Qmult_le_compat_r; lra. }
    destruct (Hround_neg (inject_Z 0 + - r1)%Q) as (r2 & Hr2 & _ & Hr2h).
    { rewrite Hsum. lra. }
    { rewrite Hsum, Hu. lra. }
    rewrite Hsum, Hu in Hr2h.
    apply (animateNumber_run_cleared target _ _ (- r2)); [exact Hr2|].
    lra.
Qed.

(** X14: for a positive target the numbers written never decrease and are
    never negative: the counter does not run backwards. *)
Theorem animateNumber_never_decreases (target duration : Z) (fuel : nat) :
  1 <= target ->
  representable target ->
  1 <= duration <= 2 ^ 30 ->
  (Z.to_nat (ticks_of duration + 1) <= fuel)%nat ->
  forall (i j : nat) (a b : Double.double),
    (i <= j)%nat ->
    fst (Utils.animateNumber fuel (Double.of_Z target) (Double.of_Z duration)) !! i = Some a ->
    fst (Utils.animateNumber fuel (Double.of_Z target) (Double.of_Z duration)) !! j = Some b ->
    Double.ge a (Double.of_Z 0) = true /\ Double.ge b a = true.
Proof.
  intros Ht Hexact Hd Hfuel i j a b Hij.
  destruct (animateNumber_positive target duration fuel Ht Hexact Hd Hfuel)
    as (zs & -> & _ & _ & Hall & Hsorted & _).
  cbn [fst]. rewrite !list_lookup_fmap.
  destruct (zs !! i) as [x|] eqn:Hx; [|discriminate].
  destruct (zs !! j) as [y|] eqn:Hy; [|discriminate].
  simpl. intros [= <-] [= <-].
  rewrite (of_Z_exact 0) by lia. unfold shown_integer. cbn [Double.ge].
  split; apply Qle_bool_iff; rewrite <- Zle_Qle.
  - apply (Forall_lookup_1 _ _ _ _ Hall) in Hx. lia.
  - by apply (Hsorted i j).
Qed.

(** ** Debounce *)

Lemma debounce_run_Called {A : Type} (timeout : option A) (a : A) es :
  Debounce.run timeout (Debounce.Called a :: es) = Debounce.run (Some a) es.
Proof. simpl. by destruct (Debounce.run (Some a) es). Qed.

Lemma debounce_run_TimerRan {A : Type} (timeout : option A) es :
  Debounce.run timeout (Debounce.TimerRan :: es)
  = (match timeout with
     | Some a => a :: fst (Debounce.run None es)
     | None => fst (Debounce.run None es)
     end, snd (Debounce.run None es)).
Proof. simpl. by destruct (Debounce.run None es). Qed.

(** X15: a burst of calls of a debounced function, followed by the run of
    the timer, calls [func] once, with the arguments of the last call of
    the burst; whatever timer was armed before the burst is dropped; and a
    timer event with no timer armed calls nothing. *)
Theorem debounce_burst {A : Type} (timeout : option A) (burst : list A) (args : A)
        (rest : list (Debounce.Event A)) :
  Debounce.run timeout
    ((Debounce.Called <$> burst) ++ [Debounce.Called args; Debounce.TimerRan] ++ rest)
  = (args :: fst (Debounce.run None rest), snd (Debounce.run None rest)) /\
  Debounce.run None (Debounce.TimerRan :: rest) = Debounce.run None rest.
Proof.
  split.
  - revert timeout. induction burst as [|a burst IH]; intros timeout.
    + change (Debounce.run timeout
                (Debounce.Called args :: Debounce.TimerRan :: rest) = 
              (args :: fst (Debounce.run None rest), snd (Debounce.run None rest))).
      by rewrite debounce_run_Called, debounce_run_TimerRan.
    + rewrite fmap_cons, <- app_comm_cons, debounce_run_Called. apply IH.
  - rewrite debounce_run_TimerRan. by destruct (Debounce.run None rest).
Qed.

(** [func] is called at most once per call of the debounced function, and
    only with arguments that some call passed. *)
Lemma debounce_run_calls {A : Type} (es : list (Debounce.Event A)) : forall timeout,
  let pending := match timeout with Some a => [a] | None => [] end in
  fst (Debounce.run timeout es) ++
    match snd (Debounce.run timeout es) with Some a => [a] | None => [] end
  `sublist_of`
  pending ++ omap (fun e => match e with
                            | Debounce.Called a => Some a
                            | Debounce.TimerRan => None
                            end) es.
Proof.
  induction es as [|e es IH]; intros timeout; cbv zeta.
  - simpl. by rewrite app_nil_r.
  - destruct e as [a|]; simpl.
    + specialize (IH (Some a)). cbv zeta in IH.
      destruct (Debounce.run (Some a) es) as [outs final]. simpl in *.
      destruct timeout; [by apply sublist_cons|done].
    + specialize (IH None). cbv zeta in IH.
      destruct (Debounce.run None es) as [outs final]. simpl in *.
      destruct timeout; [by apply sublist_skip|done].
Qed.

(** X16: whatever the calls and timer runs, [func] is called at most once
    per call of the debounced function, in the order of the calls, and only
    with arguments that a call passed. *)
Theorem debounce_never_invents_calls {A : Type} (es : list (Debounce.Event A)) :
  fst (Debounce.run None es)
  `sublist_of`
  omap (fun e => match e with
                 | Debounce.Called a => Some a
                 | Debounce.TimerRan => None
                 end) es.
Proof.
  pose proof (debounce_run_calls es None) as H. cbv zeta in H. simpl in H.
  etrans; [|exact H]. apply sublist_inserts_r. done.
Qed.

(** ** The scroll listener *)

Lemma scroll_step_frames has_header s e :
  Animations.frames s = (if Animations.ticking s then 1 else 0)%nat ->
  Animations.frames (Animations.scroll_step has_header s e)
  = (if Animations.ticking (Animations.scroll_step has_header s e) then 1 else 0)%nat.
Proof.
  intros Hinv. destruct s as [t ticking frames bg]. simpl in Hinv.
  destruct e as [| |scrollY]; simpl.
  - done.
  - destruct t; simpl; [|done].
    unfold Animations.onScroll. simpl.
    destruct ticking; simpl; [done|]. by rewrite Hinv.
  - destruct frames as [|n]; simpl; [done|].
    destruct ticking; lia.
Qed.

(** X17: the flag [ticking] does what it is for: after any scroll events,
    timer runs and animation frames, at most one frame callback is
    requested and not yet run, and one is exactly when [ticking] is set. *)
Theorem scroll_one_frame_pending has_header (es : list Animations.ScrollEvent) :
  Animations.frames (scroll_events has_header es)
  = (if Animations.ticking (scroll_events has_header es) then 1 else 0)%nat.
Proof.
  unfold scroll_events.
  induction es as [|e es IH] using rev_ind; [done|].
  rewrite foldl_snoc. by apply scroll_step_frames.
Qed.

(** X18: a burst of scroll events, then the timer and one animation frame,
    from a state with nothing pending: the header's color is written once,
    for the scroll offset at the time of the frame, and nothing is left
    pending. *)
Theorem scroll_burst_updates_header has_header (s : Animations.Scroll) (n : nat)
        (scrollY : Q) :
  Animations.ticking s = false ->
  Animations.frames s = 0%nat ->
  foldl (Animations.scroll_step has_header) s
    (replicate (S n) Animations.Scrolled
       ++ [Animations.TimerRan; Animations.AnimationFrame scrollY])
  = {| Animations.timeout := None; Animations.ticking := false;
       Animations.frames := 0;
       Animations.header_background :=
         if has_header then Some (Animations.header_alpha scrollY)
         else Animations.header_background s |}.
Proof.
  intros Hticking Hframes. rewrite foldl_app.
  assert (Hburst : forall m s0,
             foldl (Animations.scroll_step has_header) s0 (replicate (S m) Animations.Scrolled)
             = {| Animations.timeout := Some tt; Animations.ticking := Animations.ticking s0;
                  Animations.frames := Animations.frames s0;
                  Animations.header_background := Animations.header_background s0 |}).
  { induction m as [|m IH]; intros s0; [done|].
    change (foldl (Animations.scroll_step has_header)
              (Animations.scroll_step has_header s0 Animations.Scrolled)
              (replicate (S m) Animations.Scrolled)
            = {| Animations.timeout := Some tt; Animations.ticking := Animations.ticking s0;
                 Animations.frames := Animations.frames s0;
                 Animations.header_background := Animations.header_background s0 |}).
    by rewrite IH. }
  rewrite Hburst. simpl. unfold Animations.onScroll. simpl.
  rewrite Hticking. simpl. by rewrite Hframes.
Qed.

(** X19: the opacity of the header: 0.8 at the top of the page, rising
    with the scroll offset, and 1 from an offset of 100 on. *)
Theorem header_alpha_range (scrollY : Q) :
  (0 <= scrollY)%Q ->
  ((8 # 10) <= Animations.header_alpha scrollY <= 1)%Q /\
  (Animations.header_alpha 0 == 8 # 10)%Q /\
  ((100 <= scrollY)%Q -> (Animations.header_alpha scrollY == 1)%Q) /\
  (forall y : Q, (scrollY <= y)%Q ->
     (Animations.header_alpha scrollY <= Animations.header_alpha y)%Q).
Proof.
  intros Hpos. unfold Animations.header_alpha.
  assert (Hdiv : forall y : Q, (0 <= y)%Q -> (0 <= y / 100)%Q).
  { intros y Hy. apply Qle_shift_div_l; [done|]. by rewrite Qmult_0_l. }
  assert (Hmin : forall y : Q, (0 <= y)%Q -> (0 <= Qmin (y / 100) 1 <= 1)%Q).
  { intros y Hy. split; [apply Q.min_glb; [by apply Hdiv|done]|apply Q.le_min_r]. }
  split; [|split; [|split]].
  - destruct (Hmin scrollY Hpos) as [H0 H1].
    set (o := Qmin (scrollY / 100) 1) in *. clearbody o. split.
    + rewrite <- (Qplus_0_r (8 # 10)) at 1. apply Qplus_le_r.
      apply Qmult_le_0_compat; done.
    + apply Qle_trans with ((8 # 10) + 1 * (2 # 10))%Q; [|done].
      apply Qplus_le_r, Qmult_le_compat_r; done.
  - done.
  - intros Hfar.
    assert (Hone : (Qmin (scrollY / 100) 1 == 1)%Q).
    { apply Q.min_r. apply Qle_shift_div_l; [done|]. by rewrite Qmult_1_l. }
    by rewrite Hone.
  - intros y Hy. apply Qplus_le_r, Qmult_le_compat_r; [|done].
    apply Q.min_le_compat_r. apply Qmult_le_compat_r; [done|]. done.
Qed.

(** ** The observers *)

Lemma intersecting_cons entry entries :
  intersecting (entry :: entries)
  = (if snd entry then {[fst entry]} else ∅) ∪ intersecting entries.
Proof.
  unfold intersecting. destruct entry as [el []].
  - rewrite filter_cons_True by done. done.
  - rewrite filter_cons_False by done. simpl. set_solver.
Qed.

Lemma setupIntersectionObserver_sets els : forall r,
  let r' := foldl (fun r el =>
                     {| Animations.observed := {[el]} ∪ Animations.observed r;
                        Animations.animate_ready := {[el]} ∪ Animations.animate_ready r;
                        Animations.animate_in := Animations.animate_in r |}) r els in
  Animations.observed r' = list_to_set els ∪ Animations.observed r /\
  Animations.animate_ready r' = list_to_set els ∪ Animations.animate_ready r /\
  Animations.animate_in r' = Animations.animate_in r.
Proof.
  induction els as [|el els IH]; intros r; cbv zeta; simpl.
  - repeat split; set_solver.
  - destruct (IH {| Animations.observed := {[el]} ∪ Animations.observed r;
                    Animations.animate_ready := {[el]} ∪ Animations.animate_ready r;
                    Animations.animate_in := Animations.animate_in r |})
      as (-> & -> & ->). simpl. repeat split; set_solver.
Qed.

Lemma reveal_callback_sets entries : forall r,
  Animations.observed (Animations.reveal_callback entries r)
  = Animations.observed r ∖ intersecting entries /\
  Animations.animate_ready (Animations.reveal_callback entries r)
  = Animations.animate_ready r /\
  Animations.animate_in (Animations.reveal_callback entries r)
  = Animations.animate_in r ∪ intersecting entries.
Proof.
  unfold Animations.reveal_callback.
  induction entries as [|entry entries IH]; intros r.
  - simpl. unfold intersecting. simpl. repeat split; set_solver.
  - simpl foldl. destruct (IH (Animations.reveal_entry r entry)) as (-> & -> & ->).
    rewrite intersecting_cons. unfold Animations.reveal_entry.
    destruct (snd entry); simpl; repeat split; set_solver.
Qed.

(** X20: the fade-in observer, after the setup and any callbacks: every
    element of the page's cards and groups carries [animate-ready]; an
    element carries [animate-in] exactly when the markup gave it or the
    element has been reported intersecting; and the elements still
    observed are those never reported intersecting. *)
Theorem reveal_after_callbacks (els : list nat) (classes_in : gset nat)
        (entries : list (nat * bool)) :
  let r := Animations.reveal_callback entries
             (Animations.setupIntersectionObserver els classes_in) in
  Animations.animate_ready r = list_to_set els /\
  Animations.animate_in r = classes_in ∪ intersecting entries /\
  Animations.observed r = list_to_set els ∖ intersecting entries.
Proof.
  cbv zeta. destruct (reveal_callback_sets entries
                        (Animations.setupIntersectionObserver els classes_in))
    as (-> & -> & ->).
  unfold Animations.setupIntersectionObserver.
  destruct (setupIntersectionObserver_sets els
              {| Animations.observed := ∅; Animations.animate_ready := ∅;
                 Animations.animate_in := classes_in |}) as (-> & -> & ->).
  simpl. repeat split; set_solver.
Qed.

Lemma lazy_loaded_idemp img : lazy_loaded (lazy_loaded img) = lazy_loaded img.
Proof.
  unfold lazy_loaded. destruct (Performance.data_src img) as [url|] eqn:E; simpl.
  - destruct (String.eqb url "") eqn:Eu; simpl; [by rewrite E, Eu|done].
  - by rewrite E.
Qed.

Lemma image_entry_images st entry :
  Performance.images (Performance.image_entry st entry)
  = if snd entry
    then match Performance.images st !! fst entry with
         | Some img => <[fst entry := lazy_loaded img]> (Performance.images st)
         | None => Performance.images st
         end
    else Performance.images st.
Proof.
  unfold Performance.image_entry, lazy_loaded.
  destruct (snd entry); [|done].
  destruct (Performance.images st !! fst entry) as [img|] eqn:E; [|done].
  destruct (Performance.data_src img) as [url|]; simpl.
  - destruct (String.eqb url ""); simpl; [|done]. by rewrite insert_id.
  - by rewrite insert_id.
Qed.

(** X21: lazy loading, image by image: an image reported intersecting
    whose [data-src] is not empty gets it as its [src] and loses the
    attribute; every other image is left as it is; and further reports
    change nothing, so that no image is loaded twice. *)
Theorem image_callback_outcome (entries : list (nat * bool)) : forall st (i : nat),
  Performance.images (Performance.image_callback entries st) !! i
  = (if decide (i ∈ intersecting entries) then lazy_loaded else id)
      <$> Performance.images st !! i.
Proof.
  unfold Performance.image_callback.
  induction entries as [|entry entries IH]; intros st i.
  - simpl. rewrite decide_False by (unfold intersecting; set_solver).
    by destruct (Performance.images st !! i).
  - simpl foldl. rewrite IH, image_entry_images, intersecting_cons.
    destruct entry as [el b]. simpl. destruct b.
    + destruct (decide (i = el)) as [->|Hne].
      * rewrite (decide_True (P := el ∈ _ ∪ _)) by set_solver.
        destruct (Performance.images st !! el) as [img|] eqn:E.
        -- rewrite lookup_insert_eq. simpl.
           case_decide; simpl; by rewrite ?lazy_loaded_idemp.
        -- rewrite E. done.
      * assert (Hlook : (match Performance.images st !! el with
                         | Some img => <[el := lazy_loaded img]> (Performance.images st)
                         | None => Performance.images st
                         end) !! i = Performance.images st !! i).
        { destruct (Performance.images st !! el); [by rewrite lookup_insert_ne|done]. }
        rewrite Hlook.
        destruct (decide (i ∈ intersecting entries)) as [Hin|Hout].
        -- by rewrite decide_True by set_solver.
        -- by rewrite decide_False by set_solver.
    + destruct (decide (i ∈ intersecting entries)) as [Hin|Hout].
      * by rewrite decide_True by set_solver.
      * by rewrite decide_False by set_solver.
Qed.

Lemma link_mouseenter_inv href_of p card :
  NoDup (Performance.head_links p) ->
  (forall h, h ∈ Performance.head_links p <-> h ∈ Performance.prefetched p) ->
  NoDup (Performance.head_links (Performance.link_mouseenter href_of p card)) /\
  (forall h, h ∈ Performance.head_links (Performance.link_mouseenter href_of p card)
             <-> h ∈ Performance.prefetched (Performance.link_mouseenter href_of p card)).
Proof.
  intros Hnd Hsame. unfold Performance.link_mouseenter.
  destruct (decide (card ∈ Performance.armed p)); [|done].
  destruct (decide (href_of card ∈ Performance.prefetched p)) as [Hin|Hout]; simpl; [done|].
  split.
  - apply list.NoDup_app. split; [done|]. split; [|apply NoDup_singleton].
    intros h Hh Hh'. apply list_elem_of_singleton in Hh'. subst h.
    by apply Hout, Hsame.
  - intros h. rewrite elem_of_app, list_elem_of_singleton, Hsame. set_solver.
Qed.

Lemma mouseenters_inv href_of entered p :
  NoDup (Performance.head_links p) ->
  (forall h, h ∈ Performance.head_links p <-> h ∈ Performance.prefetched p) ->
  NoDup (Performance.head_links (Performance.mouseenters href_of entered p)) /\
  (forall h, h ∈ Performance.head_links (Performance.mouseenters href_of entered p)
             <-> h ∈ Performance.prefetched (Performance.mouseenters href_of entered p)).
Proof.
  intros Hnd Hsame. unfold Performance.mouseenters.
  induction entered as [|card entered IH] using rev_ind; [done|].
  rewrite foldl_snoc. destruct IH as [Hnd' Hsame']. by apply link_mouseenter_inv.
Qed.

(** X22: prefetching on hover never asks twice for one URL: whatever cards
    the pointer enters, and however often, the [prefetch] links appended to
    the head have pairwise different hrefs, and they are the hrefs of the
    set [prefetched]. *)
Theorem prefetch_no_duplicates (href_of : nat -> string) (cards entered : list nat) :
  let p := Performance.mouseenters href_of entered
             (Performance.setupLinkPrefetching cards) in
  NoDup (Performance.head_links p) /\
  (forall h, h ∈ Performance.head_links p <-> h ∈ Performance.prefetched p).
Proof.
  cbv zeta. apply mouseenters_inv; simpl; [apply NoDup_nil_2|].
  intros h. set_solver.
Qed.

Lemma link_mouseenter_armed href_of p card :
  Performance.armed (Performance.link_mouseenter href_of p card)
  = Performance.armed p ∖ {[card]}.
Proof.
  unfold Performance.link_mouseenter.
  destruct (decide (card ∈ Performance.armed p)); [|set_solver].
  by destruct (decide (href_of card ∈ Performance.prefetched p)).
Qed.

Lemma mouseenters_sets href_of entered : forall p,
  (forall h, h ∈ Performance.head_links p <-> h ∈ Performance.prefetched p) ->
  let p' := Performance.mouseenters href_of entered p in
  Performance.armed p' = Performance.armed p ∖ list_to_set entered /\
  (forall h, h ∈ Performance.prefetched p' <->
             h ∈ Performance.prefetched p \/
             exists card, card ∈ entered /\ card ∈ Performance.armed p /\ href_of card = h).
Proof.
  unfold Performance.mouseenters.
  induction entered as [|card entered IH]; intros p Hsame; cbv zeta.
  - simpl. split; [set_solver|]. intros h. split; [by left|].
    intros [H|(c & Hc & _)]; [done|]. by apply elem_of_nil in Hc.
  - simpl foldl.
    assert (Hsame' : forall h,
               h ∈ Performance.head_links (Performance.link_mouseenter href_of p card)
               <-> h ∈ Performance.prefetched (Performance.link_mouseenter href_of p card)).
    { unfold Performance.link_mouseenter.
      destruct (decide (card ∈ Performance.armed p)); [|done].
      destruct (decide (href_of card ∈ Performance.prefetched p)); simpl; [done|].
      intros h. rewrite elem_of_app, list_elem_of_singleton, Hsame. set_solver. }
    destruct (IH _ Hsame') as [Harmed Hpre]. cbv zeta in Harmed, Hpre.
    rewrite Harmed, link_mouseenter_armed. split; [set_solver|].
    intros h. rewrite Hpre. clear Harmed Hpre IH.
    rewrite link_mouseenter_armed.
    assert (Hnow : forall h,
               h ∈ Performance.prefetched (Performance.link_mouseenter href_of p card)
               <-> h ∈ Performance.prefetched p \/
                   (card ∈ Performance.armed p /\ href_of card = h)).
    { intros h'. unfold Performance.link_mouseenter.
      destruct (decide (card ∈ Performance.armed p)) as [Ha|Ha]; [|tauto].
      destruct (decide (href_of card ∈ Performance.prefetched p)) as [Hp|Hp]; simpl.
      - split; [by left|]. intros [H|[_ <-]]; done.
      - rewrite elem_of_union, elem_of_singleton. split.
        + intros [->|H]; [by right|by left].
        + intros [H|[_ <-]]; [by right|by left]. }
    rewrite Hnow. split.
    + intros [[H|[Ha <-]]|(c & Hc & Hca & <-)].
      * by left.
      * right. exists card. split; [left|done].
      * right. exists c. split; [by right|]. split; [set_solver|done].
    + intros [H|(c & Hc & Hca & <-)]; [by left; left|].
      apply elem_of_cons in Hc as [->|Hc]; [by left; right|].
      destruct (decide (c = card)) as [->|Hne]; [by left; right|].
      right. exists c. split; [done|]. split; [set_solver|done].
Qed.

(** X23: what gets prefetched: a URL has a [prefetch] link exactly when
    the pointer has entered a card of the page with this href; and each
    card's listener runs once, so that the cards with a listener left are
    those never entered. *)
Theorem prefetch_after_hovers (href_of : nat -> string) (cards entered : list nat) :
  let p := Performance.mouseenters href_of entered
             (Performance.setupLinkPrefetching cards) in
  Performance.armed p = list_to_set cards ∖ list_to_set entered /\
  (forall h, h ∈ Performance.head_links p <->
             exists card, card ∈ entered /\ card ∈ cards /\ href_of card = h).
Proof.
  cbv zeta.
  assert (Hsame : forall h,
             h ∈ Performance.head_links (Performance.setupLinkPrefetching cards)
             <-> h ∈ Performance.prefetched (Performance.setupLinkPrefetching cards)).
  { intros h. simpl. set_solver. }
  destruct (mouseenters_sets href_of entered _ Hsame) as [Harmed Hpre].
  cbv zeta in Harmed, Hpre. split; [exact Harmed|].
  intros h.
  destruct (mouseenters_inv href_of entered (Performance.setupLinkPrefetching cards)
              (NoDup_nil_2 : NoDup (Performance.head_links
                                      (Performance.setupLinkPrefetching cards))) Hsame)
    as [_ Hlinks].
  rewrite Hlinks, Hpre. simpl. split.
  - intros [H|(c & Hc & Hca & <-)]; [set_solver|].
    exists c. split; [done|]. split; [|done]. by apply elem_of_list_to_set in Hca.
  - intros (c & Hc & Hca & <-). right. exists c. split; [done|].
    split; [|done]. by apply elem_of_list_to_set.
Qed.

(** ** The lazy images under observation *)

Lemma image_entry_observed st entry :
  (forall i, i ∈ Performance.observed st <->
             exists img, Performance.images st !! i = Some img /\
                         is_Some (Performance.data_src img)) ->
  forall i, i ∈ Performance.observed (Performance.image_entry st entry) <->
            exists img, Performance.images (Performance.image_entry st entry) !! i = Some img /\
                        is_Some (Performance.data_src img).
Proof.
  intros Hinv i. unfold Performance.image_entry.
  destruct (snd entry); [|apply Hinv].
  destruct (Performance.images st !! fst entry) as [img0|] eqn:E; [|apply Hinv].
  destruct (Performance.data_src img0) as [url|] eqn:Eurl; [|apply Hinv].
  destruct (String.eqb url ""); [apply Hinv|]. simpl.
  rewrite elem_of_difference, elem_of_singleton, Hinv.
  destruct (decide (i = fst entry)) as [->|Hne].
  - rewrite lookup_insert_eq. split; [by intros [_ ?]|].
    intros (img & Himg & Hsome). injection Himg as <-. simpl in Hsome.
    by destruct Hsome.
  - rewrite lookup_insert_ne by done. split; [by intros [? _]|done].
Qed.

(** X24: the lazy-loading observer watches exactly the images that still
    have a [data-src] attribute: this holds after the setup and after every
    callback, so that a loaded image is never watched and an image with an
    empty [data-src] is watched for ever. *)
Theorem lazy_images_observed (imgs : gmap nat Performance.Image)
        (entries : list (nat * bool)) (i : nat) :
  let st := Performance.image_callback entries
              (Performance.setupImageLazyLoading true imgs) in
  i ∈ Performance.observed st <->
  exists img, Performance.images st !! i = Some img /\
              is_Some (Performance.data_src img).
Proof.
  cbv zeta. revert i. unfold Performance.image_callback.
  induction entries as [|entry entries IH] using rev_ind.
  - intros i. simpl. rewrite elem_of_dom. split.
    + intros [img Himg]. apply map_lookup_filter_Some in Himg as [Himg Hsome].
      by exists img.
    + intros (img & Himg & Hsome). exists img. by apply map_lookup_filter_Some.
  - rewrite foldl_snoc. by apply image_entry_observed.
Qed.

(** ** The counters of the page *)

Lemma number_callback_sets target_of entries : forall c,
  let c' := Animations.number_callback target_of entries c in
  Animations.started c'
  = Animations.started c ++
    omap (fun entry : nat * bool =>
            if snd entry then (fun target => (fst entry, target)) <$> target_of (fst entry)
            else None) entries /\
  Animations.counting c'
  = Animations.counting c ∖
      filter (fun el => is_Some (target_of el)) (intersecting entries).
Proof.
  unfold Animations.number_callback.
  induction entries as [|entry entries IH]; intros c; cbv zeta.
  - simpl. rewrite app_nil_r. split; [done|]. unfold intersecting. simpl. set_solver.
  - simpl foldl. destruct (IH (Animations.number_entry target_of c entry)) as [-> ->].
    rewrite intersecting_cons. unfold Animations.number_entry.
    destruct entry as [el b]. simpl. destruct b; simpl.
    + destruct (target_of el) as [target|] eqn:E; simpl.
      * rewrite <- app_assoc. split; [done|].
        apply set_eq. intros x. rewrite !elem_of_difference, !elem_of_filter.
        rewrite elem_of_union, elem_of_singleton. split.
        -- intros [[Hx Hne] Hno]. split; [done|]. intros [Hs [->|Hin]]; [done|].
           by apply Hno.
        -- intros [Hx Hno]. split; [split; [done|]|].
           ++ intros ->. apply Hno. split; [by rewrite E|by left].
           ++ intros [Hs Hin]. apply Hno. split; [done|by right].
      * split; [done|].
        apply set_eq. intros x. rewrite !elem_of_difference, !elem_of_filter.
        rewrite elem_of_union, elem_of_singleton. split.
        -- intros [Hx Hno]. split; [done|]. intros [Hs [->|Hin]].
           ++ rewrite E in Hs. by destruct Hs.
           ++ by apply Hno.
        -- intros [Hx Hno]. split; [done|]. intros [Hs Hin]. apply Hno.
           split; [done|by right].
    + split; [done|]. f_equal. f_equal. set_solver.
Qed.

(** X25: the counters of the page: an animation is started for each
    report of an intersecting element whose [data-target] parses, in the
    order of the reports and with the parsed number as its target; such an
    element is no longer observed; an element whose [data-target] does not
    parse never starts one and stays observed. *)
Theorem counters_after_callbacks (target_of : nat -> option Z) (els : list nat)
        (entries : list (nat * bool)) :
  let c := Animations.number_callback target_of entries
             (Animations.setupNumberAnimations els) in
  Animations.started c
  = omap (fun entry : nat * bool =>
            if snd entry then (fun target => (fst entry, target)) <$> target_of (fst entry)
            else None) entries /\
  Animations.counting c
  = list_to_set els ∖ filter (fun el => is_Some (target_of el)) (intersecting entries) /\
  forall el, el ∈ els -> target_of el = None ->
             el ∈ Animations.counting c /\ el ∉ (fst <$> Animations.started c).
Proof.
  cbv zeta.
  destruct (number_callback_sets target_of entries (Animations.setupNumberAnimations els))
    as [Hstarted Hcounting]. cbv zeta in Hstarted, Hcounting.
  rewrite Hstarted, Hcounting. simpl. split; [done|]. split; [done|].
  intros el Hel Hnan. split.
  - apply elem_of_difference. split; [by apply elem_of_list_to_set|].
    rewrite elem_of_filter. intros [Hs _]. rewrite Hnan in Hs. by destruct Hs.
  - intros Hin. apply list_elem_of_fmap in Hin as ([el' target] & -> & Hin).
    apply list_elem_of_omap in Hin as ([el'' b] & _ & Hentry). simpl in *.
    destruct b; [|done]. destruct (target_of el'') as [t|] eqn:E; [|done].
    simpl in Hentry. injection Hentry as <- <-. congruence.
Qed.

(** ** Ids *)

Lemma pretty_N_char_no_underscore x : Ascii.eqb (pretty_N_char x) underscore = false.
Proof.
  unfold pretty_N_char. repeat case_match; reflexivity.
Qed.

Lemma pretty_N_go_no_underscore x : forall s,
  no_underscore s = true -> no_underscore (pretty_N_go x s) = true.
Proof.
  induction (N.lt_wf_0 x) as [x _ IH]; intros s Hs.
  destruct (decide (x = 0%N)) as [->|Hne]; [by rewrite pretty_N_go_0|].
  rewrite pretty_N_go_step by lia. apply IH.
  - apply N.div_lt; lia.
  - simpl. by rewrite pretty_N_char_no_underscore.
Qed.

Lemma pretty_Z_no_underscore (z : Z) : no_underscore (pretty z) = true.
Proof.
  assert (HN : forall n : N, no_underscore (pretty n) = true).
  { intros n. unfold pretty, pretty_N. case_decide; [done|].
    by apply pretty_N_go_no_underscore. }
  assert (Hdash : forall s, no_underscore s = true -> no_underscore ("-" +:+ s) = true).
  { intros s Hs. exact Hs. }
  destruct z as [|p|p]; [done|apply HN|].
  apply (Hdash (pretty (N.pos p))), HN.
Qed.

Lemma underscore_split s1 : forall s2 r1 r2,
  no_underscore s1 = true ->
  no_underscore s2 = true ->
  s1 +:+ "_" +:+ r1 = s2 +:+ "_" +:+ r2 ->
  s1 = s2 /\ r1 = r2.
Proof.
  induction s1 as [|c s1 IH]; intros [|c' s2] r1 r2 H1 H2 Heq; simpl in *.
  - by injection Heq.
  - injection Heq as <- _. by rewrite Ascii.eqb_refl in H2.
  - injection Heq as -> _. by rewrite Ascii.eqb_refl in H1.
  - injection Heq as <- Heq.
    apply andb_true_iff in H1 as [_ H1], H2 as [_ H2].
    destruct (IH s2 r1 r2 H1 H2 Heq) as [-> ->]. done.
Qed.

(** X26: an id can be read back: two ids of [Utils.generateId] are equal
    exactly when they were generated in the same millisecond with the same
    random part, whatever characters the random part has. The same holds
    for the ids of sessions. *)
Theorem generateId_inj (env1 env2 : Env) :
  (Utils.generateId env1 = Utils.generateId env2 <->
   now env1 = now env2 /\ random36 env1 = random36 env2) /\
  (Analytics.generateSessionId env1 = Analytics.generateSessionId env2 <->
   now env1 = now env2 /\ random36 env1 = random36 env2).
Proof.
  assert (Hinj : forall prefix : string,
             prefix +:+ pretty (now env1) +:+ "_" +:+ random36 env1
             = prefix +:+ pretty (now env2) +:+ "_" +:+ random36 env2 <->
             now env1 = now env2 /\ random36 env1 = random36 env2).
  { intros prefix. split.
    - intros Heq. apply String.app_inj in Heq.
      apply underscore_split in Heq as [Hnow Hrandom];
        [|apply pretty_Z_no_underscore..].
      split; [by apply (inj pretty)|done].
    - by intros [-> ->]. }
  split; apply Hinj.
Qed.

(** ** The application controller *)

Section Controller.
Context `{codec : JSONCodec}.

Lemma Theme_init_analytics env has_toggle w :
  analytics (snd (Theme.init env has_toggle w)) = analytics w.
Proof.
  unfold Theme.init, Theme.getStoredTheme, getItem.
  destruct (theme_storage_ok env); [|done]. simpl.
  unfold Theme.watchSystemTheme, Theme.setupThemeToggle.
  destruct has_toggle; simpl; by rewrite (proj1 (proj2 (proj2 (applyTheme_frame _ _ _)))).
Qed.

Lemma Theme_init_raises env has_toggle w :
  theme_storage_ok env = false ->
  Theme.init env has_toggle w = (Thrown SecurityError, w).
Proof.
  intros Hfail. unfold Theme.init, Theme.getStoredTheme, getItem. by rewrite Hfail.
Qed.

Lemma LinkProApp_init_cases i m w :
  let app := LinkProApp.init i m w in
  if can_initialize i
  then LinkProApp.isInitialized app = true /\
       LinkProApp.caught app = None /\
       LinkProApp.error_message app = None /\
       LinkProApp.tracked_cards app = LinkProApp.link_cards m /\
       (events <$> analytics (LinkProApp.page app))
       = Some (events (first_session i) ++ [app_initialized i])
  else LinkProApp.isInitialized app = false /\
       LinkProApp.caught app
       = Some (if LinkProApp.reduced_motion i || LinkProApp.has_IntersectionObserver i
               then LinkProApp.Raised SecurityError
               else LinkProApp.ReferenceError) /\
       LinkProApp.error_message app = Some "Application failed to initialize" /\
       LinkProApp.tracked_cards app = [] /\
       analytics (LinkProApp.page app) = Some (first_session i).
Proof.
  cbv zeta. unfold can_initialize, LinkProApp.init.
  destruct (init_session (LinkProApp.at_session i) (LinkProApp.at_page_view i)
              (LinkProApp.referrer i) (LinkProApp.device i) w) as (Hret & Hs & _).
  destruct (Analytics.init _ _ _ _ w) as [c w1]. simpl in Hret, Hs. subst c.
  fold (first_session i) in Hs.
  unfold Animations.init.
  destruct (LinkProApp.reduced_motion i), (LinkProApp.has_IntersectionObserver i);
    simpl orb; cbv iota; try done;
    (destruct (theme_storage_ok (LinkProApp.at_theme i)) eqn:Hok;
     [ destruct (Theme_init_effects (LinkProApp.at_theme i)
                   (LinkProApp.has_themeToggle m) w1 Hok) as (Hret & _);
       pose proof (Theme_init_analytics (LinkProApp.at_theme i)
                     (LinkProApp.has_themeToggle m) w1) as Ha;
       destruct (Theme.init _ _ w1) as [c w2]; simpl in Hret, Ha; subst c;
       rewrite Hs in Ha;
       rewrite (trackEvent_initialised _ _ _ _ _ Ha); simpl;
       rewrite saveToStorage_analytics; done
     | rewrite (Theme_init_raises _ _ _ Hok); done ]).
Qed.

(** X27: when [init] runs to its end. It does exactly when the stored theme
    can be read and the animations can be set up or are not wanted (the
    user prefers reduced motion, or [IntersectionObserver] exists). Then
    [isInitialized] is set, no error is shown, every link card has its
    click listener, and the session holds [page_view] and
    [app_initialized]. Otherwise the exception is caught, the error box is
    shown, [isInitialized] stays unset and no link card gets a click
    listener; the session with its [page_view] exists all the same. *)
Theorem LinkProApp_init_outcome i m w :
  let app := LinkProApp.init i m w in
  (LinkProApp.isInitialized app = true <-> can_initialize i = true) /\
  (LinkProApp.caught app = None <-> can_initialize i = true) /\
  (can_initialize i = true ->
   LinkProApp.error_message app = None /\
   LinkProApp.tracked_cards app = LinkProApp.link_cards m /\
   (events <$> analytics (LinkProApp.page app))
   = Some (events (first_session i) ++ [app_initialized i])) /\
  (can_initialize i = false ->
   LinkProApp.error_message app = Some "Application failed to initialize" /\
   LinkProApp.tracked_cards app = [] /\
   analytics (LinkProApp.page app) = Some (first_session i)).
Proof.
  cbv zeta. pose proof (LinkProApp_init_cases i m w) as H. cbv zeta in H.
  destruct (can_initialize i).
  - destruct H as (-> & -> & -> & -> & ->). repeat split; done.
  - destruct H as (-> & -> & -> & -> & ->). repeat split; done.
Qed.

(** X28: a browser without [IntersectionObserver], for a user who does not
    prefer reduced motion: [Animations.init] raises before [Theme.init] is
    reached, so that the page gets no theme and no theme listener, whatever
    the storage holds; the guard of the lazy loading for the same missing
    feature is never reached. *)
Theorem init_without_IntersectionObserver i m w :
  LinkProApp.reduced_motion i = false ->
  LinkProApp.has_IntersectionObserver i = false ->
  let app := LinkProApp.init i m w in
  LinkProApp.caught app = Some LinkProApp.ReferenceError /\
  currentTheme (LinkProApp.page app) = currentTheme w /\
  data_theme (LinkProApp.page app) = data_theme w /\
  toggle_icon (LinkProApp.page app) = toggle_icon w /\
  Page.handlers_of click_themeToggle (LinkProApp.page app)
  = Page.handlers_of click_themeToggle w /\
  Page.handlers_of change_colorScheme (LinkProApp.page app)
  = Page.handlers_of change_colorScheme w /\
  LinkProApp.lazy_images app = None.
Proof.
  intros Hreduced Hobserver. cbv zeta. unfold LinkProApp.init, Animations.init.
  rewrite Hreduced, Hobserver.
  destruct (init_session (LinkProApp.at_session i) (LinkProApp.at_page_view i)
              (LinkProApp.referrer i) (LinkProApp.device i) w) as (Hret & _ & Hl).
  assert (Hframe : currentTheme (snd (Analytics.init (LinkProApp.at_session i)
                                        (LinkProApp.at_page_view i) (LinkProApp.referrer i)
                                        (LinkProApp.device i) w)) = currentTheme w /\
                   data_theme (snd (Analytics.init (LinkProApp.at_session i)
                                      (LinkProApp.at_page_view i) (LinkProApp.referrer i)
                                      (LinkProApp.device i) w)) = data_theme w /\
                   toggle_icon (snd (Analytics.init (LinkProApp.at_session i)
                                       (LinkProApp.at_page_view i) (LinkProApp.referrer i)
                                       (LinkProApp.device i) w)) = toggle_icon w).
  { unfold Analytics.init, Analytics.trackEvent. simpl.
    unfold Analytics.saveToStorage, setItem.
    by destruct (storage_ok (LinkProApp.at_page_view i)). }
  destruct (Analytics.init _ _ _ _ w) as [c w1]. simpl in Hret, Hl, Hframe. subst c.
  destruct Hframe as (Hc & Hd & Hi). simpl.
  unfold Page.handlers_of. rewrite Hl, !list.filter_app. simpl.
  rewrite !filter_cons_False, !filter_nil, !app_nil_r by done.
  repeat split; done.
Qed.

End Controller.

(** ** The further properties at concrete pages *)

Lemma persisted_copy_is_last_completed_write_witness :
  analytics session_page
  = Some {| sessionId := "session_1700000000000_a1b2c3d4e";
            startTime := 1700000000000; events := [] |} /\
  storage_ok (env_at 1700000009000) = true /\
  (events <$> analytics (@trackEvents numbering_codec flaky_calls session_page))
  = Some ([] ++ recorded "session_1700000000000_a1b2c3d4e" flaky_calls) /\
  match saved_prefix flaky_calls with
  | Some p =>
      fst (@Analytics.loadFromStorage numbering_codec (env_at 1700000009000)
             (@trackEvents numbering_codec flaky_calls session_page))
      = json_clean (JArr ([] ++ recorded "session_1700000000000_a1b2c3d4e" p))
  | None =>
      localStorage (@trackEvents numbering_codec flaky_calls session_page)
        !! APP_CONFIG.analytics.trackingKey
      = localStorage session_page !! APP_CONFIG.analytics.trackingKey
  end.
Proof.
  split; [reflexivity|]. split; [reflexivity|].
  exact (@persisted_copy_is_last_completed_write numbering_codec flaky_calls session_page
           _ (env_at 1700000009000) eq_refl eq_refl).
Defined.

Lemma completed_write_repairs_log_witness :
  analytics session_page
  = Some {| sessionId := "session_1700000000000_a1b2c3d4e";
            startTime := 1700000000000; events := [] |} /\
  storage_ok (call_env refused_call) = false /\
  storage_ok (call_env repairing_call) = true /\
  storage_ok (env_at 1700000009000) = true /\
  fst (@Analytics.loadFromStorage numbering_codec (env_at 1700000009000)
         (@trackEvents numbering_codec ([refused_call] ++ [repairing_call]) session_page))
  = JArr (clean_item <$> ([] ++ recorded "session_1700000000000_a1b2c3d4e"
                                  ([refused_call] ++ [repairing_call]))).
Proof.
  repeat (split; [reflexivity|]).
  exact (@completed_write_repairs_log numbering_codec [refused_call] repairing_call
           session_page _ (env_at 1700000009000) eq_refl eq_refl eq_refl).
Defined.

Lemma init_replaces_stored_log_witness :
  storage_ok (env_at 0) = true /\
  Forall (fun c => storage_ok (call_env c) = true) two_calls /\
  storage_ok (env_at 1700000009000) = true /\
  exists log,
    fst (@Analytics.loadFromStorage numbering_codec (env_at 1700000009000)
           (@trackEvents numbering_codec two_calls
              (snd (@Analytics.init numbering_codec (env_at 0) (env_at 0) "" JNull
                      (@stored numbering_codec three_sessions)))))
    = JArr log /\
    event_name <$> log = Some "page_view" :: (Some ∘ call_name <$> two_calls) /\
    Forall (fun e => get_prop e "sessionId"
                     = Normal (JStr (Analytics.generateSessionId (env_at 0)))) log.
Proof.
  assert (H2 : Forall (fun c => storage_ok (call_env c) = true) two_calls)
    by (repeat constructor).
  split; [reflexivity|]. split; [exact H2|]. split; [reflexivity|].
  exact (@init_replaces_stored_log numbering_codec (env_at 0) (env_at 0) "" JNull
           (@stored numbering_codec three_sessions) two_calls (env_at 1700000009000)
           eq_refl H2 eq_refl).
Defined.


Lemma summary_after_clicks_witness :
  storage_ok (env_at 0) = true /\
  Forall (fun click : Env * LinkCard => storage_ok (fst click) = true) three_clicks /\
  storage_ok (env_at 1700000009000) = true /\
  Forall (fun c => c ∉ Object_prototype_keys) ["music"; "unknown"; "music"] /\
  exists sm,
    fst (@Analytics.getSummary numbering_codec (env_at 1700000009000)
           (@click_cards numbering_codec three_clicks
              (snd (@Analytics.init numbering_codec (env_at 0) (env_at 0) "" JNull
                      (Page.fresh ∅ None)))))
    = Normal sm /\
    totalClicks sm = Z.of_nat (length three_clicks) /\
    forall c, categories sm !! c =
              if (occurrences c ["music"; "unknown"; "music"] =? 0)%Z then None
              else Some (TNum (occurrences c ["music"; "unknown"; "music"])).
Proof.
  assert (H2 : Forall (fun click : Env * LinkCard => storage_ok (fst click) = true)
                 three_clicks) by (repeat constructor).
  assert (H4 : Forall (fun c => c ∉ Object_prototype_keys) ["music"; "unknown"; "music"]).
  { apply (bool_decide_unpack _). vm_compute. exact I. }
  split; [reflexivity|]. split; [exact H2|]. split; [reflexivity|]. split; [exact H4|].
  exact (@summary_after_clicks numbering_codec (env_at 0) (env_at 0) "" JNull
           (Page.fresh ∅ None) three_clicks (env_at 1700000009000) eq_refl H2 eq_refl H4).
Defined.

Lemma applyTheme_icon_matches_theme_witness :
  let w := Page.fresh ∅ (Some "fas fa-moon") in
  toggle_icon w = Some "fas fa-moon" /\
  toggle_icon (Theme.applyTheme (dark_at 0) "system" w)
  = Some (if decide (data_theme (Theme.applyTheme (dark_at 0) "system" w) = Some "dark")
          then "fas fa-sun" else "fas fa-moon").
Proof.
  split; [reflexivity|].
  exact (applyTheme_icon_matches_theme (dark_at 0) "system"
           (Page.fresh ∅ (Some "fas fa-moon")) "fas fa-moon" eq_refl).
Defined.

Lemma Theme_init_state_witness :
  let w := Page.fresh {[ "linkpro_theme" := "dark" ]} (Some "fas fa-moon") in
  theme_storage_ok (env_at 0) = true /\
  fst (Theme.init (env_at 0) true w) = Returned /\
  currentTheme (snd (Theme.init (env_at 0) true w))
  = initial_theme (localStorage w !! "linkpro_theme") /\
  data_theme (snd (Theme.init (env_at 0) true w))
  = Some (if String.eqb (initial_theme (localStorage w !! "linkpro_theme")) "system"
          then if prefers_dark (env_at 0) then "dark" else "light"
          else initial_theme (localStorage w !! "linkpro_theme")) /\
  localStorage (snd (Theme.init (env_at 0) true w)) = localStorage w /\
  listeners (snd (Theme.init (env_at 0) true w))
  = listeners w ++
    (if true then [(click_themeToggle, H_themeToggle)] else []) ++
    [(change_colorScheme, H_watchSystemTheme)].
Proof.
  split; [reflexivity|].
  exact (Theme_init_state (env_at 0) true
           (Page.fresh {[ "linkpro_theme" := "dark" ]} (Some "fas fa-moon")) eq_refl).
Defined.

Lemma theme_restored_on_next_load_witness :
  analytics session_page
  = Some {| sessionId := "session_1700000000000_a1b2c3d4e";
            startTime := 1700000000000; events := [] |} /\
  theme_storage_ok (env_at 10) = true /\
  theme_storage_ok (dark_at 20) = true /\
  let next := Page.fresh
                (localStorage (snd (@Theme.themeToggle_click numbering_codec (env_at 10)
                                      session_page))) (Some "fas fa-moon") in
  currentTheme (snd (Theme.init (dark_at 20) true next))
  = toggled (currentTheme session_page) /\
  data_theme (snd (Theme.init (dark_at 20) true next))
  = Some (toggled (currentTheme session_page)).
Proof.
  split; [reflexivity|]. split; [reflexivity|]. split; [reflexivity|].
  exact (@theme_restored_on_next_load numbering_codec (env_at 10) session_page _
           (dark_at 20) true (Some "fas fa-moon") eq_refl eq_refl eq_refl).
Defined.

Lemma theme_state_after_events_witness :
  theme_storage_ok (env_at 0) = true /\
  Page.handlers_of click_themeToggle session_page = [] /\
  Page.handlers_of change_colorScheme session_page = [] /\
  currentTheme (@theme_events numbering_codec theme_story
                  (snd (Theme.init (env_at 0) true session_page)))
  = Nat.iter (clicks_in theme_story) toggled
      (initial_theme (localStorage session_page !! "linkpro_theme")).
Proof.
  repeat (split; [reflexivity|]).
  exact (@theme_state_after_events numbering_codec (env_at 0) session_page theme_story
           eq_refl eq_refl eq_refl).
Defined.

Lemma theme_shown_after_events_witness :
  theme_storage_ok (env_at 0) = true /\
  Page.handlers_of click_themeToggle session_page = [] /\
  Page.handlers_of change_colorScheme session_page = [] /\
  writes_complete theme_story_stored = true /\
  let w' := @theme_events numbering_codec theme_story_stored
              (snd (Theme.init (env_at 0) true session_page)) in
  data_theme w'
  = Some (shown_theme (currentTheme w')
            (system_dark (prefers_dark (env_at 0)) theme_story_stored)).
Proof.
  repeat (split; [reflexivity|]).
  exact (@theme_shown_after_events numbering_codec (env_at 0) session_page
           theme_story_stored eq_refl eq_refl eq_refl eq_refl).
Defined.

Lemma animateNumber_nonpositive_target_witness :
  -5 <= 0 /\ representable (-5) /\ 16 <= 2000 /\ representable 2000 /\
  Utils.animateNumber 1 (Double.of_Z (-5)) (Double.of_Z 2000) = ([shown_integer (-5)], true).
Proof.
  assert (H1 : -5 <= 0) by lia.
  assert (H2 : representable (-5)) by (vm_compute; reflexivity).
  assert (H3 : 16 <= 2000) by lia.
  assert (H4 : representable 2000) by (vm_compute; reflexivity).
  split; [exact H1|]. split; [exact H2|]. split; [exact H3|]. split; [exact H4|].
  exact (animateNumber_nonpositive_target (-5) 2000 0 H1 H2 H3 H4).
Defined.

Lemma animateNumber_never_decreases_witness :
  1 <= 25 /\ representable 25 /\ 1 <= 2000 <= 2 ^ 30 /\
  (Z.to_nat (ticks_of 2000 + 1) <= 126)%nat /\
  forall (i j : nat) (a b : Double.double),
    (i <= j)%nat ->
    fst (Utils.animateNumber 126 (Double.of_Z 25) (Double.of_Z 2000)) !! i = Some a ->
    fst (Utils.animateNumber 126 (Double.of_Z 25) (Double.of_Z 2000)) !! j = Some b ->
    Double.ge a (Double.of_Z 0) = true /\ Double.ge b a = true.
Proof.
  assert (H1 : 1 <= 25) by lia.
  assert (H2 : representable 25) by (vm_compute; reflexivity).
  assert (H3 : 1 <= 2000 <= 2 ^ 30) by lia.
  assert (H4 : (Z.to_nat (ticks_of 2000 + 1) <= 126)%nat) by (vm_compute; lia).
  split; [exact H1|]. split; [exact H2|]. split; [exact H3|]. split; [exact H4|].
  exact (animateNumber_never_decreases 25 2000 126 H1 H2 H3 H4).
Defined.

Lemma scroll_burst_updates_header_witness :
  Animations.ticking Animations.setupScrollAnimations = false /\
  Animations.frames Animations.setupScrollAnimations = 0%nat /\
  foldl (Animations.scroll_step true) Animations.setupScrollAnimations
    (replicate 3 Animations.Scrolled
       ++ [Animations.TimerRan; Animations.AnimationFrame 250])
  = {| Animations.timeout := None; Animations.ticking := false;
       Animations.frames := 0;
       Animations.header_background := Some (Animations.header_alpha 250) |}.
Proof.
  repeat (split; [reflexivity|]).
  exact (scroll_burst_updates_header true Animations.setupScrollAnimations 2 250
           eq_refl eq_refl).
Defined.

Lemma header_alpha_range_witness :
  (0 <= 50)%Q /\
  ((8 # 10) <= Animations.header_alpha 50 <= 1)%Q /\
  (Animations.header_alpha 0 == 8 # 10)%Q /\
  ((100 <= 50)%Q -> (Animations.header_alpha 50 == 1)%Q) /\
  (forall y : Q, (50 <= y)%Q ->
     (Animations.header_alpha 50 <= Animations.header_alpha y)%Q).
Proof.
  assert (H1 : (0 <= 50)%Q) by (unfold Qle; simpl; lia).
  split; [exact H1|]. exact (header_alpha_range 50 H1).
Defined.

Lemma init_without_IntersectionObserver_witness :
  let w := Page.fresh {[ "linkpro_theme" := "dark" ]} (Some "fas fa-moon") in
  let app := @LinkProApp.init numbering_codec old_browser small_page w in
  LinkProApp.reduced_motion old_browser = false /\
  LinkProApp.has_IntersectionObserver old_browser = false /\
  LinkProApp.caught app = Some LinkProApp.ReferenceError /\
  currentTheme (LinkProApp.page app) = currentTheme w /\
  data_theme (LinkProApp.page app) = data_theme w /\
  toggle_icon (LinkProApp.page app) = toggle_icon w /\
  Page.handlers_of click_themeToggle (LinkProApp.page app)
  = Page.handlers_of click_themeToggle w /\
  Page.handlers_of change_colorScheme (LinkProApp.page app)
  = Page.handlers_of change_colorScheme w /\
  LinkProApp.lazy_images app = None.
Proof.
  cbv zeta. split; [reflexivity|]. split; [reflexivity|].
  exact (@init_without_IntersectionObserver numbering_codec old_browser small_page
           (Page.fresh {[ "linkpro_theme" := "dark" ]} (Some "fas fa-moon"))
           eq_refl eq_refl).
Defined.
